(** * Legal document analyzer: clause classifier, risk engine, summarizers

    A shallow embedding of the text-analysis core of the repository
    (src/lib/ml-classifier.ts, src/lib/risk-assessment-engine.ts,
    src/lib/client-side-abstractive.ts, src/lib/multilingual-summarizer.ts)
    and the proofs of the properties its specification states.

    Further parts embed the extractive summarizer of the same file, the
    text extraction from an uploaded PDF, the summarize route and two
    helpers of the dashboard, with properties read off the code.

    Conventions of the embedding:
    - a JavaScript string is the list of its code units, kept in [ascii]
      (code units 0..255); [toLowerCase] acts on the ASCII and the Latin-1
      capitals; the flag [i] and [toUpperCase] are only ever applied by the
      source to patterns and constants made of ASCII characters, where they
      act on the ASCII letters;
    - a JavaScript number that holds a fraction is an exact rational ([Q]);
      counts, offsets and the rounded risk score are integers ([Z]/[nat]).
      Where a statement depends on how the arithmetic rounds, the code is
      embedded over binary64 numbers ([Binary64]): the risk score a second
      time, in [RiskEngine64], and the compression ratio of the
      multilingual summarizer;
    - [Math.random] is a stream of draws read through a counter that is
      threaded through the code that calls it;
    - [console.log] and the artificial delay of [classifyDocument] have no
      effect on the results and are left out. *)

From Stdlib Require Import Ascii String DecimalString.
From Stdlib Require Import Bool Arith ZArith QArith Qround Lia Lqa List Sorted Permutation.
From Stdlib Require Floats.SpecFloat.
Import ListNotations.

Set Implicit Arguments.

(** ** JavaScript strings and numbers *)

Module JS.

Definition str := list ascii.

Definition lit (s : string) : str := list_ascii_of_string s.
Arguments lit s%_string.

Definition code (c : ascii) : nat := nat_of_ascii c.

Definition between (lo hi : nat) (c : ascii) : bool :=
  (lo <=? code c)%nat && (code c <=? hi)%nat.

(** [\s] and the characters [trim] removes, on code units below 256. *)
Definition isSpace (c : ascii) : bool :=
  between 9 13 c || (code c =? 32)%nat || (code c =? 160)%nat.

Definition isDigit (c : ascii) : bool := between 48 57 c.
Definition isUpperAZ (c : ascii) : bool := between 65 90 c.
Definition isLowerAZ (c : ascii) : bool := between 97 122 c.

(** [\w]: letters, digits and the underscore. *)
Definition isWordChar (c : ascii) : bool :=
  isUpperAZ c || isLowerAZ c || isDigit c || (code c =? 95)%nat.

Definition lowerChar (c : ascii) : ascii :=
  if isUpperAZ c || (between 192 222 c && negb (code c =? 215)%nat)
  then ascii_of_nat (code c + 32) else c.

Definition upperChar (c : ascii) : ascii :=
  if isLowerAZ c || (between 224 254 c && negb (code c =? 247)%nat)
  then ascii_of_nat (code c - 32) else c.

Definition toLowerCase (s : str) : str := map lowerChar s.
Definition toUpperCase (s : str) : str := map upperChar s.

Definition chr_eqb (a b : ascii) : bool := Ascii.eqb a b.

Fixpoint str_eqb (a b : str) : bool :=
  match a, b with
  | [], [] => true
  | x :: a', y :: b' => chr_eqb x y && str_eqb a' b'
  | _, _ => false
  end.

Fixpoint startsWith (s p : str) {struct p} : bool :=
  match p, s with
  | [], _ => true
  | _ :: _, [] => false
  | x :: p', y :: s' => chr_eqb x y && startsWith s' p'
  end.

(** [s.includes(p)]: [p] occurs at some offset of [s]. *)
Fixpoint includes (s p : str) : bool :=
  startsWith s p ||
  match s with
  | [] => false
  | _ :: s' => includes s' p
  end.

(** [s.slice(a, b)] for [0 <= a <= b]; offsets past the end stop at it. *)
Definition slice (a b : nat) (s : str) : str := firstn (b - a) (skipn a s).

Fixpoint dropSpaces (s : str) : str :=
  match s with
  | c :: s' => if isSpace c then dropSpaces s' else s
  | [] => []
  end.

Definition trim (s : str) : str := rev (dropSpaces (rev (dropSpaces s))).

(** [s.charAt(0).toUpperCase() + s.slice(1)] *)
Definition capitalize (s : str) : str :=
  match s with
  | [] => []
  | c :: s' => upperChar c :: s'
  end.

(** [s.charAt(0).toLowerCase() + s.slice(1)] *)
Definition uncapitalize (s : str) : str :=
  match s with
  | [] => []
  | c :: s' => lowerChar c :: s'
  end.

(** [a.join(sep)] *)
Fixpoint join (sep : str) (l : list str) : str :=
  match l with
  | [] => []
  | [x] => x
  | x :: l' => x ++ sep ++ join sep l'
  end.

(** The double quote, code unit 34. *)
Definition quote : ascii := ascii_of_nat 34.

(** Decimal rendering of an index inside a template literal. *)
Definition ofNat (n : nat) : str :=
  lit (NilEmpty.string_of_uint (Nat.to_uint n)).

(** [[...new Set(l)]]: first occurrences, in order. *)
Fixpoint uniq (seen : list str) (l : list str) : list str :=
  match l with
  | [] => []
  | x :: l' =>
      if existsb (str_eqb x) seen then uniq seen l'
      else x :: uniq (x :: seen) l'
  end.

Definition Math_min (a b : Q) : Q := if Qle_bool a b then a else b.

(** [Math.round]: the nearest integer, halves going up. *)
Definition Math_round (x : Q) : Z := Qfloor (x + (1 # 2)).

(** [a.sort(cmp)] is stable; [le0 a b] says that [cmp(a, b) <= 0]. *)
Section Sort.
Variable A : Type.
Variable le0 : A -> A -> bool.

Fixpoint insert (x : A) (l : list A) : list A :=
  match l with
  | [] => [x]
  | y :: l' => if le0 x y then x :: l else y :: insert x l'
  end.

Fixpoint sort (l : list A) : list A :=
  match l with
  | [] => []
  | x :: l' => insert x (sort l')
  end.
End Sort.

(** [a.findIndex(p)], [None] for [-1]. *)
Fixpoint findIndex (A : Type) (p : A -> bool) (l : list A) : option nat :=
  match l with
  | [] => None
  | x :: l' => if p x then Some 0%nat else option_map S (findIndex p l')
  end.

(** [a.filter((x, index) => p(x, index))] *)
Fixpoint filteri_from (A : Type) (i : nat) (p : A -> nat -> bool) (l : list A) : list A :=
  match l with
  | [] => []
  | x :: l' => if p x i then x :: filteri_from (S i) p l' else filteri_from (S i) p l'
  end.

Definition filteri (A : Type) (p : A -> nat -> bool) (l : list A) : list A :=
  filteri_from 0 p l.

(** [a.map((x, index) => f(x, index))] *)
Fixpoint mapi_from (A B : Type) (i : nat) (f : A -> nat -> B) (l : list A) : list B :=
  match l with
  | [] => []
  | x :: l' => f x i :: mapi_from (S i) f l'
  end.

Definition mapi (A B : Type) (f : A -> nat -> B) (l : list A) : list B :=
  mapi_from 0 f l.

(** What a call that may throw ends in: a value, or the exception. *)
Inductive Error : Type :=
| TypeError
| Failure (message : str).

Inductive Result (X : Type) : Type :=
| Ok (x : X)
| Throw (e : Error).
Arguments Ok {X} x.
Arguments Throw {X} e.

End JS.

Import JS.

(** ** Binary64 numbers

    The numbers of JavaScript, for the two computations whose result
    depends on the rounding of the arithmetic: the risk score and the
    compression ratio. A number is a [spec_float] of the library, with 53
    bits of precision; the operations are those of IEEE 754 with rounding to
    nearest, ties to even. *)

Module Binary64.
Import SpecFloat.

Definition prec : Z := 53.
Definition emax : Z := 1024.

Definition double : Type := spec_float.

Definition zero : double := S754_zero false.

(** An integer as a number; exact below 2^53. *)
Definition ofZ (z : Z) : double := binary_normalize prec emax z 0 false.
Definition ofNat (n : nat) : double := ofZ (Z.of_nat n).

Definition add : double -> double -> double := SFadd prec emax.
Definition mul : double -> double -> double := SFmul prec emax.
Definition div : double -> double -> double := SFdiv prec emax.

(** [a < b]; false when either is [NaN]. *)
Definition ltb : double -> double -> bool := SFltb.

(** The number nearest to the fraction [q], as a decimal literal or a JSON
    number reads, for a numerator and a denominator below 2^53. *)
Definition ofQ (q : Q) : double := div (ofZ (Qnum q)) (ofZ (Zpos (Qden q))).

(** [Math.round]: the nearest integer, halves going up; what has no
    fraction part, is infinite or is no number stays as it is, and a result
    of zero keeps the sign. *)
Definition Math_round (x : double) : double :=
  match x with
  | S754_finite s m (Zneg k) =>
      match Z.shiftr (cond_Zopp s (Zpos m) + Z.shiftl 1 (Zpos k - 1)) (Zpos k) with
      | Z0 => S754_zero s
      | r => ofZ r
      end
  | _ => x
  end.

(** [Math.min]: [NaN] if either is, and -0 below +0. *)
Definition Math_min (a b : double) : double :=
  match a, b with
  | S754_nan, _ | _, S754_nan => S754_nan
  | S754_zero sa, S754_zero sb => S754_zero (sa || sb)
  | _, _ => if ltb b a then b else a
  end.

End Binary64.

(** ** Regular expressions

    The backtracking matcher of the language specification, in
    continuation-passing style, for the constructs the source's patterns
    use: single code units (literals, classes, escapes), sequence,
    alternation, greedy quantifiers and the word boundary. Groups only
    group: no pattern of the source refers back to one. *)

Module Regex.

Inductive regex : Type :=
| Chr (p : ascii -> bool)
| Eps
| Seq (r1 r2 : regex)
| Alt (r1 r2 : regex)
| Rep (r : regex) (lo : nat) (hi : option nat)
| WordB.

(** A position in the input: the code unit before it and what follows. *)
Record pos : Type := mkPos { before : option ascii; rest : str }.

Definition cont : Type := pos -> option pos.

Definition isWordAt (o : option ascii) : bool :=
  match o with
  | Some c => isWordChar c
  | None => false
  end.

Definition atBoundary (x : pos) : bool :=
  xorb (isWordAt (before x)) (isWordAt (hd_error (rest x))).

(** A greedy quantifier over the matcher [m] of its body, as the language
    specification gives it: stop when [hi] is used up; else run the body
    once more, refusing an empty round once [lo] is met; when the body
    fails and [lo] is met, go on with [k]. Every round either pays off one
    of the [lo] repetitions owed or consumes input, which bounds the number
    of rounds; [fuel] is that bound. *)
Section Quantifier.

Variable m : pos -> cont -> option pos.

Fixpoint iter (fuel lo : nat) (hi : option nat) (x : pos) (k : cont) {struct fuel}
  : option pos :=
  match hi with
  | Some O => k x
  | _ =>
      match fuel with
      | O => None
      | S fuel' =>
          let again :=
            m x (fun y =>
              if (lo =? 0)%nat && (length (rest y) =? length (rest x))%nat
              then None
              else iter fuel' (pred lo) (option_map pred hi) y k) in
          if (0 <? lo)%nat then again
          else match again with
               | Some z => Some z
               | None => k x
               end
      end
  end.

End Quantifier.

(** [run r x k]: match [r] at [x] and hand the position reached to [k];
    [None] is failure, which makes the caller try its next choice. *)
Fixpoint run (r : regex) (x : pos) (k : cont) : option pos :=
  match r with
  | Chr p =>
      match rest x with
      | c :: s => if p c then k (mkPos (Some c) s) else None
      | [] => None
      end
  | Eps => k x
  | Seq r1 r2 => run r1 x (fun y => run r2 y k)
  | Alt r1 r2 =>
      match run r1 x k with
      | Some z => Some z
      | None => run r2 x k
      end
  | Rep r0 lo hi => iter (run r0) (S (length (rest x) + lo)) lo hi x k
  | WordB => if atBoundary x then k x else None
  end.

(** One match: where it starts, what it covers, where it ends. *)
Record found : Type := mkFound { index : nat; matched : str; after : pos }.

(** [exec] from offset [i]: the leftmost offset at which [r] matches. *)
Fixpoint exec (r : regex) (i : nat) (b : option ascii) (s : str) : option found :=
  match run r (mkPos b s) Some with
  | Some y => Some (mkFound i (firstn (length s - length (rest y)) s) y)
  | None =>
      match s with
      | [] => None
      | c :: s' => exec r (S i) (Some c) s'
      end
  end.

(** All matches of a global pattern, left to right, not overlapping; an
    empty match moves the scan one code unit on. *)
Fixpoint matchAllFrom (r : regex) (fuel i : nat) (b : option ascii) (s : str)
  : list (nat * str) :=
  match fuel with
  | O => []
  | S fuel' =>
      match exec r i b s with
      | None => []
      | Some f =>
          let here := (index f, matched f) in
          match matched f, rest (after f) with
          | [], [] => [here]
          | [], c :: s' =>
              here :: matchAllFrom r fuel' (S (index f)) (Some c) s'
          | _ :: _, s' =>
              here :: matchAllFrom r fuel' (index f + length (matched f))
                        (before (after f)) s'
          end
      end
  end.

(** [Array.from(s.matchAll(r))]: offset and text of every match. *)
Definition matchAll (r : regex) (s : str) : list (nat * str) :=
  matchAllFrom r (S (length s)) 0 None s.

(** [s.match(r) || []] for a global [r]. *)
Definition matches (r : regex) (s : str) : list str := map snd (matchAll r s).

(** [r.test(s)] on a fresh pattern object. *)
Definition test (r : regex) (s : str) : bool :=
  match exec r 0 None s with
  | Some _ => true
  | None => false
  end.

(** [s.split(r)] for a pattern that matches no empty string: the pieces
    between the matches. *)
Fixpoint pieces (ms : list (nat * str)) (p : nat) (s : str) : list str :=
  match ms with
  | [] => [s]
  | (j, m) :: ms' =>
      firstn (j - p) s :: pieces ms' (j + length m) (skipn (j - p + length m) s)
  end.

Definition split (r : regex) (s : str) : list str := pieces (matchAll r s) 0 s.

(** [s.replace(r, t)] for a global [r] that matches no empty string. *)
Definition replaceAll (r : regex) (t : str) (s : str) : str := join t (split r s).

(** Pattern builders. *)
Definition foldCase (c : ascii) : ascii :=
  if isLowerAZ c then ascii_of_nat (code c - 32) else c.

(** A literal ASCII code unit under the flag [i]. *)
Definition ci (c : ascii) : regex := Chr (fun x => chr_eqb (foldCase x) (foldCase c)).

(** A literal code unit, case-sensitive. *)
Definition cs (c : ascii) : regex := Chr (chr_eqb c).

Fixpoint seqOf (l : list regex) : regex :=
  match l with
  | [] => Eps
  | [r] => r
  | r :: l' => Seq r (seqOf l')
  end.

Fixpoint altOf (l : list regex) : regex :=
  match l with
  | [] => Chr (fun _ => false)
  | [r] => r
  | r :: l' => Alt r (altOf l')
  end.

(** A literal phrase under the flag [i]. *)
Definition word (s : string) : regex := seqOf (map ci (lit s)).
Arguments word s%_string.

(** [w1|w2|...] under the flag [i]. *)
Definition words (l : list string) : regex := altOf (map word l).

Definition plus (r : regex) : regex := Rep r 1 None.
Definition star (r : regex) : regex := Rep r 0 None.
Definition opt (r : regex) : regex := Rep r 0 (Some 1%nat).
Definition times (lo hi : nat) (r : regex) : regex := Rep r lo (Some hi).

Definition space : regex := Chr isSpace.
Definition digit : regex := Chr isDigit.

(** [/\s+/] and [/[.!?]+/] *)
Definition spaces : regex := plus space.
Definition sentenceEnd : regex :=
  plus (Chr (fun c => chr_eqb c "."%char || chr_eqb c "!"%char || chr_eqb c "?"%char)).

(** [s.split(" ")]: a separator string of one code unit. *)
Definition splitOn (c : ascii) (s : str) : list str := split (cs c) s.

End Regex.

(** ** The clause classifier (src/lib/ml-classifier.ts) *)

Module Classifier.
Import Regex.

Inductive ClauseType : Type :=
| termination | nda | payment | liability | intellectual_property.

Inductive RiskLevel : Type := low | medium | high.

Record ClauseMatch : Type := mkClause {
  type : ClauseType;
  text : str;
  confidence : Q;
  startIndex : Z;
  endIndex : Z;
  riskLevel : RiskLevel;
  explanation : str
}.

Record Summary : Type := mkSummary {
  totalClauses : nat;
  highRiskClauses : nat;
  mediumRiskClauses : nat;
  lowRiskClauses : nat
}.

Record ClassificationResult : Type := mkResult {
  clauses : list ClauseMatch;
  summary : Summary
}.

Definition type_eqb (a b : ClauseType) : bool :=
  match a, b with
  | termination, termination | nda, nda | payment, payment
  | liability, liability | intellectual_property, intellectual_property => true
  | _, _ => false
  end.

Definition level_eqb (a b : RiskLevel) : bool :=
  match a, b with
  | low, low | medium, medium | high, high => true
  | _, _ => false
  end.

(** [Object.keys(CLAUSE_PATTERNS)], in the order the table is written. *)
Definition clauseTypes : list ClauseType :=
  [termination; nda; payment; liability; intellectual_property].

(** Every pattern of [CLAUSE_PATTERNS] is an alternation of literal
    phrases under the flags [g] and [i]; these are the phrases, pattern by
    pattern. *)
Definition CLAUSE_WORDS (t : ClauseType) : list (list string) :=
  match t with
  | termination =>
      [ ["terminate"; "termination"; "end this agreement"; "dissolution";
         "breach"; "default"; "expire"];
        ["notice period"; "30 days"; "60 days"; "immediate termination";
         "cause"; "without cause"];
        ["survival"; "surviving provisions"; "post-termination"] ]
  | nda =>
      [ ["confidential"; "non-disclosure"; "proprietary"; "trade secret";
         "confidentiality"];
        ["shall not disclose"; "maintain confidentiality"; "protect information"];
        ["return all materials"; "destroy confidential"] ]
  | payment =>
      [ ["payment"; "invoice"; "fee"; "compensation"; "salary"; "remuneration"];
        ["due date"; "net 30"; "payment terms"; "late fees"; "interest"];
        ["milestone"; "installment"; "advance payment"; "retainer"] ]
  | liability =>
      [ ["liability"; "damages"; "indemnify"; "limitation of liability";
         "consequential damages"];
        ["shall not be liable"; "maximum liability"; "cap on damages"] ]
  | intellectual_property =>
      [ ["intellectual property"; "copyright"; "trademark"; "patent";
         "work for hire"];
        ["ownership"; "license"; "derivative works"; "moral rights"] ]
  end%string.

Definition CLAUSE_PATTERNS (t : ClauseType) : list regex :=
  map words (CLAUSE_WORDS t).

Definition RISK_KEYWORDS (l : RiskLevel) : list str :=
  match l with
  | high =>
      [ lit "unlimited liability"; lit "personal guarantee";
        lit "immediate termination"; lit "no notice"; lit "perpetual";
        lit "irrevocable"; lit "waive all rights"; lit "without cause";
        lit "sole discretion"; lit "no limitation"; lit "indemnify against all";
        lit "hold harmless" ]
  | medium =>
      [ lit "reasonable notice"; lit "material breach"; lit "cure period";
        lit "limited liability"; lit "indemnification"; lit "30 days notice";
        lit "written notice"; lit "breach of contract"; lit "liquidated damages" ]
  | low =>
      [ lit "mutual agreement"; lit "standard terms"; lit "industry standard";
        lit "reasonable"; lit "good faith"; lit "fair dealing";
        lit "commercially reasonable" ]
  end.

(** [preprocessText]; [classifyDocument] computes it and never reads it. *)
Definition preprocessText (t : str) : str :=
  trim (replaceAll spaces (lit " ")
          (replaceAll (Chr (fun c => negb (isWordChar c || isSpace c))) (lit " ")
             (toLowerCase t))).

Definition calculateConfidence (t : str) (clauseType : ClauseType) : Q :=
  let baseConfidence := 75 # 100 in
  let contextWords :=
    length (filter (fun w => (2 <? length w)%nat) (splitOn " " t)) in
  let relevantWords :=
    fold_left (fun acc pattern => (acc + length (matches pattern t))%nat)
      (CLAUSE_PATTERNS clauseType) 0%nat in
  let lengthBonus := Math_min (15 # 100) (inject_Z (Z.of_nat (length t)) / 1000) in
  let c :=
    Math_min (98 # 100)
      (baseConfidence
       + (inject_Z (Z.of_nat relevantWords)
          / inject_Z (Z.of_nat (Nat.max contextWords 10))) * (2 # 10)
       + lengthBonus) in
  inject_Z (Math_round (c * 100)) / 100.

(** The explanation table has an entry for every type and level, so its
    fallback text is never used. *)
Definition generateExplanation (t : ClauseType) (l : RiskLevel) : str :=
  match t, l with
  | termination, high => lit "This termination clause may allow immediate termination without notice, which could pose significant risk."
  | termination, medium => lit "Standard termination clause with reasonable notice period and cure provisions."
  | termination, low => lit "Balanced termination clause with mutual protections and fair notice requirements."
  | nda, high => lit "Broad confidentiality terms that may be overly restrictive or have unclear scope."
  | nda, medium => lit "Standard non-disclosure provisions with reasonable scope and duration."
  | nda, low => lit "Basic confidentiality clause with clear definitions and fair terms."
  | payment, high => lit "Payment terms may include penalties, personal guarantees, or unfavorable conditions."
  | payment, medium => lit "Standard payment terms with reasonable due dates and late fee provisions."
  | payment, low => lit "Fair payment structure with clear terms and reasonable collection procedures."
  | liability, high => lit "Liability clause may expose you to unlimited damages or broad indemnification."
  | liability, medium => lit "Balanced liability terms with some limitations and reasonable indemnification."
  | liability, low => lit "Well-protected liability clause with caps and mutual indemnification."
  | intellectual_property, high => lit "IP clause may transfer broad rights or include unclear ownership terms."
  | intellectual_property, medium => lit "Standard IP provisions with reasonable licensing and ownership terms."
  | intellectual_property, low => lit "Clear IP clause that protects your rights and defines ownership appropriately."
  end.

(** Code that draws random numbers: the number of draws made so far goes
    in and comes out. *)
Definition Rand (A : Type) : Type := nat -> A * nat.

Definition ret (A : Type) (a : A) : Rand A := fun n => (a, n).

Definition bind (A B : Type) (c : Rand A) (k : A -> Rand B) : Rand B :=
  fun n => let (a, n') := c n in k a n'.

(** [l.forEach(x => out.push(...f(x)))] for an [f] that may draw. *)
Fixpoint flatMapR (A B : Type) (f : A -> Rand (list B)) (l : list A) : Rand (list B) :=
  match l with
  | [] => ret []
  | x :: l' =>
      bind (f x) (fun ys => bind (flatMapR f l') (fun zs => ret (ys ++ zs)))
  end.

Section WithRandom.

(** The draws of [Math.random], in the order they are made. *)
Variable random : nat -> Q.

Definition Math_random : Rand Q := fun n => (random n, S n).

Definition assessRisk (t : str) (clauseType : ClauseType) : Rand RiskLevel :=
  let lowerText := toLowerCase t in
  if existsb (includes lowerText) (RISK_KEYWORDS high) then ret high
  else if existsb (includes lowerText) (RISK_KEYWORDS medium) then ret medium
  else if type_eqb clauseType termination
          && (includes lowerText (lit "immediate")
              || includes lowerText (lit "without notice")) then ret high
  else if type_eqb clauseType termination
          && (includes lowerText (lit "30 days")
              || includes lowerText (lit "notice period")) then ret medium
  else if type_eqb clauseType liability
          && (includes lowerText (lit "unlimited")
              || includes lowerText (lit "no limit")) then ret high
  else if type_eqb clauseType liability
          && (includes lowerText (lit "indemnify")
              || includes lowerText (lit "damages")) then ret medium
  else if type_eqb clauseType payment
          && (includes lowerText (lit "penalty")
              || includes lowerText (lit "late fee")) then ret medium
  else if type_eqb clauseType payment
          && includes lowerText (lit "personal guarantee") then ret high
  else
    let hasComplexTerms :=
      test (words ["shall"; "hereby"; "whereas"; "notwithstanding";
                   "provided that"]%string) t in
    let isLongClause := (300 <? length t)%nat in
    if hasComplexTerms && isLongClause then
      bind Math_random (fun r =>
        ret (if Qle_bool r (6 # 10) then low else medium))
    else
      bind Math_random (fun riskRoll =>
        ret (if negb (Qle_bool (1 # 10) riskRoll) then high
             else if negb (Qle_bool (4 # 10) riskRoll) then medium
             else low)).

(** The body of the inner [forEach] of [classifyClause]: one regex hit. *)
Definition clauseOfMatch (t : str) (ty : ClauseType) (m : nat * str)
  : Rand (list ClauseMatch) :=
  let idx := Z.of_nat (fst m) in
  let matchText := snd m in
  let contextStart := Z.max 0 (idx - 200) in
  let contextEnd :=
    Z.min (Z.of_nat (length t)) (idx + Z.of_nat (length matchText) + 200) in
  let contextText :=
    trim (replaceAll spaces (lit " ")
            (slice (Z.to_nat contextStart) (Z.to_nat contextEnd) t)) in
  if (length contextText <? 50)%nat then ret []
  else
    let c := calculateConfidence contextText ty in
    bind (assessRisk contextText ty) (fun rl =>
      ret [ mkClause ty contextText c contextStart contextEnd rl
              (generateExplanation ty rl) ]).

Definition classifyClause (t : str) (ty : ClauseType) : Rand (list ClauseMatch) :=
  flatMapR (fun pattern => flatMapR (clauseOfMatch t ty) (matchAll pattern t))
    (CLAUSE_PATTERNS ty).

(** [c] is a duplicate candidate of [clause]: same type, start offsets
    less than 100 apart. *)
Definition near (clause c : ClauseMatch) : bool :=
  (Z.abs (startIndex c - startIndex clause) <? 100)%Z
  && type_eqb (type c) (type clause).

(** The filter / sort / slice chain of [classifyDocument]. *)
Definition dedupe (allClauses : list ClauseMatch) : list ClauseMatch :=
  filteri
    (fun clause index =>
       match findIndex (near clause) allClauses with
       | Some i => (index =? i)%nat
       | None => false
       end)
    allClauses.

Definition byConfidence (a b : ClauseMatch) : bool :=
  Qle_bool (confidence b - confidence a) 0.

Definition uniqueClausesOf (allClauses : list ClauseMatch) : list ClauseMatch :=
  firstn 20 (sort byConfidence (dedupe allClauses)).

Definition countLevel (l : RiskLevel) (cs : list ClauseMatch) : nat :=
  length (filter (fun c => level_eqb (riskLevel c) l) cs).

Definition resultOf (uniqueClauses : list ClauseMatch) : ClassificationResult :=
  mkResult uniqueClauses
    (mkSummary (length uniqueClauses)
       (countLevel high uniqueClauses)
       (countLevel medium uniqueClauses)
       (countLevel low uniqueClauses)).

Definition allClausesOf (t : str) : Rand (list ClauseMatch) :=
  flatMapR (classifyClause t) clauseTypes.

Definition classifyDocument (t : str) : Rand ClassificationResult :=
  bind (allClausesOf t) (fun allClauses =>
    ret (resultOf (uniqueClausesOf allClauses))).

End WithRandom.

End Classifier.

(** ** The risk assessment engine (src/lib/risk-assessment-engine.ts) *)

Module RiskEngine.
Import Classifier.

Inductive Category : Type := financial | legal | operational | compliance.

Inductive Severity : Type :=
| sev_critical | sev_high | sev_medium | sev_low.

Inductive Grade : Type := A | B | C | D | F.

Inductive CostRisk : Type :=
| cost_low | cost_medium | cost_high | cost_critical.

Record RiskFactor : Type := mkFactor {
  id : str;
  category : Category;
  severity : Severity;
  title : str;
  description : str;
  impact : str;
  recommendation : str;
  related : list ClauseType   (* the field [clauses] *)
}.

Record Recommendations : Type := mkRecs {
  immediate : list str;
  shortTerm : list str;
  longTerm : list str
}.

Record ComplianceIssue : Type := mkIssue {
  jurisdiction : str;
  issues : list str;
  issueSeverity : Severity
}.

Record FinancialImpact : Type := mkImpact {
  potentialLiability : str;
  costRisk : CostRisk;
  impactDescription : str
}.

Record RiskAssessment : Type := mkAssessment {
  overallRiskScore : Z;
  riskGrade : Grade;
  riskFactors : list RiskFactor;
  recommendations : Recommendations;
  complianceIssues : list ComplianceIssue;
  financialImpact : FinancialImpact
}.

Record Weight : Type := mkWeight { w_high : Z; w_medium : Z; w_low : Z }.

Definition RISK_WEIGHTS (t : ClauseType) : Weight :=
  match t with
  | termination => mkWeight 25 15 5
  | liability => mkWeight 30 20 8
  | payment => mkWeight 20 12 4
  | nda => mkWeight 15 10 3
  | intellectual_property => mkWeight 18 12 5
  end.

(** [weight[clause.riskLevel]] *)
Definition weightAt (w : Weight) (l : RiskLevel) : Z :=
  match l with
  | high => w_high w
  | medium => w_medium w
  | low => w_low w
  end.

Definition CRITICAL_PATTERNS : list str :=
  [ lit "unlimited liability"; lit "personal guarantee";
    lit "immediate termination without cause"; lit "waive all rights";
    lit "perpetual license"; lit "no limitation of damages";
    lit "indemnify against all claims" ].

Definition COMPLIANCE_RISKS : list (str * list str) :=
  [ (lit "gdpr", [ lit "personal data"; lit "data processing";
                   lit "data subject rights"; lit "privacy policy" ]);
    (lit "employment", [ lit "at-will employment"; lit "non-compete";
                         lit "overtime"; lit "benefits" ]);
    (lit "consumer", [ lit "consumer protection"; lit "warranty";
                       lit "return policy"; lit "dispute resolution" ]);
    (lit "securities", [ lit "investment"; lit "securities"; lit "disclosure";
                         lit "material information" ]) ].

(** The running totals of the [forEach] of [calculateOverallRiskScore]. *)
Definition scoreStep (acc : Q * Z) (clause : ClauseMatch) : Q * Z :=
  let weight := RISK_WEIGHTS (type clause) in
  let riskScore := weightAt weight (riskLevel clause) in
  (fst acc + inject_Z riskScore * confidence clause, (snd acc + w_high weight)%Z).

Definition calculateOverallRiskScore (result : ClassificationResult) : Z :=
  let (totalScore, maxPossibleScore) := fold_left scoreStep (clauses result) (0, 0%Z) in
  let normalizedScore :=
    if (0 <? maxPossibleScore)%Z
    then (totalScore / inject_Z maxPossibleScore) * 100
    else 0 in
  Z.min 100 (Math_round normalizedScore).

Definition calculateRiskGrade (score : Z) : Grade :=
  if (score <=? 20)%Z then A
  else if (score <=? 40)%Z then B
  else if (score <=? 60)%Z then C
  else if (score <=? 80)%Z then D
  else F.

Definition getClauseCategoryMapping (t : ClauseType) : Category :=
  match t with
  | payment => financial
  | liability => legal
  | termination => operational
  | nda => compliance
  | intellectual_property => legal
  end.

(** The impact and recommendation tables have rows for three clause types
    only; the other two get the fallback text. *)
Definition getImpactDescription (t : ClauseType) (l : RiskLevel) : str :=
  match t, l with
  | termination, high => lit "Sudden contract termination could disrupt business operations and result in lost revenue."
  | termination, medium => lit "Contract termination may require advance planning and transition period."
  | termination, low => lit "Termination process is well-defined with adequate protections."
  | liability, high => lit "Unlimited liability exposure could result in significant financial losses."
  | liability, medium => lit "Limited liability with reasonable caps on damages."
  | liability, low => lit "Well-protected with mutual liability limitations."
  | payment, high => lit "Unfavorable payment terms could impact cash flow and profitability."
  | payment, medium => lit "Standard payment terms with reasonable collection procedures."
  | payment, low => lit "Fair payment structure with clear terms."
  | _, _ => lit "Potential impact requires legal review."
  end.

Definition getRecommendation (t : ClauseType) (l : RiskLevel) : str :=
  match t, l with
  | termination, high => lit "Negotiate for reasonable notice period and cure provisions."
  | termination, medium => lit "Review termination triggers and ensure mutual protections."
  | termination, low => lit "Terms appear balanced and fair."
  | liability, high => lit "Negotiate liability caps and mutual indemnification clauses."
  | liability, medium => lit "Review indemnification scope and consider additional protections."
  | liability, low => lit "Liability terms appear reasonable."
  | payment, high => lit "Negotiate more favorable payment terms and dispute resolution."
  | payment, medium => lit "Review late payment penalties and collection procedures."
  | payment, low => lit "Payment terms appear fair and reasonable."
  | _, _ => lit "Consult legal counsel for detailed review."
  end.

(** The name of a clause type, as the string the source interpolates. *)
Definition typeName (t : ClauseType) : str :=
  match t with
  | termination => lit "termination"
  | nda => lit "nda"
  | payment => lit "payment"
  | liability => lit "liability"
  | intellectual_property => lit "intellectual_property"
  end.

Record Protection : Type := mkProtection {
  p_title : str;
  p_description : str;
  p_impact : str;
  p_recommendation : str
}.

Definition identifyMissingProtections (result : ClassificationResult) (documentText : str)
  : list Protection :=
  let lowerText := toLowerCase documentText in
  (if negb (includes lowerText (lit "force majeure"))
      && negb (includes lowerText (lit "act of god"))
   then [ mkProtection (lit "Force Majeure Clause")
            (lit "No force majeure protection found in the document.")
            (lit "May be liable for performance even during unforeseeable circumstances.")
            (lit "Add force majeure clause to protect against uncontrollable events.") ]
   else [])
  ++
  (if negb (includes lowerText (lit "arbitration"))
      && negb (includes lowerText (lit "mediation"))
      && negb (includes lowerText (lit "dispute resolution"))
   then [ mkProtection (lit "Dispute Resolution Mechanism")
            (lit "No clear dispute resolution process specified.")
            (lit "Disputes may result in costly litigation without clear resolution path.")
            (lit "Include arbitration or mediation clause for efficient dispute resolution.") ]
   else []).

Definition severityOrder (s : Severity) : Z :=
  match s with
  | sev_critical => 4
  | sev_high => 3
  | sev_medium => 2
  | sev_low => 1
  end.

(** The comparator of the final sort: [severityOrder[b] - severityOrder[a]]. *)
Definition bySeverity (a b : RiskFactor) : bool :=
  (severityOrder (severity b) - severityOrder (severity a) <=? 0)%Z.

(** The factors in the order they are pushed, before the sort. *)
Definition criticalFactors (result : ClassificationResult) (lowerText : str)
  : list RiskFactor :=
  concat
    (mapi
       (fun pattern index =>
          if includes lowerText pattern
          then [ mkFactor (lit "critical-" ++ ofNat index) legal sev_critical
                   (lit "Critical Risk: " ++ capitalize pattern)
                   (lit "Document contains " ++ [quote] ++ pattern ++ [quote]
                      ++ lit " which poses significant legal risk.")
                   (lit "Could result in unlimited financial exposure or loss of rights.")
                   (lit "Immediate legal review required. Consider negotiating alternative terms.")
                   (map type
                      (filter (fun c => includes (toLowerCase (text c)) pattern)
                         (clauses result))) ]
          else [])
       CRITICAL_PATTERNS).

Definition highRiskFactors (result : ClassificationResult) : list RiskFactor :=
  mapi
    (fun clause index =>
       mkFactor (lit "high-risk-" ++ ofNat index)
         (getClauseCategoryMapping (type clause)) sev_high
         (lit "High Risk " ++ capitalize (typeName (type clause)) ++ lit " Clause")
         (explanation clause)
         (getImpactDescription (type clause) high)
         (getRecommendation (type clause) high)
         [type clause])
    (filter (fun c => level_eqb (riskLevel c) high) (clauses result)).

Definition missingFactors (result : ClassificationResult) (documentText : str)
  : list RiskFactor :=
  mapi
    (fun protection index =>
       mkFactor (lit "missing-" ++ ofNat index) legal sev_medium
         (lit "Missing Protection: " ++ p_title protection)
         (p_description protection) (p_impact protection)
         (p_recommendation protection) [])
    (identifyMissingProtections result documentText).

Definition identifyRiskFactors (result : ClassificationResult) (documentText : str)
  : list RiskFactor :=
  let lowerText := toLowerCase documentText in
  sort bySeverity
    (criticalFactors result lowerText
     ++ highRiskFactors result
     ++ missingFactors result documentText).

Definition isCriticalOrHigh (rf : RiskFactor) : bool :=
  match severity rf with
  | sev_critical | sev_high => true
  | _ => false
  end.

Definition isMedium (rf : RiskFactor) : bool :=
  match severity rf with
  | sev_medium => true
  | _ => false
  end.

Definition generateRecommendations (riskFactors : list RiskFactor)
    (result : ClassificationResult) : Recommendations :=
  mkRecs
    (uniq [] (map recommendation (filter isCriticalOrHigh riskFactors)))
    (uniq [] (map recommendation (filter isMedium riskFactors)))
    (uniq []
       [ lit "Establish regular contract review process with legal counsel.";
         lit "Create standardized contract templates with protective clauses.";
         lit "Implement contract management system for tracking key dates and obligations." ]).

Definition assessComplianceRisks (documentText : str) : list ComplianceIssue :=
  let lowerText := toLowerCase documentText in
  concat
    (map
       (fun entry : str * list str =>
          let (jurisdiction, keywords) := entry in
          let foundKeywords := filter (includes lowerText) keywords in
          if (0 <? length foundKeywords)%nat
          then [ mkIssue (toUpperCase jurisdiction)
                   (map (fun keyword =>
                           lit "Document references " ++ keyword
                           ++ lit " - ensure compliance with "
                           ++ toUpperCase jurisdiction ++ lit " regulations.")
                      foundKeywords)
                   (if (2 <? length foundKeywords)%nat then sev_high else sev_medium) ]
          else [])
       COMPLIANCE_RISKS).

Definition assessFinancialImpact (result : ClassificationResult) (documentText : str)
  : FinancialImpact :=
  let highRiskClauses :=
    filter (fun c => level_eqb (riskLevel c) high) (clauses result) in
  let lowerText := toLowerCase documentText in
  if includes lowerText (lit "unlimited liability")
     || includes lowerText (lit "personal guarantee")
  then mkImpact (lit "Unlimited") cost_critical
         (lit "Unlimited liability exposure poses critical financial risk.")
  else if (3 <? length highRiskClauses)%nat
  then mkImpact (lit "Significant") cost_high
         (lit "Multiple high-risk clauses create substantial financial exposure.")
  else if (1 <? length highRiskClauses)%nat
  then mkImpact (lit "Moderate") cost_medium
         (lit "Some financial risk present but within manageable limits.")
  else mkImpact (lit "Limited") cost_low
         (lit "Financial risk appears manageable with current terms.").

Definition assessRisk (classificationResult : ClassificationResult) (documentText : str)
  : RiskAssessment :=
  let overallRiskScore := calculateOverallRiskScore classificationResult in
  let riskGrade := calculateRiskGrade overallRiskScore in
  let riskFactors := identifyRiskFactors classificationResult documentText in
  let recommendations := generateRecommendations riskFactors classificationResult in
  let complianceIssues := assessComplianceRisks documentText in
  let financialImpact := assessFinancialImpact classificationResult documentText in
  mkAssessment overallRiskScore riskGrade riskFactors recommendations
    complianceIssues financialImpact.

End RiskEngine.

(** ** The risk score over binary64 numbers

    [RiskEngine.calculateOverallRiskScore] follows the arithmetic of the
    score with exact fractions. The value JavaScript returns depends on how
    each multiplication, addition and division is rounded; here the same
    function is embedded once more over the numbers JavaScript computes
    with. The confidence of a clause, a fraction in the embedding, is read
    as the binary64 quotient of its numerator and denominator: for a
    confidence of two decimals, as the classifier produces them, the
    binary64 number nearest to it. *)

Module RiskEngine64.
Import Classifier RiskEngine Binary64.

Definition scoreStep (acc : double * double) (clause : ClauseMatch) : double * double :=
  let weight := RISK_WEIGHTS (type clause) in
  let riskScore := ofZ (weightAt weight (riskLevel clause)) in
  (add (fst acc) (mul riskScore (ofQ (confidence clause))),
   add (snd acc) (ofZ (w_high weight))).

Definition calculateOverallRiskScore (result : ClassificationResult) : double :=
  let (totalScore, maxPossibleScore) :=
    fold_left scoreStep (clauses result) (zero, zero) in
  let normalizedScore :=
    if ltb zero maxPossibleScore
    then mul (div totalScore maxPossibleScore) (ofZ 100)
    else zero in
  Math_min (ofZ 100) (Math_round normalizedScore).

End RiskEngine64.

(** ** The abstractive summarizer (src/lib/client-side-abstractive.ts) *)

Module Summarizer.
Import Regex.
Import Classifier (Rand, ret, bind).

Inductive Method : Type := rule_based | pattern_based | hybrid.

Inductive Importance : Type := imp_high | imp_medium | imp_low.

(** [content] is [None] where the source leaves it [undefined]. *)
Record DetailedSection : Type := mkSection {
  sectionType : str;
  sectionTitle : str;
  content : option str;
  originalQuotes : list str;
  importance : Importance
}.

(** [processingTime] is wall-clock time and is left out. *)
Record AbstractiveSummaryResult : Type := mkSummaryResult {
  summary : str;
  keyPoints : list str;
  confidence : Q;
  method : Method;
  originalTermsPreserved : list str;
  detailedSections : list DetailedSection
}.

(** [legalPatterns], in insertion order. *)
Definition legalPatterns : list (str * list str) :=
  [ (lit "contract",
     [ lit "This legally binding agreement establishes";
       lit "The parties hereby agree to";
       lit "This contract outlines the terms and conditions";
       lit "The agreement specifies the obligations" ]);
    (lit "payment",
     [ lit "Financial compensation shall be provided";
       lit "Payment terms are structured as follows";
       lit "Monetary considerations include";
       lit "The financial arrangements specify" ]);
    (lit "termination",
     [ lit "The agreement may be concluded under";
       lit "Termination provisions are outlined";
       lit "The contract may be ended when";
       lit "Conditions for conclusion include" ]);
    (lit "liability",
     [ lit "Legal responsibilities are defined as";
       lit "Accountability provisions specify";
       lit "The parties shall be responsible for";
       lit "Obligations and liabilities include" ]);
    (lit "confidential",
     [ lit "Privacy protections are implemented through";
       lit "Confidentiality measures ensure";
       lit "Sensitive information shall be safeguarded";
       lit "Data protection provisions include" ]);
    (lit "dispute",
     [ lit "Conflict resolution mechanisms provide";
       lit "Disagreements shall be addressed through";
       lit "Controversy resolution options include";
       lit "The parties agree to resolve disputes via" ]);
    (lit "jurisdiction",
     [ lit "Legal authority is established in";
       lit "Governing law provisions specify";
       lit "The agreement is subject to";
       lit "Legal jurisdiction falls under" ]) ].

(** [legalPatterns.get(theme)], [None] for [undefined]. *)
Fixpoint lookup (X : Type) (k : str) (m : list (str * X)) : option X :=
  match m with
  | [] => None
  | (k', v) :: m' => if str_eqb k k' then Some v else lookup k m'
  end.

(** A [Set<string>]: only [has] and [add] are used. *)
Definition has (set : list str) (x : str) : bool := existsb (str_eqb x) set.
Definition add (set : list str) (x : str) : list str :=
  if has set x then set else set ++ [x].

Definition extractOriginalSentences (t : str) : list str :=
  filter
    (fun s => negb (startsWith (toLowerCase s) (lit "whereof"))
              && negb (startsWith (toLowerCase s) (lit "in witness")))
    (filter (fun s => (15 <? length s)%nat) (map trim (split sentenceEnd t))).

(** [new RegExp(p.replace(/\s+/g, '\\s+'), 'gi')] for a phrase of letters
    and blanks. *)
Fixpoint intersperse (sep : regex) (l : list regex) : list regex :=
  match l with
  | [] => []
  | [r] => [r]
  | r :: l' => r :: sep :: intersperse sep l'
  end.

Definition phraseRegex (p : str) : regex :=
  seqOf (intersperse spaces (map (fun w => seqOf (map ci w)) (split spaces p))).

Definition extractLegalThemes (t : str) : list (str * nat) :=
  let lowerText := toLowerCase t in
  concat
    (map
       (fun entry : str * list str =>
          let (theme, patterns) := entry in
          let count :=
            fold_left
              (fun count pattern =>
                 (count + length (matches (phraseRegex (toLowerCase pattern)) lowerText))%nat)
              patterns 0%nat in
          let count :=
            (count + length (matches (phraseRegex (toLowerCase theme)) lowerText) * 2)%nat in
          if (0 <? count)%nat then [(theme, count)] else [])
       legalPatterns).

Definition lits (s : string) : regex := seqOf (map cs (lit s)).
Arguments lits s%_string.

Definition months : regex :=
  words ["January"; "February"; "March"; "April"; "May"; "June"; "July";
         "August"; "September"; "October"; "November"; "December"]%string.

Definition dateRegex : regex :=
  altOf
    [ seqOf [WordB; times 1 2 digit; lits "/"; times 1 2 digit; lits "/";
             times 4 4 digit; WordB];
      seqOf [WordB; times 1 2 digit; lits "-"; times 1 2 digit; lits "-";
             times 4 4 digit; WordB];
      seqOf [WordB; months; plus space; times 1 2 digit; opt (lits ",");
             plus space; times 4 4 digit; WordB] ].

Definition amountDigits : regex :=
  seqOf [times 1 3 digit; star (Seq (lits ",") (times 3 3 digit));
         opt (Seq (lits ".") (times 2 2 digit))].

Definition moneyRegex : regex :=
  altOf
    [ seqOf [lits "$"; star space; amountDigits];
      seqOf [WordB; amountDigits; star space;
             altOf [Seq (word "dollar") (opt (word "s")); word "USD";
                    Seq (word "rupee") (opt (word "s")); word "Rs";
                    Seq (word "euro") (opt (word "s")); word "EUR"]] ].

Definition percentRegex : regex :=
  altOf
    [ seqOf [WordB; plus digit; opt (lits "."); star digit; lits "%"; WordB];
      seqOf [WordB; plus digit; opt (lits "."); star digit; star space;
             word "percent"; WordB] ].

Definition timeRegex : regex :=
  seqOf [WordB; plus digit; star space;
         altOf [Seq (word "day") (opt (word "s"));
                Seq (word "week") (opt (word "s"));
                Seq (word "month") (opt (word "s"));
                Seq (word "year") (opt (word "s"))];
         WordB].

Definition capitalized : regex := Seq (Chr isUpperAZ) (plus (Chr isLowerAZ)).

Definition partyRegex : regex :=
  seqOf [WordB; capitalized; star (Seq (plus space) capitalized);
         opt (Seq (plus space)
                (altOf [Seq (lits "Pvt") (opt (lits ".")); Seq (lits "Ltd") (opt (lits "."));
                        lits "LLC"; Seq (lits "Inc") (opt (lits "."));
                        Seq (lits "Corp") (opt (lits "."))]));
         WordB].

(** [keyEntities] is computed by [generateAbstractiveSummary] and not used. *)
Definition extractKeyEntities (t : str) : list str :=
  uniq [] (matches dateRegex t ++ matches moneyRegex t
           ++ matches percentRegex t ++ matches timeRegex t).

(** [/\b(w1|w2|...)\b[^.]*\./gi] *)
Definition relationRegex (l : list string) : regex :=
  seqOf [WordB; words l; WordB; star (Chr (fun c => negb (chr_eqb c "."%char)));
         lits "."].

Definition relationKinds : list (str * regex) :=
  [ (lit "conditional",
     relationRegex ["if"; "when"; "provided that"; "subject to";
                    "in the event that"; "should"; "unless"]%string);
    (lit "obligation",
     relationRegex ["shall"; "must"; "will"; "required to"; "obligated to";
                    "responsible for"]%string);
    (lit "prohibition",
     relationRegex ["shall not"; "must not"; "may not"; "prohibited";
                    "restricted"; "forbidden"]%string);
    (lit "permission",
     relationRegex ["may"; "can"; "permitted to"; "allowed to";
                    "has the right to"]%string) ].

Definition identifyRelationships (t : str) : list (str * list str) :=
  concat
    (map
       (fun kind : str * regex =>
          let found := matches (snd kind) t in
          if (0 <? length found)%nat then [(fst kind, map trim found)] else [])
       relationKinds).

Definition legalTerms : list str :=
  [ lit "hereby agrees"; lit "shall"; lit "must"; lit "may not"; lit "liable for";
    lit "indemnify"; lit "confidential information"; lit "proprietary information";
    lit "trade secrets"; lit "force majeure"; lit "governing law"; lit "jurisdiction";
    lit "arbitration"; lit "termination"; lit "breach"; lit "default";
    lit "cure period"; lit "notice period"; lit "compensation"; lit "damages";
    lit "liquidated damages"; lit "penalty" ].

(** One step of the nested [forEach] of [preserveOriginalTerms]. *)
Definition preserveStep (sentence : str) (originalTerms : list str) (term : str)
  : list str :=
  if includes (toLowerCase sentence) (toLowerCase term) then
    let ws := split spaces sentence in
    let first := hd [] (splitOn " " term) in
    match findIndex (fun w => includes (toLowerCase w) first) ws with
    | Some termIndex =>
        let start := (termIndex - 3)%nat in
        let stop := Nat.min (length ws) (termIndex + 4) in
        let contextPhrase := join (lit " ") (firstn (stop - start) (skipn start ws)) in
        if existsb (str_eqb contextPhrase) originalTerms then originalTerms
        else originalTerms ++ [contextPhrase]
    | None => originalTerms
    end
  else originalTerms.

Definition preserveOriginalTerms (t : str) (themes : list (str * nat)) : list str :=
  let sentences :=
    filter (fun s => (10 <? length (trim s))%nat) (split sentenceEnd t) in
  let originalTerms :=
    fold_left
      (fun acc sentence => fold_left (preserveStep sentence) legalTerms acc)
      sentences [] in
  let originalTerms := originalTerms ++ matches dateRegex t in
  let originalTerms := originalTerms ++ matches moneyRegex t in
  let originalTerms := originalTerms ++ matches percentRegex t in
  let originalTerms := originalTerms ++ matches timeRegex t in
  let originalTerms := originalTerms ++ firstn 10 (matches partyRegex t) in
  firstn 20 (uniq [] originalTerms).

(** [let summary = sentences[0]] is [undefined] for an empty list, and
    [summary.toLowerCase()] then throws as soon as there is a term. *)
Definition generateSectionSummary (sentences relevantTerms : list str)
  : Result (option str) :=
  match sentences with
  | first :: _ =>
      Ok (Some
            (fold_left
               (fun summary term =>
                  if negb (includes (toLowerCase summary) (toLowerCase term))
                  then summary ++ lit " The document specifies " ++ term ++ lit "."
                  else summary)
               (firstn 3 relevantTerms) first))
  | [] =>
      match firstn 3 relevantTerms with
      | [] => Ok None
      | _ :: _ => Throw TypeError
      end
  end.

Definition createThemeSection (t theme : str) (originalTerms : list str)
  : Result (option DetailedSection) :=
  let sentences :=
    filter (fun s => (15 <? length (trim s))%nat) (split sentenceEnd t) in
  let themeSentences :=
    filter
      (fun sentence =>
         includes (toLowerCase sentence) (toLowerCase theme)
         || match lookup theme legalPatterns with
            | Some patterns =>
                existsb (fun pattern =>
                           includes (toLowerCase sentence) (toLowerCase pattern))
                  patterns
            | None => false
            end)
      sentences in
  if (length themeSentences =? 0)%nat then Ok None
  else
    let relevantTerms :=
      filter
        (fun term =>
           existsb (fun sentence =>
                      includes (toLowerCase sentence) (toLowerCase term))
             themeSentences)
        originalTerms in
    let importance :=
      if (2 <? length themeSentences)%nat then imp_high
      else if (1 <? length themeSentences)%nat then imp_medium
      else imp_low in
    match generateSectionSummary themeSentences relevantTerms with
    | Ok c =>
        Ok (Some (mkSection theme (capitalize theme ++ lit " Provisions") c
                    (map trim (firstn 3 themeSentences)) importance))
    | Throw e => Throw e
    end.

Definition createGeneralSection (t : str) (originalTerms : list str)
  : Result DetailedSection :=
  let sentences :=
    filter (fun s => (15 <? length (trim s))%nat) (split sentenceEnd t) in
  let keySentences := firstn 5 sentences in
  match generateSectionSummary keySentences originalTerms with
  | Ok c =>
      Ok (mkSection (lit "general") (lit "General Provisions") c
            (map trim (firstn 3 keySentences)) imp_medium)
  | Throw e => Throw e
  end.

Definition importanceOrder (i : Importance) : Z :=
  match i with
  | imp_high => 3
  | imp_medium => 2
  | imp_low => 1
  end.

Definition byImportance (a b : DetailedSection) : bool :=
  (importanceOrder (importance b) - importanceOrder (importance a) <=? 0)%Z.

(** The [themes.forEach] of [createDetailedSections]: it stops at the
    first exception. *)
Fixpoint themeSections (t : str) (themes : list (str * nat)) (originalTerms : list str)
  : Result (list DetailedSection) :=
  match themes with
  | [] => Ok []
  | (theme, count) :: themes' =>
      if (0 <? count)%nat then
        match createThemeSection t theme originalTerms with
        | Throw e => Throw e
        | Ok section =>
            match themeSections t themes' originalTerms with
            | Throw e => Throw e
            | Ok sections =>
                Ok (match section with
                    | Some sec => sec :: sections
                    | None => sections
                    end)
            end
        end
      else themeSections t themes' originalTerms
  end.

Definition createDetailedSections (t : str) (themes : list (str * nat))
    (relationships : list (str * list str)) (originalTerms : list str)
  : Result (list DetailedSection) :=
  match themeSections t themes originalTerms with
  | Throw e => Throw e
  | Ok sections =>
      if (length sections =? 0)%nat then
        match createGeneralSection t originalTerms with
        | Throw e => Throw e
        | Ok general => Ok (sort byImportance [general])
        end
      else Ok (sort byImportance sections)
  end.

Definition scoreSentenceImportance (sentence : str) (themes : list (str * nat))
    (originalTerms : list str) : Q :=
  let lower := toLowerCase sentence in
  let score :=
    fold_left
      (fun score (entry : str * nat) =>
         if includes lower (toLowerCase (fst entry))
         then score + inject_Z (Z.of_nat (snd entry)) * 2 else score)
      themes 0 in
  let score :=
    fold_left
      (fun score term =>
         if includes lower (toLowerCase term) then score + 3 else score)
      originalTerms score in
  let score :=
    score + Math_min (inject_Z (Z.of_nat (length sentence)) / 20) 5 in
  fold_left
    (fun score keyword =>
       if includes lower (toLowerCase keyword) then score + 2 else score)
    [ lit "shall"; lit "must"; lit "agreement"; lit "contract"; lit "party";
      lit "obligation"; lit "liability"; lit "termination" ]
    score.

Definition identifySentenceThemes (sentence : str) (themes : list (str * nat))
  : list str :=
  map fst
    (filter (fun entry : str * nat =>
               includes (toLowerCase sentence) (toLowerCase (fst entry)))
       themes).

Definition getLegalEnhancement (theme : str) : str :=
  match
    lookup theme
      [ (lit "contract", lit "binding legal obligations");
        (lit "payment", lit "financial compensation arrangements");
        (lit "termination", lit "ending provisions");
        (lit "liability", lit "legal responsibilities");
        (lit "confidential", lit "privacy protections");
        (lit "dispute", lit "conflict resolution mechanisms");
        (lit "jurisdiction", lit "governing law provisions") ]
  with
  | Some e => e
  | None => lit "legal provisions"
  end.

Definition isImportantTerm (term : str) : bool :=
  test digit term
  || includes term (lit "$") || includes term (lit "%")
  || includes term (lit "Pvt") || includes term (lit "Ltd")
  || includes term (lit "Inc")
  || (10 <? length term)%nat.

Definition areTermsRelated (term1 term2 : str) : bool :=
  existsb
    (fun context =>
       existsb (fun w => includes (toLowerCase term1) (toLowerCase w)) context
       && existsb (fun w => includes (toLowerCase term2) (toLowerCase w)) context)
    [ [lit "payment"; lit "salary"; lit "compensation"; lit "amount"; lit "$"];
      [lit "termination"; lit "end"; lit "conclude"; lit "notice"; lit "period"];
      [lit "confidential"; lit "proprietary"; lit "information"; lit "secret";
       lit "privacy"];
      [lit "contract"; lit "agreement"; lit "terms"; lit "conditions";
       lit "provisions"];
      [lit "party"; lit "parties"; lit "company"; lit "employee"; lit "employer"];
      [lit "date"; lit "time"; lit "period"; lit "duration"; lit "when"] ].

(** [a[i]] inside a string concatenation: a missing entry prints as
    ["undefined"]. *)
Definition at_ (a : list str) (i : nat) : str := nth i a (lit "undefined").

Section WithRandom.

Variable random : nat -> Q.

Definition Math_random : Rand Q := fun n => (random n, S n).

(** Returns the sentence and the updated [usedTerms]. *)
Definition createThemeSpecificSentence (theme : str) (originalTerms usedTerms : list str)
  : Rand (str * list str) :=
  let relevantTerms :=
    filter (fun term => negb (has usedTerms (toLowerCase term)))
      (filter
         (fun term =>
            includes (toLowerCase term) (toLowerCase theme)
            || includes (toLowerCase theme) (toLowerCase term)
            || areTermsRelated theme term)
         originalTerms) in
  if (length relevantTerms =? 0)%nat then
    ret (lit "The agreement includes important " ++ theme ++ lit " provisions",
         usedTerms)
  else
    let patterns :=
      match lookup theme legalPatterns with
      | Some ps => ps
      | None => []
      end in
    bind Math_random (fun r =>
      let selectedPattern :=
        at_ patterns (Z.to_nat (Qfloor (r * inject_Z (Z.of_nat (length patterns))))) in
      let sentence :=
        if (length relevantTerms =? 1)%nat then
          selectedPattern ++ lit " involving " ++ at_ relevantTerms 0
        else if (length relevantTerms =? 2)%nat then
          selectedPattern ++ lit " covering " ++ at_ relevantTerms 0
          ++ lit " and " ++ at_ relevantTerms 1
        else
          selectedPattern ++ lit " addressing "
          ++ join (lit ", ") (firstn 2 relevantTerms)
          ++ lit " and other related aspects" in
      ret (sentence,
           fold_left (fun used term => add used (toLowerCase term))
             relevantTerms usedTerms)).

Definition identifyCoveredThemesFromSummary (themes : list (str * nat))
    (usedTerms : list str) : list str :=
  map fst (filter (fun entry : str * nat => has usedTerms (toLowerCase (fst entry))) themes).

(** The [forEach] over the uncovered themes: sentences pushed so far and
    the set of used terms. *)
Fixpoint themeSentencesFor (uncovered : list str) (originalTerms usedTerms : list str)
  : Rand (list str) :=
  match uncovered with
  | [] => ret []
  | theme :: rest =>
      bind (createThemeSpecificSentence theme originalTerms usedTerms) (fun out =>
        let (sentence, usedTerms') := out in
        bind (themeSentencesFor rest originalTerms usedTerms') (fun more =>
          ret (if (0 <? length sentence)%nat then sentence :: more else more)))
  end.

Definition generateAdditionalContent (themes : list (str * nat))
    (originalTerms usedTerms : list str) : Rand str :=
  let coveredThemes := identifyCoveredThemesFromSummary themes usedTerms in
  let uncoveredThemes :=
    filter (fun theme => negb (has coveredThemes theme)) (map fst themes) in
  bind (themeSentencesFor (firstn 3 uncoveredThemes) originalTerms usedTerms)
    (fun additionalSentences =>
       let additionalSentences :=
         if (length additionalSentences =? 0)%nat then
           [ lit "The agreement establishes comprehensive legal frameworks and protections for all parties involved.";
             lit "All provisions are legally binding and enforceable according to applicable laws and regulations." ]
         else additionalSentences in
       ret (join (lit " ") additionalSentences)).

Record Scored : Type := mkScored { sentence : str; score : Q; index : nat }.

Definition byScore (a b : Scored) : bool := Qle_bool (score b - score a) 0.
Definition byIndex (a b : Scored) : bool := (index a <=? index b)%nat.

Definition transitions : list str :=
  [ lit "Furthermore,"; lit "Additionally,"; lit "In addition,"; lit "Moreover,";
    lit "The agreement also provides that"; lit "Moreover, the contract specifies";
    lit "Additionally, the document states"; lit "Furthermore, the terms include" ].

Definition moreTransitions : list str :=
  [ lit "Additionally,"; lit "Moreover,"; lit "The document further states";
    lit "The terms also specify" ].

(** The body of the [for] loop over [topSentences]: the state is the
    summary so far and [usedTerms]. *)
Definition summaryStep (themes : list (str * nat)) (originalTerms : list str)
    (state : str * list str) (i : nat) (ts : Scored) : str * list str :=
  let (summary, usedTerms) := state in
  let sentenceThemes := identifySentenceThemes (sentence ts) themes in
  let '(enhancedSentence, usedTerms) :=
    match sentenceThemes with
    | theme :: _ =>
        let enhancement := getLegalEnhancement theme in
        if negb (has usedTerms (toLowerCase enhancement))
        then (sentence ts ++ lit ", establishing " ++ enhancement,
              add usedTerms (toLowerCase enhancement))
        else (sentence ts, usedTerms)
    | [] => (sentence ts, usedTerms)
    end in
  let summary :=
    if (i =? 0)%nat then enhancedSentence
    else
      let transition := at_ transitions (Nat.min (i - 1) (length transitions - 1)) in
      summary ++ lit " " ++ transition ++ lit " " ++ uncapitalize enhancedSentence in
  let usedTerms :=
    fold_left
      (fun used term =>
         if includes (toLowerCase (sentence ts)) (toLowerCase term)
         then add used (toLowerCase term) else used)
      originalTerms usedTerms in
  (summary, usedTerms).

Fixpoint summaryLoop (themes : list (str * nat)) (originalTerms : list str)
    (state : str * list str) (i : nat) (top : list Scored) : str * list str :=
  match top with
  | [] => state
  | ts :: top' =>
      summaryLoop themes originalTerms (summaryStep themes originalTerms state i ts)
        (S i) top'
  end.

(** The [forEach] over [remainingSentences]. *)
Fixpoint appendRemaining (summary : str) (i : nat) (remaining : list str) : str :=
  match remaining with
  | [] => summary
  | s :: remaining' =>
      let summary :=
        if (0 <? length summary)%nat then
          summary ++ lit " "
          ++ at_ moreTransitions (Nat.min i (length moreTransitions - 1))
          ++ lit " " ++ uncapitalize s
        else s in
      appendRemaining summary (S i) remaining'
  end.

Definition createSummaryFromOriginalSentences (originalSentences : list str)
    (themes : list (str * nat)) (originalTerms : list str) : Rand str :=
  if (length originalSentences =? 0)%nat then
    ret (lit "The document contains legal provisions and agreements.")
  else
    let scoredSentences :=
      mapi (fun s i => mkScored s (scoreSentenceImportance s themes originalTerms) i)
        originalSentences in
    let topSentences :=
      sort byIndex
        (firstn (Nat.min 8 (length originalSentences)) (sort byScore scoredSentences)) in
    let (summary, usedTerms) :=
      summaryLoop themes originalTerms ([], []) 0 topSentences in
    let remainingSentences :=
      firstn 4
        (filteri
           (fun s i =>
              negb (existsb (fun ts => (index ts =? i)%nat) topSentences)
              && (20 <? length s)%nat
              && negb (has usedTerms (firstn 20 (toLowerCase s))))
           originalSentences) in
    let summary := appendRemaining summary 0 remainingSentences in
    let unusedImportantTerms :=
      filter (fun term => negb (has usedTerms (toLowerCase term)) && isImportantTerm term)
        originalTerms in
    let summary :=
      if (0 <? length unusedImportantTerms)%nat && (length summary <? 1500)%nat then
        summary ++ lit " The agreement specifically addresses "
        ++ join (lit ", ") (firstn 5 unusedImportantTerms) ++ lit "."
      else summary in
    let lines := length (split (lits ". ") summary) in
    if (lines <? 10)%nat then
      bind (generateAdditionalContent themes originalTerms usedTerms)
        (fun additionalContent =>
           ret (if (0 <? length additionalContent)%nat
                then summary ++ lit " " ++ additionalContent
                else summary))
    else ret summary.

End WithRandom.

Definition filler : str :=
  lit "The agreement establishes important legal frameworks and protections".

(** The [relationships.forEach] of [extractKeyPointsFromOriginal]. *)
Definition relationPoint (keyPoints : list str) (entry : str * list str) : list str :=
  let (kind, rels) := entry in
  match rels with
  | relationship :: _ =>
      if (length keyPoints <? 8)%nat && (length relationship <? 100)%nat
      then keyPoints
           ++ [ lit "The document specifies " ++ kind ++ lit " requirements: "
                ++ relationship ]
      else keyPoints
  | [] => keyPoints
  end.

(** [while (keyPoints.length < 5) keyPoints.push(filler)] *)
Definition padTo5 (keyPoints : list str) : list str :=
  keyPoints ++ repeat filler (5 - length keyPoints).

Definition extractKeyPointsFromOriginal (originalSentences : list str)
    (themes : list (str * nat)) (relationships : list (str * list str)) : list str :=
  let scoredSentences :=
    map (fun s => (s, scoreSentenceImportance s themes [])) originalSentences in
  let topSentences :=
    firstn 6
      (sort (fun a b : str * Q => Qle_bool (snd b - snd a) 0) scoredSentences) in
  let keyPoints :=
    mapi
      (fun (entry : str * Q) i =>
         let s := fst entry in
         if (i <? 3)%nat then s
         else
           let shortened := join (lit " ") (firstn 15 (splitOn " " s)) in
           if (length shortened <? length s)%nat then shortened ++ lit "..."
           else shortened)
      topSentences in
  let keyPoints := fold_left relationPoint relationships keyPoints in
  firstn 8 (padTo5 keyPoints).

(** [avgSentenceLength] is [NaN] for an empty list and then fails both
    comparisons. *)
Definition calculateConfidence (themes : list (str * nat)) (sentences : list str) : Q :=
  let c := 5 # 10 in
  let c := if (0 <? length themes)%nat then c + (1 # 10) else c in
  let c := if (2 <? length themes)%nat then c + (1 # 10) else c in
  let total := fold_left (fun sum s => (sum + length s)%nat) sentences 0%nat in
  let avgSentenceLength :=
    inject_Z (Z.of_nat total) / inject_Z (Z.of_nat (length sentences)) in
  let defined := (0 <? length sentences)%nat in
  let c :=
    if defined && negb (Qle_bool avgSentenceLength 50) then c + (1 # 10) else c in
  let c :=
    if defined && negb (Qle_bool avgSentenceLength 80) then c + (1 # 10) else c in
  let uniqueWords :=
    length (uniq [] (split spaces (toLowerCase (join (lit " ") sentences)))) in
  let c := if (30 <? uniqueWords)%nat then c + (1 # 10) else c in
  Math_min c (85 # 100).

Definition fallbackSummary (t : str) : AbstractiveSummaryResult :=
  let sentences :=
    filter (fun s => (20 <? length (trim s))%nat) (split sentenceEnd t) in
  let summary := join (lit ". ") (firstn 3 sentences) ++ lit "." in
  mkSummaryResult summary (map trim (firstn 3 sentences)) (6 # 10) rule_based [] [].

(** The [try] block of [generateAbstractiveSummary]: it runs up to the
    first exception. *)
Definition abstractiveBody (random : nat -> Q) (t : str)
  : Rand (Result AbstractiveSummaryResult) :=
  let originalSentences := extractOriginalSentences t in
  let themes := extractLegalThemes t in
  let keyEntities := extractKeyEntities t in
  let relationships := identifyRelationships t in
  let originalTerms := preserveOriginalTerms t themes in
  match createDetailedSections t themes relationships originalTerms with
  | Throw e => ret (Throw e)
  | Ok detailedSections =>
      bind (createSummaryFromOriginalSentences random originalSentences themes
              originalTerms)
        (fun summary =>
           let keyPoints :=
             extractKeyPointsFromOriginal originalSentences themes relationships in
           ret (Ok (mkSummaryResult (trim summary) keyPoints
                      (calculateConfidence themes originalSentences) hybrid
                      originalTerms detailedSections)))
  end.

(** [try { ... } catch (error) { return this.fallbackSummary(text, ...) }] *)
Definition generateAbstractiveSummary (random : nat -> Q) (t : str)
  : Rand AbstractiveSummaryResult :=
  bind (abstractiveBody random t) (fun r =>
    match r with
    | Ok result => ret result
    | Throw _ => ret (fallbackSummary t)
    end).

End Summarizer.

(** ** The multilingual summarizer (src/lib/multilingual-summarizer.ts) *)

Module Multilingual.
Import Regex.
Import Classifier (Rand).

Record SummaryResult : Type := mkSummaryResult {
  language : str;
  languageCode : str;
  summary : str;
  keyPoints : list str;
  wordCount : nat;
  originalLength : nat;
  compressionRatio : Binary64.double
}.

(** [processingTime] is wall-clock time and [supportedLanguages] a fixed
    list of display names; both are left out. *)
Record MultilingualSummary : Type := mkMultilingual {
  summaries : list SummaryResult
}.

(** One call of the translator: the text and the target language. *)
Definition Call : Type := (str * str)%type.

(** Code that calls the translator: the calls made so far go in and come
    out. *)
Definition Tr (X : Type) : Type := list Call -> X * list Call.

Definition ret (X : Type) (x : X) : Tr X := fun log => (x, log).

Definition bind (X Y : Type) (c : Tr X) (k : X -> Tr Y) : Tr Y :=
  fun log => let (x, log') := c log in k x log'.

Fixpoint mapT (X Y : Type) (f : X -> Tr Y) (l : list X) : Tr (list Y) :=
  match l with
  | [] => ret []
  | x :: l' => bind (f x) (fun y => bind (mapT f l') (fun ys => ret (y :: ys)))
  end.

(** [s.split(/\s+/).filter((word) => word.length > 0).length] *)
Definition countWords (s : str) : nat :=
  length (filter (fun w => (0 <? length w)%nat) (split spaces s)).

Definition isBlank (s : str) : bool := (length (trim s) =? 0)%nat.

Definition unavailable (languageName t : str) : str :=
  lit "[Translation service temporarily unavailable for " ++ languageName
  ++ lit "]" ++ ["010"%char; "010"%char] ++ t.

Section WithTranslator.

(** The class [SimpleTranslator] (src/lib/simple-translator.ts) is not part
    of the sources at hand. [translateText] is taken as any service whose
    answer may depend on the calls made before and which may throw;
    [getLanguageName] as any table from codes to names. *)
Variable translateText : list Call -> str -> str -> Result str.
Variable getLanguageName : str -> str.

Definition callTranslator (t targetLanguage : str) : Tr (Result str) :=
  fun log => (translateText log t targetLanguage, log ++ [(t, targetLanguage)]).

(** The [catch] branch only looks the language name up, so
    [translateWithFallback] returns a string on every path. *)
Definition translateWithFallback (t targetLanguage : str) : Tr str :=
  if isBlank t then ret []
  else if str_eqb targetLanguage (lit "en") then ret t
  else
    bind (callTranslator t targetLanguage) (fun r =>
      match r with
      | Ok result => ret result
      | Throw _ => ret (unavailable (getLanguageName targetLanguage) t)
      end).

(** The body of the loop over [languages]. As [translateWithFallback]
    does not throw, neither of the two handlers around its calls is
    entered. *)
Definition summaryFor (t englishSummary : str) (keyPoints : list str) (langCode : str)
  : Tr SummaryResult :=
  bind (if str_eqb langCode (lit "en") then ret englishSummary
        else translateWithFallback englishSummary langCode)
    (fun summary =>
       bind (if str_eqb langCode (lit "en") then ret keyPoints
             else mapT (fun point => translateWithFallback point langCode) keyPoints)
         (fun translatedKeyPoints =>
            let wordCount := countWords summary in
            let originalWordCount := countWords t in
            ret (mkSummaryResult (getLanguageName langCode) langCode summary
                   translatedKeyPoints wordCount originalWordCount
                   (if (0 <? originalWordCount)%nat
                    then Binary64.Math_round
                           (Binary64.mul
                              (Binary64.div (Binary64.ofNat wordCount)
                                 (Binary64.ofNat originalWordCount))
                              (Binary64.ofZ 100))
                    else Binary64.zero)))).

Definition summariesFor (t englishSummary : str) (keyPoints languages : list str)
  : Tr (list SummaryResult) :=
  mapT (summaryFor t englishSummary keyPoints) languages.

(** [generateAbstractiveSummary] has its own handler and always returns,
    so the extractive and truncation fallbacks of the source are never
    reached; the English summary and key points are those of the
    abstractive summarizer. *)
Definition generateMultilingualSummary (random : nat -> Q) (t : str)
    (languages : list str) : nat -> Tr (Result MultilingualSummary) :=
  fun draws =>
    if isBlank t then
      ret (Throw (Failure (lit "Text is required for summary generation")))
    else if (length t <? 50)%nat then
      ret (Throw (Failure
        (lit "Text is too short for meaningful summarization (minimum 50 characters)")))
    else
      let abstractiveResult :=
        fst (Summarizer.generateAbstractiveSummary random t draws) in
      let englishSummary := Summarizer.summary abstractiveResult in
      let keyPoints := Summarizer.keyPoints abstractiveResult in
      bind (summariesFor t englishSummary keyPoints languages) (fun summaries =>
        if (length summaries =? 0)%nat then
          ret (Throw (Failure (lit "Failed to generate any summaries")))
        else ret (Ok (mkMultilingual summaries))).

End WithTranslator.

End Multilingual.

(** ** The extractive summarizer (src/lib/multilingual-summarizer.ts,
    class [ExtractiveSummarizer]) *)

Module Extractive.
Import Regex.

Definition stopWords : list str :=
  [ lit "the"; lit "a"; lit "an"; lit "and"; lit "or"; lit "but"; lit "in";
    lit "on"; lit "at"; lit "to"; lit "for"; lit "of"; lit "with"; lit "by";
    lit "is"; lit "are"; lit "was"; lit "were"; lit "be"; lit "been";
    lit "being"; lit "have"; lit "has"; lit "had"; lit "do"; lit "does";
    lit "did"; lit "will"; lit "would"; lit "could"; lit "should"; lit "may";
    lit "might"; lit "must"; lit "shall"; lit "can"; lit "this"; lit "that";
    lit "these"; lit "those"; lit "i"; lit "you"; lit "he"; lit "she"; lit "it";
    lit "we"; lit "they"; lit "me"; lit "him"; lit "her"; lit "us"; lit "them" ].

Definition legalKeywords : list str :=
  [ lit "contract"; lit "agreement"; lit "clause"; lit "party"; lit "parties";
    lit "obligation"; lit "liability"; lit "breach"; lit "termination";
    lit "confidential"; lit "payment"; lit "damages"; lit "indemnity";
    lit "warranty"; lit "guarantee"; lit "intellectual"; lit "property";
    lit "copyright"; lit "trademark"; lit "patent"; lit "license";
    lit "jurisdiction"; lit "governing"; lit "law"; lit "dispute";
    lit "arbitration"; lit "mediation"; lit "force"; lit "majeure";
    lit "amendment" ].

(** [set.has(x)] *)
Definition has (set : list str) (x : str) : bool := existsb (str_eqb x) set.

(** A [Map<string, number>] of counts: [m.get(k) || 0] and
    [m.set(k, (m.get(k) || 0) + 1)]. *)
Fixpoint get (m : list (str * nat)) (k : str) : nat :=
  match m with
  | [] => 0
  | (k', v) :: m' => if str_eqb k k' then v else get m' k
  end.

Fixpoint bump (m : list (str * nat)) (k : str) : list (str * nat) :=
  match m with
  | [] => [(k, 1%nat)]
  | (k', v) :: m' => if str_eqb k k' then (k', S v) :: m' else (k', v) :: bump m' k
  end.

(** The words of [s] that count: lower-cased, longer than two code units,
    no stop word. *)
Definition contentWords (s : str) : list str :=
  filter (fun word => (2 <? length word)%nat && negb (has stopWords word))
    (split spaces (toLowerCase s)).

Definition scoreSentence (sentence : str) (wordFreq : list (str * nat)) : Q :=
  let words := contentWords sentence in
  let score := fold_left (fun score word => (score + get wordFreq word)%nat) words 0%nat in
  let legalTermBonus :=
    fold_left (fun bonus word => if has legalKeywords word then (bonus + 2)%nat else bonus)
      words 0%nat in
  if (0 <? length words)%nat
  then inject_Z (Z.of_nat score) / inject_Z (Z.of_nat (length words))
       + inject_Z (Z.of_nat legalTermBonus)
  else 0.

Record Scored : Type := mkScored { sentence : str; score : Q; index : nat }.

Definition byScore (a b : Scored) : bool := Qle_bool (score b - score a) 0.
Definition byIndex (a b : Scored) : bool := (index a <=? index b)%nat.

Definition extractSummary (t : str) (maxSentences : nat) : str :=
  let sentences :=
    filter (fun s => (20 <? length (trim s))%nat) (split sentenceEnd t) in
  if (length sentences <=? maxSentences)%nat then t
  else
    let wordFreq := fold_left bump (contentWords t) [] in
    let scoredSentences :=
      mapi (fun sentence index =>
              mkScored (trim sentence) (scoreSentence sentence wordFreq) index)
        sentences in
    let topSentences :=
      sort byIndex (firstn maxSentences (sort byScore scoredSentences)) in
    join (lit ". ") (map sentence topSentences) ++ lit ".".

Record Point : Type := mkPoint {
  pointSentence : str;
  pointScore : Q;
  legalTermCount : nat
}.

Definition byPointScore (a b : Point) : bool :=
  Qle_bool (pointScore b - pointScore a) 0.

(** [legalTermFreq] is filled and never read, and is left out. The words
    of a sentence are at least one, so the density is a number. *)
Definition extractKeyPoints (t : str) (maxPoints : nat) : list str :=
  let sentences :=
    filter (fun s => (15 <? length (trim s))%nat) (split sentenceEnd t) in
  let scoredSentences :=
    map (fun sentence =>
           let sentenceWords := split spaces (toLowerCase sentence) in
           let legalTermCount := length (filter (has legalKeywords) sentenceWords) in
           mkPoint (trim sentence)
             (inject_Z (Z.of_nat legalTermCount)
              / inject_Z (Z.of_nat (length sentenceWords)))
             legalTermCount)
      sentences in
  map pointSentence
    (firstn maxPoints
       (sort byPointScore
          (filter (fun s => (0 <? legalTermCount s)%nat) scoredSentences))).

End Extractive.

(** ** Text extraction from an uploaded PDF ([extractTextFromPDF], the
    last part of src/lib/client-side-abstractive.ts) *)

Module PdfProcessor.
Import Regex.

(** [processingTime] is wall-clock time and is left out. *)
Record ExtractionResult : Type := mkExtraction {
  text : str;
  isScanned : bool;
  pageCount : nat
}.

(** What the two calls of the library [unpdf] end in: the text and the
    number of pages it reports, either of which may be missing, or an
    exception, of which only the message is read. *)
Inductive Unpdf : Type :=
| extracted (text : option str) (totalPages : option nat)
| failed (errorMessage : str).

Definition newline : ascii := ascii_of_nat 10.

(** [/\n\s*\n/g] *)
Definition blankLines : regex := seqOf [cs newline; star space; cs newline].

Definition scannedNotice (fileName : str) : str :=
  lit "[Scanned Document: " ++ fileName ++ lit "]" ++ [newline; newline]
  ++ lit "This appears to be a scanned PDF document. Text extraction may be limited. Please ensure the document contains selectable text for accurate analysis.".

Definition errorNotice (fileName errorMessage : str) : str :=
  lit "[Error Processing: " ++ fileName ++ lit "]" ++ [newline; newline]
  ++ lit "PDF processing failed: " ++ errorMessage ++ [newline; newline]
  ++ lit "This may be due to:" ++ [newline]
  ++ lit "- Corrupted PDF file" ++ [newline]
  ++ lit "- Password-protected document" ++ [newline]
  ++ lit "- Unsupported PDF format" ++ [newline]
  ++ lit "- Server processing issues" ++ [newline; newline]
  ++ lit "Please try uploading the document again or use a different PDF file.".

Definition extractTextFromPDF (unpdf : Unpdf) (fileName : str) : ExtractionResult :=
  match unpdf with
  | extracted resultText totalPages =>
      let extractedText :=
        match resultText with
        | Some s => s
        | None => []
        end in
      let pageCount :=
        match totalPages with
        | Some (S n) => S n
        | _ => 1%nat
        end in
      let extractedText :=
        trim (replaceAll blankLines [newline; newline]
                (replaceAll spaces (lit " ") extractedText)) in
      if (length extractedText <? 50)%nat
      then mkExtraction (scannedNotice fileName) true pageCount
      else mkExtraction extractedText false pageCount
  | failed errorMessage =>
      mkExtraction (errorNotice fileName errorMessage) true 1
  end.

End PdfProcessor.

(** ** The summarize route (the [POST] handler of the summarize API) *)

Module SummarizeRoute.
Import Multilingual.

(** The request body once parsed, taken to be a JSON object; the handler
    reads the fields [text], a string when it is there, and [languages], a
    list of strings when it is there. *)
Record Body : Type := mkBody {
  text : option str;
  languages : option (list str)
}.

(** An answer of the handler: its status, and what the proofs read of its
    body. *)
Inductive Response : Type :=
| badRequest (error : str)
| serverError (context : str)
| success (result : MultilingualSummary) (processedLanguages textLength : nat).

Definition status (r : Response) : nat :=
  match r with
  | badRequest _ => 400
  | serverError _ => 500
  | success _ _ _ => 200
  end.

Definition supportedLangCodes : list str :=
  [lit "en"; lit "hi"; lit "te"; lit "kn"; lit "ml"; lit "gu"].

Definition defaultLanguages : list str := [lit "en"; lit "hi"; lit "ta"].

Definition validLanguagesOf (languages : list str) : list str :=
  filter (fun lang => existsb (str_eqb lang) supportedLangCodes) languages.

Section WithTranslator.

Variable translateText : list Call -> str -> str -> Result str.
Variable getLanguageName : str -> str.

(** [requestBody] is [None] when the request is not JSON; [timedOut]
    tells whether the 30 seconds of the race run out before the summarizer
    settles. Constructing the summarizer only logs, so that handler is not
    entered. *)
Definition POST (random : nat -> Q) (requestBody : option Body) (timedOut : bool)
  : nat -> Tr Response :=
  fun draws =>
    match requestBody with
    | None => ret (badRequest (lit "Invalid JSON in request body"))
    | Some body =>
        let languages :=
          match languages body with
          | Some l => l
          | None => defaultLanguages
          end in
        match text body with
        | None | Some [] => ret (badRequest (lit "Text is required for summarization"))
        | Some t =>
            if (length (trim t) =? 0)%nat then
              ret (badRequest (lit "Text cannot be empty"))
            else if (50000 <? Z.of_nat (length t))%Z then
              ret (badRequest
                     (lit "Text is too long for processing (max 50,000 characters)"))
            else
              let validLanguages := validLanguagesOf languages in
              if (length validLanguages =? 0)%nat then
                ret (badRequest (lit "At least one supported language is required"))
              else
                bind (generateMultilingualSummary translateText getLanguageName random
                        t validLanguages draws)
                  (fun outcome =>
                     match outcome with
                     | Throw _ => ret (serverError (lit "summary_generation"))
                     | Ok result =>
                         if timedOut then ret (serverError (lit "summary_generation"))
                         else ret (success result (length validLanguages) (length t))
                     end)
        end
    end.

End WithTranslator.

(** *** The handler on any request body

    [POST] above reads a body that is an object whose [text], when it is
    there, is a string and whose [languages], when they are there, are an
    array of strings. [request.json()] can return any JSON value; [POSTjson]
    is the same handler on all of them. *)

(** A value read from JSON. A number is the binary64 number the parser
    returns. The members of an object are listed as the JSON text has
    them: of two members of one name the later one counts. *)
#[local] Unset Elimination Schemes.

Inductive JSON : Type :=
| JNull
| JBool (b : bool)
| JNumber (x : Binary64.double)
| JString (s : str)
| JArray (items : list JSON)
| JObject (members : list (str * JSON)).

#[local] Set Elimination Schemes.

(** [o[key]] for the members of an object, [None] for [undefined]. *)
Fixpoint member (key : str) (members : list (str * JSON)) : option JSON :=
  match members with
  | [] => None
  | (name, v) :: rest =>
      match member key rest with
      | Some later => Some later
      | None => if str_eqb name key then Some v else None
      end
  end.

(** [v[key]] for [key] one of "text" and "languages" and [v] other than
    [null]: a number, a string, a boolean and an array have no property of
    these names. *)
Definition property (key : str) (v : JSON) : option JSON :=
  match v with
  | JObject members => member key members
  | _ => None
  end.

(** [text?.length] *)
Definition lengthOf (text : option JSON) : option JSON :=
  match text with
  | Some (JString s) => Some (JNumber (Binary64.ofNat (length s)))
  | Some (JArray items) => Some (JNumber (Binary64.ofNat (length items)))
  | Some (JObject members) => member (lit "length") members
  | _ => None
  end.

(** Whether the conversion of [v] to a string in a template returns. An
    object is converted by its [toString]: the one of [Object.prototype],
    unless the object has a member of that name; a member read from JSON is
    not a function, and the conversion throws a TypeError. An array converts
    its items. *)
Fixpoint printable (v : JSON) : bool :=
  match v with
  | JArray items => forallb printable items
  | JObject members =>
      negb (existsb (fun m => str_eqb (fst m) (lit "toString")) members)
  | _ => true
  end.

(** [!text] *)
Definition falsy (text : option JSON) : bool :=
  match text with
  | None => true
  | Some JNull => true
  | Some (JBool b) => negb b
  | Some (JNumber x) =>
      match x with
      | SpecFloat.S754_zero _ => true
      | SpecFloat.S754_nan => true
      | _ => false
      end
  | Some (JString s) => (length s =? 0)%nat
  | Some (JArray _) => false
  | Some (JObject _) => false
  end.

(** [languages.filter((lang) => supportedLangCodes.includes(lang))] on an
    array: [includes] finds a value that is a string equal to one of the
    codes. *)
Definition validItems (languages : list JSON) : list str :=
  flat_map
    (fun lang =>
       match lang with
       | JString s => if existsb (str_eqb s) supportedLangCodes then [s] else []
       | _ => []
       end)
    languages.

Section WithTranslator.

Variable translateText : list Call -> str -> str -> Result str.
Variable getLanguageName : str -> str.

(** An exception outside the inner [try] blocks is caught by the outer
    one and answered with the context "top_level": destructuring [null],
    a value in the logged line that has no string, [text.trim()] on a text
    that is not a string, [languages.filter] on languages that are not an
    array. *)
Definition POSTjson (random : nat -> Q) (requestBody : option JSON) (timedOut : bool)
  : nat -> Tr Response :=
  fun draws =>
    match requestBody with
    | None => ret (badRequest (lit "Invalid JSON in request body"))
    | Some JNull => ret (serverError (lit "top_level"))
    | Some body =>
        let text := property (lit "text") body in
        let languages :=
          match property (lit "languages") body with
          | Some l => l
          | None => JArray (map JString defaultLanguages)
          end in
        if negb (match lengthOf text with
                 | Some n => printable n
                 | None => true
                 end && printable languages)
        then ret (serverError (lit "top_level"))
        else if falsy text then
          ret (badRequest (lit "Text is required for summarization"))
        else
          match text with
          | Some (JString t) =>
              if (length (trim t) =? 0)%nat then
                ret (badRequest (lit "Text cannot be empty"))
              else if (50000 <? Z.of_nat (length t))%Z then
                ret (badRequest
                       (lit "Text is too long for processing (max 50,000 characters)"))
              else
                match languages with
                | JArray items =>
                    let validLanguages := validItems items in
                    if (length validLanguages =? 0)%nat then
                      ret (badRequest (lit "At least one supported language is required"))
                    else
                      bind (generateMultilingualSummary translateText getLanguageName
                              random t validLanguages draws)
                        (fun outcome =>
                           match outcome with
                           | Throw _ => ret (serverError (lit "summary_generation"))
                           | Ok result =>
                               if timedOut
                               then ret (serverError (lit "summary_generation"))
                               else ret (success result (length validLanguages)
                                           (length t))
                           end)
                | _ => ret (serverError (lit "top_level"))
                end
          | _ => ret (serverError (lit "top_level"))
          end
    end.

End WithTranslator.

End SummarizeRoute.

(** ** The dashboard (the component [AnalysisDashboard]) *)

Module Dashboard.
Import Classifier.

(** The [level] of the record [getRiskLevel] returns; the colours that
    go with it are left out. *)
Inductive Level : Type := Low | Medium | High.

(** [highRisk / totalClauses] is [Infinity] when there is no clause but a
    high-risk count, and not below 0.3 then. *)
Definition getRiskLevel (result : ClassificationResult) : Level :=
  let highRisk := highRiskClauses (summary result) in
  let totalClauses := totalClauses (summary result) in
  if (highRisk =? 0)%nat then Low
  else if (totalClauses =? 0)%nat then High
  else if negb (Qle_bool (3 # 10)
                  (inject_Z (Z.of_nat highRisk) / inject_Z (Z.of_nat totalClauses)))
       then Medium
  else High.

(** [[...new Set(clauses.map((clause) => clause.type))]] *)
Fixpoint uniqTypes (seen l : list ClauseType) : list ClauseType :=
  match l with
  | [] => []
  | x :: l' =>
      if existsb (type_eqb x) seen then uniqTypes seen l'
      else x :: uniqTypes (x :: seen) l'
  end.

Definition getClauseTypes (result : ClassificationResult) : list ClauseType :=
  uniqTypes [] (map type (clauses result)).

End Dashboard.

(** * Properties *)

(** ** Example inputs *)

Module Examples.
Import Classifier Multilingual.

(** A stream of draws; none of the examples below makes a draw. *)
Definition noDraws : nat -> Q := fun _ => 0.

Definition emptyResult : ClassificationResult := mkResult [] (mkSummary 0 0 0 0).

(** One termination clause, 288 characters. *)
Definition termsDocument : str :=
  lit "The supplier may terminate this agreement at any time by giving notice to the customer at the address set out in the schedule, with or without cause, and the notice takes effect on the day stated in it or on the seventh day after it was given, in case of breach, default, breach, default.".

(** The matches the scan finds in [termsDocument], before the
    deduplication: the value of [allClausesOf] there. *)
Definition termsMatches : list ClauseMatch :=
  Eval vm_compute in fst (allClausesOf noDraws termsDocument 0%nat).

Definition skyDocument : str :=
  lit "The sky is blue. The grass is green. Birds sing in the trees all day.".


Definition contractDocument : str :=
  lit "This contract establishes payment terms and confidentiality obligations between the parties.".

(** A translator that is down for Hindi and tags the text otherwise. *)
Definition hindiDown (log : list Call) (t langCode : str) : Result str :=
  if str_eqb langCode (lit "hi") then Throw (Failure (lit "service down"))
  else Ok (lit "<" ++ langCode ++ lit ">" ++ t).

Definition codeAsName (langCode : str) : str := langCode.

End Examples.

(** ** Lists, strings and sorting *)

Section ListFacts.
Variable X : Type.

Lemma In_insert (le0 : X -> X -> bool) (x y : X) (l : list X) :
  In y (insert le0 x l) <-> y = x \/ In y l.
Proof.
  induction l as [|z l IH]; simpl.
  - intuition.
  - destruct (le0 x z); simpl; rewrite ?IH; intuition.
Qed.

Lemma In_sort (le0 : X -> X -> bool) (y : X) (l : list X) :
  In y (sort le0 l) <-> In y l.
Proof.
  induction l as [|z l IH]; simpl; [tauto|].
  rewrite In_insert, IH. intuition.
Qed.

Lemma insert_perm (le0 : X -> X -> bool) (x : X) (l : list X) :
  Permutation (insert le0 x l) (x :: l).
Proof.
  induction l as [|z l IH]; simpl; [reflexivity|].
  destruct (le0 x z); [reflexivity|].
  rewrite IH. apply perm_swap.
Qed.

Lemma sort_perm (le0 : X -> X -> bool) (l : list X) :
  Permutation (sort le0 l) l.
Proof.
  induction l as [|z l IH]; simpl; [reflexivity|].
  rewrite insert_perm. now constructor.
Qed.

Lemma length_sort (le0 : X -> X -> bool) (l : list X) :
  length (sort le0 l) = length l.
Proof. apply Permutation_length, sort_perm. Qed.

Lemma sorted_firstn (R : X -> X -> Prop) (n : nat) (l : list X) :
  Sorted R l -> Sorted R (firstn n l).
Proof.
  intros Hs; revert n; induction Hs as [|z l Hs IH Hhd]; intros [|n]; simpl;
    try constructor.
  - apply IH.
  - destruct l as [|w l]; destruct n; simpl; constructor. now inversion Hhd.
Qed.

Section Ordered.
Variable le0 : X -> X -> bool.
Hypothesis le0_total : forall a b, le0 a b = false -> le0 b a = true.

Let R (a b : X) : Prop := le0 a b = true.

Lemma insert_sorted (x : X) (l : list X) :
  Sorted R l -> Sorted R (insert le0 x l).
Proof.
  induction l as [|z l IH]; simpl; intros Hs.
  - repeat constructor.
  - destruct (le0 x z) eqn:E.
    + constructor; [assumption | constructor; exact E].
    + inversion Hs as [|? ? Hs' Hhd]; subst.
      constructor; [now apply IH|].
      destruct l as [|w l]; simpl.
      * constructor. now apply le0_total.
      * destruct (le0 x w); constructor.
        -- now apply le0_total.
        -- now inversion Hhd.
Qed.

Lemma sort_sorted (l : list X) : Sorted R (sort le0 l).
Proof.
  induction l as [|z l IH]; simpl; [constructor | now apply insert_sorted].
Qed.

Lemma sorted_adjacent (l : list X) (i : nat) (a b : X) :
  Sorted R l -> nth_error l i = Some a -> nth_error l (S i) = Some b ->
  le0 a b = true.
Proof.
  intros Hs; revert i; induction Hs as [|z l Hs IH Hhd]; intros i Ha Hb.
  - destruct i; discriminate.
  - destruct i as [|i]; simpl in *.
    + injection Ha as ->. destruct l as [|w l]; [discriminate|].
      simpl in Hb. injection Hb as ->. now inversion Hhd.
    + now apply (IH i).
Qed.

End Ordered.

Lemma In_firstn (n : nat) (l : list X) (x : X) : In x (firstn n l) -> In x l.
Proof.
  revert n; induction l as [|z l IH]; intros [|n]; simpl; try tauto.
  intros [->|H]; eauto.
Qed.

Lemma In_filteri_from (p : X -> nat -> bool) (l : list X) (i : nat) (x : X) :
  In x (filteri_from i p l) -> In x l.
Proof.
  revert i; induction l as [|z l IH]; simpl; intros i H; [assumption|].
  destruct (p z i); simpl in H; [destruct H as [->|H]|]; eauto.
Qed.

Lemma In_mapi_from (Y : Type) (f : X -> nat -> Y) (l : list X) (i : nat) (y : Y) :
  In y (mapi_from i f l) -> exists x j, In x l /\ y = f x j.
Proof.
  revert i; induction l as [|z l IH]; simpl; intros i H; [contradiction|].
  destruct H as [<-|H]; [now exists z, i; auto|].
  destruct (IH _ H) as (x & j & Hx & ->). exists x, j; auto.
Qed.

Lemma length_mapi_from (Y : Type) (f : X -> nat -> Y) (l : list X) (i : nat) :
  length (mapi_from i f l) = length l.
Proof. revert i; induction l; simpl; intros; auto. Qed.
End ListFacts.

Section StringFacts.

Lemma chr_eqb_refl (c : ascii) : chr_eqb c c = true.
Proof. apply Ascii.eqb_refl. Qed.

Lemma chr_eqb_eq (a b : ascii) : chr_eqb a b = true <-> a = b.
Proof. apply Ascii.eqb_eq. Qed.

Lemma str_eqb_eq (a b : str) : str_eqb a b = true <-> a = b.
Proof.
  revert b; induction a as [|x a IH]; intros [|y b]; simpl; try easy.
  rewrite andb_true_iff, chr_eqb_eq, IH. split.
  - now intros [-> ->].
  - intros H; injection H; auto.
Qed.

Lemma startsWith_app (p b : str) : startsWith (p ++ b) p = true.
Proof. induction p; simpl; [reflexivity | now rewrite chr_eqb_refl]. Qed.

Lemma startsWith_elim (s p : str) :
  startsWith s p = true -> exists b, s = p ++ b.
Proof.
  revert s; induction p as [|x p IH]; intros s H.
  - now exists s.
  - destruct s as [|y s]; simpl in H; [discriminate|].
    apply andb_true_iff in H as [Hc H]. apply chr_eqb_eq in Hc as ->.
    destruct (IH _ H) as [b ->]. now exists b.
Qed.

Lemma includes_startsWith (s p : str) :
  startsWith s p = true -> includes s p = true.
Proof. intros H. destruct s; simpl; now rewrite H. Qed.

(** [includes] is substring search. *)
Lemma includes_spec (s p : str) :
  includes s p = true <-> exists a b, s = a ++ p ++ b.
Proof.
  split.
  - induction s as [|c s IH]; simpl; intros H.
    + rewrite orb_false_r in H. destruct (startsWith_elim _ _ H) as [b ->].
      now exists [], b.
    + apply orb_true_iff in H as [H|H].
      * destruct (startsWith_elim _ _ H) as [b Hb]. exists [], b. exact Hb.
      * destruct (IH H) as (a & b & ->). now exists (c :: a), b.
  - intros (a & b & ->). induction a as [|c a IH]; simpl.
    + apply includes_startsWith, startsWith_app.
    + rewrite IH. apply orb_true_r.
Qed.

Lemma toLowerCase_app (a b : str) :
  toLowerCase (a ++ b) = toLowerCase a ++ toLowerCase b.
Proof. apply map_app. Qed.

End StringFacts.

(** ** Regular expressions: the round bound of a quantifier is enough *)

Module RegexProps.
Import Regex.

(** [k1] and [k2] agree on the positions with at most [n] code units
    left. *)
Definition agreeBelow (n : nat) (k1 k2 : cont) : Prop :=
  forall y, (length (rest y) <= n)%nat -> k1 y = k2 y.

(** A matcher only hands on positions at or after the one it starts
    from. *)
Definition forward (m : pos -> cont -> option pos) : Prop :=
  forall x k1 k2, agreeBelow (length (rest x)) k1 k2 -> m x k1 = m x k2.

Lemma agreeBelow_le (n n' : nat) (k1 k2 : cont) :
  (n' <= n)%nat -> agreeBelow n k1 k2 -> agreeBelow n' k1 k2.
Proof. intros Hle H y Hy. apply H. lia. Qed.

Lemma iter_forward (m : pos -> cont -> option pos) :
  forward m ->
  forall fuel lo hi x k1 k2,
    agreeBelow (length (rest x)) k1 k2 ->
    iter m fuel lo hi x k1 = iter m fuel lo hi x k2.
Proof.
  intros Hm. induction fuel as [|fuel IH]; intros lo hi x k1 k2 Hk.
  - simpl. destruct hi as [[|h]|]; try reflexivity. apply Hk. lia.
  - assert (k1 x = k2 x) as Hx by (apply Hk; lia).
    assert (m x (fun y =>
                   if (lo =? 0)%nat && (length (rest y) =? length (rest x))%nat
                   then None else iter m fuel (pred lo) (option_map pred hi) y k1)
            = m x (fun y =>
                     if (lo =? 0)%nat && (length (rest y) =? length (rest x))%nat
                     then None else iter m fuel (pred lo) (option_map pred hi) y k2))
      as Hagain.
    { apply Hm. intros y Hy.
      destruct ((lo =? 0)%nat && (length (rest y) =? length (rest x))%nat);
        [reflexivity|].
      apply IH. now apply agreeBelow_le with (n := length (rest x)). }
    simpl. destruct hi as [[|h]|]; try exact Hx; rewrite Hagain, Hx; reflexivity.
Qed.

Lemma run_forward (r : regex) : forward (run r).
Proof.
  induction r as [p| |r1 IH1 r2 IH2|r1 IH1 r2 IH2|r IH lo hi|]; intros x k1 k2 Hk.
  - simpl. destruct (rest x) as [|c s] eqn:E; [reflexivity|].
    destruct (p c); [|reflexivity]. apply Hk. simpl. lia.
  - simpl. apply Hk. lia.
  - simpl. apply IH1. intros y Hy. apply IH2.
    now apply agreeBelow_le with (n := length (rest x)).
  - simpl. rewrite (IH1 x k1 k2 Hk), (IH2 x k1 k2 Hk). reflexivity.
  - change (iter (run r) (S (length (rest x) + lo)) lo hi x k1
            = iter (run r) (S (length (rest x) + lo)) lo hi x k2).
    now apply iter_forward.
  - simpl. destruct (atBoundary x); [|reflexivity]. apply Hk. lia.
Qed.

Lemma iter_fuel (m : pos -> cont -> option pos) :
  forward m ->
  forall f1 f2 lo hi x k,
    (length (rest x) + lo < f1)%nat -> (length (rest x) + lo < f2)%nat ->
    iter m f1 lo hi x k = iter m f2 lo hi x k.
Proof.
  intros Hm. induction f1 as [|f1 IH]; intros f2 lo hi x k H1 H2; [lia|].
  destruct f2 as [|f2]; [lia|].
  assert (m x (fun y =>
                 if (lo =? 0)%nat && (length (rest y) =? length (rest x))%nat
                 then None else iter m f1 (pred lo) (option_map pred hi) y k)
          = m x (fun y =>
                   if (lo =? 0)%nat && (length (rest y) =? length (rest x))%nat
                   then None else iter m f2 (pred lo) (option_map pred hi) y k))
    as Hagain.
  { apply Hm. intros y Hy.
    destruct (Nat.eqb_spec lo 0) as [->|Hlo]; simpl.
    - destruct (Nat.eqb_spec (length (rest y)) (length (rest x))); [reflexivity|].
      apply IH; lia.
    - apply IH; lia. }
  simpl. destruct hi as [[|h]|]; try reflexivity; now rewrite Hagain.
Qed.

(** More rounds than [length (rest x) + lo + 1] change nothing: the bound
    that [run] gives a quantifier is never exhausted. *)
Theorem fuel_suffices (r : regex) (lo : nat) (hi : option nat) (x : pos) (k : cont)
    (fuel : nat) :
  (length (rest x) + lo < fuel)%nat ->
  iter (run r) fuel lo hi x k = run (Rep r lo hi) x k.
Proof.
  intros H.
  change (run (Rep r lo hi) x k)
    with (iter (run r) (S (length (rest x) + lo)) lo hi x k).
  apply iter_fuel; [apply run_forward | assumption | lia].
Qed.

Lemma fuel_suffices_witness :
  let x := mkPos None (lit "2024 and on") in
  (length (rest x) + 1 < 100)%nat
  /\ iter (run digit) 100 1 None x Some = Some (mkPos (Some "4"%char) (lit " and on")).
Proof.
  intros x.
  assert (length (rest x) + 1 < 100)%nat as H by (vm_compute; repeat constructor).
  split; [exact H|].
  rewrite (fuel_suffices digit 1 None x Some H). reflexivity.
Defined.

End RegexProps.

(** ** Binary64 numbers: signs and order *)

Module Binary64Props.
Import SpecFloat Binary64.

(** [d] has the sign bit [s], or is no number. *)
Definition signIs (s : bool) (d : double) : Prop :=
  match d with
  | S754_zero s' | S754_infinity s' | S754_finite s' _ _ => s' = s
  | S754_nan => True
  end.

(** [d] is not below zero: zero, a positive number, or no number. *)
Definition signClear (d : double) : Prop := signIs false d.

Lemma binary_round_aux_sign (p x : Z) (s : bool) (m e : Z) (l : location) :
  signIs s (binary_round_aux p x s m e l).
Proof.
  unfold binary_round_aux.
  destruct (shr_fexp p x m e l) as [mrs e'].
  destruct (shr_fexp p x _ e' loc_Exact) as [mrs' e''].
  destruct (shr_m mrs'); simpl; try reflexivity.
  destruct (Z.leb e'' (Z.sub x p)); reflexivity.
Qed.

Lemma binary_round_sign (p x : Z) (s : bool) (m : positive) (e : Z) :
  signIs s (binary_round p x s m e).
Proof.
  unfold binary_round. destruct (shl_align m e _) as [mz ez].
  apply binary_round_aux_sign.
Qed.

Lemma ofZ_sign (z : Z) : (0 <= z)%Z -> signClear (ofZ z).
Proof.
  intros H. unfold ofZ, binary_normalize. destruct z as [|p|p]; [reflexivity| |lia].
  apply binary_round_sign.
Qed.

Lemma mul_sign (x y : double) : signClear x -> signClear y -> signClear (mul x y).
Proof.
  unfold signClear, mul. destruct x as [sx|sx| |sx mx ex], y as [sy|sy| |sy my ey];
    simpl; intros Hx Hy; subst; try reflexivity.
  apply binary_round_aux_sign.
Qed.

Lemma add_sign (x y : double) : signClear x -> signClear y -> signClear (add x y).
Proof.
  unfold signClear, add. destruct x as [sx|sx| |sx mx ex], y as [sy|sy| |sy my ey];
    simpl; intros Hx Hy; subst; try reflexivity.
  apply binary_round_sign.
Qed.

Lemma div_sign (x y : double) : signClear x -> signClear y -> signClear (div x y).
Proof.
  unfold signClear, div. destruct x as [sx|sx| |sx mx ex], y as [sy|sy| |sy my ey];
    simpl; intros Hx Hy; subst; try reflexivity.
  unfold SFdiv_core_binary.
  match goal with
  | |- context [Z.div_eucl ?a ?b] => destruct (Z.div_eucl a b) as [q r]
  end.
  apply binary_round_aux_sign.
Qed.

Lemma ofQ_sign (q : Q) : 0 <= q -> signClear (ofQ q).
Proof.
  intros H. unfold ofQ. apply div_sign; apply ofZ_sign; [|lia].
  unfold Qle in H. simpl in H. lia.
Qed.

Lemma Math_round_sign (x : double) : signClear x -> signClear (Math_round x).
Proof.
  unfold signClear. destruct x as [s|s| |s m e]; simpl; try (intros H; exact H).
  intros ->. destruct e as [|k|k]; try reflexivity.
  assert (0 <= Z.shiftr (cond_Zopp false (Zpos m) + Z.shiftl 1 (Zpos k - 1)) (Zpos k))%Z
    as Hr.
  { apply Z.shiftr_nonneg. simpl cond_Zopp.
    assert (0 <= Z.shiftl 1 (Zpos k - 1))%Z by (apply Z.shiftl_nonneg; lia). lia. }
  destruct (Z.shiftr _ _) as [|r|r]; [reflexivity | apply binary_round_sign | lia].
Qed.

Lemma Math_min_sign (a b : double) : signClear a -> signClear b -> signClear (Math_min a b).
Proof.
  unfold signClear, Math_min. destruct a as [sa|sa| |sa ma ea], b as [sb|sb| |sb mb eb];
    simpl; intros Ha Hb; subst; try reflexivity;
    match goal with
    | |- context [if ?c then _ else _] => destruct c; reflexivity
    end.
Qed.

(** A number whose sign bit is clear is not below zero. *)
Lemma signClear_not_below (d : double) : signClear d -> ltb d zero = false.
Proof.
  unfold signClear. destruct d as [s|s| |s m e]; simpl; intros H; subst; reflexivity.
Qed.

Lemma SFcompare_antisym (x y : double) :
  SFcompare y x = option_map CompOpp (SFcompare x y).
Proof.
  destruct x as [sx|sx| |sx mx ex], y as [sy|sy| |sy my ey]; simpl;
    try reflexivity;
    try (destruct sx; reflexivity); try (destruct sy; reflexivity);
    try (destruct sx, sy; reflexivity).
  pose proof (Pos.compare_cont_antisym mx my Eq) as Hm. simpl in Hm.
  destruct sx, sy; simpl; try reflexivity;
    rewrite (Z.compare_antisym ex ey); destruct (Z.compare ex ey); simpl;
      try reflexivity; rewrite <- Hm;
      destruct (Pos.compare_cont Eq mx my); reflexivity.
Qed.

Lemma ltb_antisym (x y : double) : ltb x y = true -> ltb y x = false.
Proof.
  unfold ltb, SFltb. rewrite (SFcompare_antisym x y).
  destruct (SFcompare x y) as [[| |]|]; simpl; intros H; try discriminate; reflexivity.
Qed.

Lemma ltb_irrefl (x : double) : ltb x x = false.
Proof.
  destruct (ltb x x) eqn:E; [|reflexivity].
  now rewrite (ltb_antisym _ _ E) in E.
Qed.

(** [Math.min(a, b)] is never above [a]. *)
Lemma Math_min_upper (a b : double) : ltb a (Math_min a b) = false.
Proof.
  unfold Math_min. destruct a as [sa|sa| |sa ma ea] eqn:Ea, b as [sb|sb| |sb mb eb] eqn:Eb;
    try reflexivity; rewrite <- ?Ea, <- ?Eb;
    match goal with
    | |- context [if ?c then _ else _] =>
        destruct c eqn:E; [now apply ltb_antisym | apply ltb_irrefl]
    end.
Qed.

(** Some values, as JavaScript has them: 0.1 is 7205759403792794 / 2^56;
    0.1 + 0.2 is one unit in the last place above 0.3; [Math.round] takes
    2.5 to 3, -2.5 to -2, -0.25 to -0 and the number just below 0.5 to 0. *)
Lemma binary64_samples :
  ofQ (1 # 10) = S754_finite false 7205759403792794 (-56)
  /\ add (ofQ (1 # 10)) (ofQ (2 # 10)) = S754_finite false 5404319552844596 (-54)
  /\ ofQ (3 # 10) = S754_finite false 5404319552844595 (-54)
  /\ Math_round (ofQ (5 # 2)) = ofZ 3
  /\ Math_round (ofQ (- (5 # 2))) = ofZ (-2)
  /\ Math_round (ofQ (- (1 # 4))) = S754_zero true
  /\ Math_round (S754_finite false 9007199254740991 (-54)) = S754_zero false
  /\ Math_min (ofZ 100) (ofZ 61) = ofZ 61
  /\ Math_min (ofZ 100) (ofZ 250) = ofZ 100.
Proof. vm_compute. repeat split; reflexivity. Qed.

End Binary64Props.

(** ** The risk assessment engine *)

Module RiskEngineProps.
Import Classifier RiskEngine Examples.

(** The two sums of the score formula, written as the specification
    writes them. *)
Definition weightedSum (cs : list ClauseMatch) : Q :=
  fold_right
    (fun c acc =>
       inject_Z (weightAt (RISK_WEIGHTS (type c)) (riskLevel c)) * confidence c + acc)
    0 cs.

Definition maxSum (cs : list ClauseMatch) : Z :=
  fold_right (fun c acc => (w_high (RISK_WEIGHTS (type c)) + acc)%Z) 0%Z cs.

Definition clamp (lo hi x : Z) : Z := Z.max lo (Z.min hi x).

(** [s] spells [p] in some mix of capitals and small letters. *)
Definition anyCase (s p : str) : Prop :=
  Forall2 (fun c d => c = d \/ c = upperChar d) s p.

Lemma Math_round_compat (x y : Q) : x == y -> Math_round x = Math_round y.
Proof. intros H. unfold Math_round. now rewrite H. Qed.

Lemma Math_round_nonneg (x : Q) : 0 <= x -> (0 <= Math_round x)%Z.
Proof.
  intros H. unfold Math_round.
  change 0%Z with (Qfloor 0). apply Qfloor_resp_le. lra.
Qed.

Lemma weight_nonneg (t : ClauseType) (l : RiskLevel) :
  (0 <= weightAt (RISK_WEIGHTS t) l)%Z.
Proof. destruct t, l; simpl; lia. Qed.

Lemma high_pos (t : ClauseType) : (0 < w_high (RISK_WEIGHTS t))%Z.
Proof. destruct t; simpl; lia. Qed.

Lemma maxSum_nonneg (cs : list ClauseMatch) : (0 <= maxSum cs)%Z.
Proof.
  induction cs as [|c cs IH]; simpl; [lia|].
  pose proof (high_pos (type c)). lia.
Qed.

Lemma maxSum_pos (c : ClauseMatch) (cs : list ClauseMatch) : (0 < maxSum (c :: cs))%Z.
Proof.
  simpl. pose proof (high_pos (type c)). pose proof (maxSum_nonneg cs). lia.
Qed.

Lemma weightedSum_nonneg (cs : list ClauseMatch) :
  Forall (fun c => 0 <= confidence c) cs -> 0 <= weightedSum cs.
Proof.
  induction 1 as [|c cs Hc _ IH]; simpl; [lra|].
  pose proof (weight_nonneg (type c) (riskLevel c)) as Hw.
  assert (0 <= inject_Z (weightAt (RISK_WEIGHTS (type c)) (riskLevel c))) as Hq.
  { change 0 with (inject_Z 0). now rewrite <- Zle_Qle. }
  pose proof (Qmult_le_0_compat _ _ Hq Hc). lra.
Qed.

(** What the [forEach] of [calculateOverallRiskScore] accumulates. *)
Lemma fold_scoreStep (cs : list ClauseMatch) (q : Q) (z : Z) :
  fst (fold_left scoreStep cs (q, z)) == q + weightedSum cs
  /\ snd (fold_left scoreStep cs (q, z)) = (z + maxSum cs)%Z.
Proof.
  revert q z; induction cs as [|c cs IH]; intros q z; simpl.
  - split; [ring | lia].
  - unfold scoreStep at 2 4; simpl.
    destruct (IH (q + inject_Z (weightAt (RISK_WEIGHTS (type c)) (riskLevel c))
                      * confidence c)
                 (z + w_high (RISK_WEIGHTS (type c)))%Z) as [Hq Hz].
    split; [rewrite Hq; ring | rewrite Hz; lia].
Qed.


(** The weights of the table, written out. *)
Definition tableWeight (t : ClauseType) (l : RiskLevel) : Z :=
  match t, l with
  | termination, high => 25 | termination, medium => 15 | termination, low => 5
  | liability, high => 30 | liability, medium => 20 | liability, low => 8
  | payment, high => 20 | payment, medium => 12 | payment, low => 4
  | nda, high => 15 | nda, medium => 10 | nda, low => 3
  | intellectual_property, high => 18 | intellectual_property, medium => 12
  | intellectual_property, low => 5
  end.

(** The two sums of the score formula in binary64, each taken from the
    left: weight times confidence, and the high weight. *)
Definition weighted64 (cs : list ClauseMatch) : Binary64.double :=
  fold_left
    (fun sum c =>
       Binary64.add sum
         (Binary64.mul (Binary64.ofZ (tableWeight (type c) (riskLevel c)))
            (Binary64.ofQ (confidence c))))
    cs Binary64.zero.

Definition maximal64 (cs : list ClauseMatch) : Binary64.double :=
  fold_left (fun sum c => Binary64.add sum (Binary64.ofZ (tableWeight (type c) high)))
    cs Binary64.zero.

(** The value of the formula of C2 when nothing is rounded but the
    quotient: the sums are exact, the result is rounded and clamped. *)
Definition exactFormula (cs : list ClauseMatch) : Z :=
  match cs with
  | [] => 0%Z
  | _ :: _ =>
      clamp 0 100
        (Math_round
           (fold_right
              (fun c acc => inject_Z (tableWeight (type c) (riskLevel c)) * confidence c + acc)
              0 cs
            / inject_Z (fold_right (fun c acc => (tableWeight (type c) high + acc)%Z) 0%Z cs)
            * 100))
  end.

(** What C2 says of one classification result. *)
Definition scoreAsClaimed (result : ClassificationResult) : Prop :=
  RiskEngine64.calculateOverallRiskScore result
  = Binary64.ofZ (exactFormula (clauses result)).

(** Three clauses for which the arithmetic of the code stays just below a
    half: 60.499999999999986 where the fractions give 60.5. *)
Definition roundingResult : ClassificationResult :=
  mkResult
    [ mkClause termination (lit "x") (87 # 100) 0 1 high [];
      mkClause payment (lit "x") (83 # 100) 0 1 high [];
      mkClause termination (lit "x") (80 # 100) 0 1 low [] ]
    (mkSummary 3 2 0 1).

(** One clause with a confidence below zero. *)
Definition negativeResult : ClassificationResult :=
  mkResult [ mkClause liability (lit "x") (- (1 # 2)) 0 1 high [] ] (mkSummary 1 1 0 0).

Lemma tableWeight_code (t : ClauseType) (l : RiskLevel) :
  weightAt (RISK_WEIGHTS t) l = tableWeight t l.
Proof. destruct t, l; reflexivity. Qed.

Lemma tableWeight_high (t : ClauseType) : w_high (RISK_WEIGHTS t) = tableWeight t high.
Proof. destruct t; reflexivity. Qed.

Lemma fold_scoreStep64 (cs : list ClauseMatch) (t m : Binary64.double) :
  fold_left RiskEngine64.scoreStep cs (t, m)
  = (fold_left
       (fun sum c =>
          Binary64.add sum
            (Binary64.mul (Binary64.ofZ (tableWeight (type c) (riskLevel c)))
               (Binary64.ofQ (confidence c))))
       cs t,
     fold_left (fun sum c => Binary64.add sum (Binary64.ofZ (tableWeight (type c) high)))
       cs m).
Proof.
  revert t m. induction cs as [|c cs IH]; intros t m; [reflexivity|].
  cbn [fold_left]. unfold RiskEngine64.scoreStep at 2. cbn [fst snd].
  now rewrite tableWeight_code, tableWeight_high, IH.
Qed.

Lemma weighted64_sign (cs : list ClauseMatch) (t : Binary64.double) :
  Forall (fun c => 0 <= confidence c) cs -> Binary64Props.signClear t ->
  Binary64Props.signClear
    (fold_left
       (fun sum c =>
          Binary64.add sum
            (Binary64.mul (Binary64.ofZ (tableWeight (type c) (riskLevel c)))
               (Binary64.ofQ (confidence c))))
       cs t).
Proof.
  intros H. revert t. induction H as [|c cs Hc _ IH]; intros t Ht; [exact Ht|].
  cbn [fold_left]. apply IH. apply Binary64Props.add_sign; [exact Ht|].
  apply Binary64Props.mul_sign.
  - apply Binary64Props.ofZ_sign. destruct (type c), (riskLevel c); simpl; lia.
  - now apply Binary64Props.ofQ_sign.
Qed.

Lemma maximal64_sign (cs : list ClauseMatch) (m : Binary64.double) :
  Binary64Props.signClear m ->
  Binary64Props.signClear
    (fold_left (fun sum c => Binary64.add sum (Binary64.ofZ (tableWeight (type c) high)))
       cs m).
Proof.
  revert m. induction cs as [|c cs IH]; intros m Hm; [exact Hm|].
  cbn [fold_left]. apply IH. apply Binary64Props.add_sign; [exact Hm|].
  apply Binary64Props.ofZ_sign. destruct (type c); simpl; lia.
Qed.

(** C2, as stated, fails twice. The score is computed in binary64
    arithmetic, not from the exact sums: for [roundingResult] the code
    returns 60 where the formula gives 61. And it is clamped from above
    only: for [negativeResult] the code returns -50. *)
Lemma score_is_not_the_exact_formula :
  ~ scoreAsClaimed roundingResult /\ ~ scoreAsClaimed negativeResult.
Proof.
  assert (RiskEngine64.calculateOverallRiskScore roundingResult = Binary64.ofZ 60) as H60
    by (vm_compute; reflexivity).
  assert (exactFormula (clauses roundingResult) = 61%Z) as H61
    by (vm_compute; reflexivity).
  assert (RiskEngine64.calculateOverallRiskScore negativeResult = Binary64.ofZ (-50))
    as Hneg by (vm_compute; reflexivity).
  assert (exactFormula (clauses negativeResult) = 0%Z) as H0
    by (vm_compute; reflexivity).
  unfold scoreAsClaimed. rewrite H60, H61, Hneg, H0.
  split; vm_compute; discriminate.
Qed.

(** C2, amended: the overall score is the formula of the claim evaluated
    in binary64 arithmetic the way the code does it: the products weight
    times confidence and the high weights are summed from the left, each
    step rounded; the first sum is divided by the second and multiplied by
    100, the result rounded by [Math.round] and capped at 100; the score is
    0 when the second sum is not above 0. The weights are those of the
    fixed table. With no clause the score is 0. The score is never above
    100; it is not below 0 when no confidence is below 0. *)
Theorem overall_score_in_binary64 (result : ClassificationResult) :
  let cs := clauses result in
  let score := RiskEngine64.calculateOverallRiskScore result in
  score
  = (if Binary64.ltb Binary64.zero (maximal64 cs)
     then Binary64.Math_min (Binary64.ofZ 100)
            (Binary64.Math_round
               (Binary64.mul (Binary64.div (weighted64 cs) (maximal64 cs))
                  (Binary64.ofZ 100)))
     else Binary64.zero)
  /\ (cs = [] -> score = Binary64.zero)
  /\ Binary64.ltb (Binary64.ofZ 100) score = false
  /\ (Forall (fun c => 0 <= confidence c) cs ->
      Binary64.ltb score Binary64.zero = false).
Proof.
  intros cs score. subst score. unfold RiskEngine64.calculateOverallRiskScore.
  fold cs. rewrite (fold_scoreStep64 cs Binary64.zero Binary64.zero).
  fold (weighted64 cs). fold (maximal64 cs).
  split; [|split; [|split]].
  - destruct (Binary64.ltb Binary64.zero (maximal64 cs)); reflexivity.
  - intros ->. reflexivity.
  - apply Binary64Props.Math_min_upper.
  - intros Hconf. apply Binary64Props.signClear_not_below.
    apply Binary64Props.Math_min_sign; [apply Binary64Props.ofZ_sign; lia|].
    apply Binary64Props.Math_round_sign.
    destruct (Binary64.ltb Binary64.zero (maximal64 cs)); [|reflexivity].
    apply Binary64Props.mul_sign; [|apply Binary64Props.ofZ_sign; lia].
    apply Binary64Props.div_sign.
    + now apply weighted64_sign.
    + now apply maximal64_sign.
Qed.

Lemma pattern_letters :
  forallb
    (fun d => chr_eqb (lowerChar d) d && chr_eqb (lowerChar (upperChar d)) d)
    (lit "unlimited liability") = true.
Proof. vm_compute. reflexivity. Qed.

Lemma anyCase_lower (s p : str) :
  anyCase s p ->
  forallb (fun d => chr_eqb (lowerChar d) d && chr_eqb (lowerChar (upperChar d)) d) p
  = true ->
  toLowerCase s = p.
Proof.
  induction 1 as [|c d s p Hcd _ IH]; simpl; intros Hp; [reflexivity|].
  apply andb_true_iff in Hp as [Hd Hp]. apply andb_true_iff in Hd as [Hd Hu].
  apply chr_eqb_eq in Hd, Hu. rewrite (IH Hp).
  destruct Hcd as [->| ->]; congruence.
Qed.

Lemma lower_includes (pre s post p : str) :
  toLowerCase s = p -> includes (toLowerCase (pre ++ s ++ post)) p = true.
Proof.
  intros <-. rewrite !toLowerCase_app. apply includes_spec. eauto.
Qed.

(** C3: a document that contains "unlimited liability", in any letter
    case, gets a risk factor of severity critical and the cost-risk tier
    critical, whatever the classification result holds. *)
Theorem unlimited_liability_is_critical
    (result : ClassificationResult) (pre s post : str) :
  anyCase s (lit "unlimited liability") ->
  let a := assessRisk result (pre ++ s ++ post) in
  (exists f, In f (riskFactors a) /\ severity f = sev_critical)
  /\ costRisk (financialImpact a) = cost_critical.
Proof.
  intros Hs. pose proof (@lower_includes pre s post _ (anyCase_lower Hs pattern_letters)) as Hin.
  simpl. split.
  - unfold identifyRiskFactors.
    set (lowerText := toLowerCase (pre ++ s ++ post)) in *.
    unfold criticalFactors, mapi, CRITICAL_PATTERNS.
    cbn [mapi_from concat]. rewrite Hin.
    eexists. split.
    + apply In_sort. cbn [app]. left. reflexivity.
    + reflexivity.
  - unfold assessFinancialImpact. rewrite Hin. reflexivity.
Qed.

Lemma unlimited_liability_is_critical_witness :
  anyCase (lit "UNLIMITED Liability") (lit "unlimited liability")
  /\ costRisk (financialImpact
       (assessRisk emptyResult
          (lit "The tenant accepts " ++ lit "UNLIMITED Liability" ++ lit " for all loss.")))
     = cost_critical.
Proof.
  assert (anyCase (lit "UNLIMITED Liability") (lit "unlimited liability")) as H.
  { unfold anyCase.
    repeat (apply Forall2_cons; [first [left; reflexivity | right; reflexivity]|]).
    apply Forall2_nil. }
  split; [exact H|].
  exact (proj2 (unlimited_liability_is_critical emptyResult
                  (lit "The tenant accepts ") (lit " for all loss.") H)).
Defined.

Lemma bySeverity_total (a b : RiskFactor) :
  bySeverity a b = false -> bySeverity b a = true.
Proof. unfold bySeverity. intros H. apply Z.leb_gt in H. apply Z.leb_le. lia. Qed.

(** C6: the risk factors of an assessment come in non-increasing order of
    severity rank (critical 4, high 3, medium 2, low 1): each factor ranks at
    least as high as the one after it. *)
Theorem risk_factors_sorted
    (result : ClassificationResult) (documentText : str)
    (i : nat) (f g : RiskFactor) :
  nth_error (riskFactors (assessRisk result documentText)) i = Some f ->
  nth_error (riskFactors (assessRisk result documentText)) (S i) = Some g ->
  (severityOrder (severity g) <= severityOrder (severity f))%Z
  /\ map severityOrder [sev_critical; sev_high; sev_medium; sev_low]
     = [4; 3; 2; 1]%Z.
Proof.
  simpl. unfold identifyRiskFactors. intros Hf Hg. split; [|reflexivity].
  pose proof (@sorted_adjacent _ bySeverity _ i _ _
                (sort_sorted bySeverity bySeverity_total _) Hf Hg) as H.
  unfold bySeverity in H. apply Z.leb_le in H. lia.
Qed.

Lemma risk_factors_sorted_witness :
  let fs := riskFactors (assessRisk emptyResult (lit "Unlimited liability applies.")) in
  let d := mkFactor [] legal sev_low [] [] [] [] [] in
  nth_error fs 0 = Some (nth 0 fs d)
  /\ nth_error fs 1 = Some (nth 1 fs d)
  /\ (severityOrder (severity (nth 1 fs d)) <= severityOrder (severity (nth 0 fs d)))%Z.
Proof.
  intros fs d.
  assert (nth_error fs 0 = Some (nth 0 fs d)) as Hf by (vm_compute; reflexivity).
  assert (nth_error fs 1 = Some (nth 1 fs d)) as Hg by (vm_compute; reflexivity).
  split; [exact Hf|]. split; [exact Hg|].
  exact (proj1 (risk_factors_sorted emptyResult _ 0 Hf Hg)).
Defined.

End RiskEngineProps.

(** ** The clause classifier *)

Module ClassifierProps.
Import Regex Classifier Examples.

(** No pattern of any clause type has a hit in [t]. *)
Definition noPatternHit (t : str) : bool :=
  forallb
    (fun ty =>
       forallb (fun pattern => (length (matchAll pattern t) =? 0)%nat)
         (CLAUSE_PATTERNS ty))
    clauseTypes.

(** [t] contains the phrase [w] in some letter case. *)
Definition mentions (t : str) (w : string) : bool :=
  includes (map foldCase t) (map foldCase (lit w)).

(** [t] contains none of the phrases of the clause patterns, in any
    letter case. *)
Definition clauseFree (t : str) : bool :=
  forallb
    (fun ty =>
       forallb (fun ws => forallb (fun w => negb (mentions t w)) ws) (CLAUSE_WORDS ty))
    clauseTypes.

(** The matches that have no earlier match of their type starting less
    than 100 characters away. *)
Definition firstOfItsKind (allClauses : list ClauseMatch) : list ClauseMatch :=
  filteri
    (fun clause index =>
       forallb (fun c => negb (near clause c)) (firstn index allClauses))
    allClauses.

Lemma flatMapR_Forall (X Y : Type) (P : Y -> Prop) (f : X -> Rand (list Y))
    (l : list X) (n : nat) :
  (forall x m, In x l -> Forall P (fst (f x m))) ->
  Forall P (fst (flatMapR f l n)).
Proof.
  revert n; induction l as [|x l IH]; intros n Hf; simpl.
  - constructor.
  - unfold bind, ret. pose proof (Hf x n (or_introl eq_refl)) as Hx.
    destruct (f x n) as [ys n'].
    assert (Forall P (fst (flatMapR f l n'))) as Hl.
    { apply IH. intros y m Hy. apply Hf. now right. }
    destruct (flatMapR f l n') as [zs n'']. simpl in *.
    apply Forall_app. auto.
Qed.

Lemma flatMapR_nil (X Y : Type) (f : X -> Rand (list Y)) (l : list X) (n : nat) :
  (forall x m, In x l -> f x m = ([], m)) -> flatMapR f l n = ([], n).
Proof.
  revert n; induction l as [|x l IH]; intros n Hf; simpl; [reflexivity|].
  unfold bind, ret. rewrite (Hf x n (or_introl eq_refl)).
  rewrite IH; [reflexivity|]. intros y m Hy. apply Hf. now right.
Qed.

Lemma Math_min_l (a b : Q) : Math_min a b <= a.
Proof.
  unfold Math_min. destruct (Qle_bool a b) eqn:E; [lra|].
  assert (~ a <= b) as H by (rewrite <- Qle_bool_iff, E; discriminate).
  apply Qnot_le_lt in H. lra.
Qed.

Lemma Math_min_r (a b : Q) : Math_min a b <= b.
Proof.
  unfold Math_min. destruct (Qle_bool a b) eqn:E; [|lra].
  now apply Qle_bool_iff.
Qed.

Lemma Math_min_glb (a b c : Q) : c <= a -> c <= b -> c <= Math_min a b.
Proof. unfold Math_min. destruct (Qle_bool a b); auto. Qed.

Lemma ratio_nonneg (a b : nat) :
  0 <= inject_Z (Z.of_nat a) / inject_Z (Z.of_nat (Nat.max b 10)).
Proof.
  assert (0 < inject_Z (Z.of_nat (Nat.max b 10))) as Hb.
  { change 0 with (inject_Z 0). rewrite <- Zlt_Qlt. lia. }
  assert (0 <= inject_Z (Z.of_nat a)) as Ha.
  { change 0 with (inject_Z 0). rewrite <- Zle_Qle. lia. }
  apply Qle_shift_div_l; [assumption | lra].
Qed.

Lemma hundredths_bounds (k : Z) :
  (75 <= k <= 98)%Z ->
  75 # 100 <= inject_Z k / 100 /\ inject_Z k / 100 <= 98 # 100.
Proof.
  intros [Hl Hu].
  assert (75 <= inject_Z k) by (change 75 with (inject_Z 75); now rewrite <- Zle_Qle).
  assert (inject_Z k <= 98) by (change 98 with (inject_Z 98); now rewrite <- Zle_Qle).
  split.
  - apply Qle_shift_div_l; lra.
  - apply Qle_shift_div_r; lra.
Qed.

(** [calculateConfidence] returns a whole number of hundredths between 75
    and 98. *)
Lemma calculateConfidence_hundredths (t : str) (ty : ClauseType) :
  exists k : Z,
    (75 <= k <= 98)%Z /\ calculateConfidence t ty = inject_Z k / 100.
Proof.
  unfold calculateConfidence.
  set (rel := fold_left _ _ _).
  set (cw := length _).
  set (bonus := Math_min (15 # 100) _).
  set (c := Math_min (98 # 100) _).
  exists (Math_round (c * 100)). split; [|reflexivity].
  assert (0 <= bonus) as Hbonus.
  { apply Math_min_glb; [lra|].
    apply Qle_shift_div_l; [lra|].
    assert (0 <= inject_Z (Z.of_nat (length t))).
    { change 0 with (inject_Z 0). rewrite <- Zle_Qle. lia. }
    lra. }
  pose proof (ratio_nonneg rel cw) as Hratio.
  assert (75 # 100 <= c) as Hlo.
  { apply Math_min_glb; [lra|].
    assert (0 <= inject_Z (Z.of_nat rel) / inject_Z (Z.of_nat (Nat.max cw 10)) * (2 # 10)).
    { apply Qmult_le_0_compat; [assumption | lra]. }
    lra. }
  assert (c <= 98 # 100) as Hhi by apply Math_min_l.
  unfold Math_round. split.
  - change 75%Z with (Qfloor (75 + (1 # 2))). apply Qfloor_resp_le. lra.
  - change 98%Z with (Qfloor (98 + (1 # 2))). apply Qfloor_resp_le. lra.
Qed.

Definition confidenceOk (c : ClauseMatch) : Prop :=
  exists k : Z, (75 <= k <= 98)%Z /\ confidence c = inject_Z k / 100.

Lemma clauseOfMatch_confidence (random : nat -> Q) (t : str) (ty : ClauseType)
    (m : nat * str) (n : nat) :
  Forall confidenceOk (fst (clauseOfMatch random t ty m n)).
Proof.
  unfold clauseOfMatch.
  match goal with |- context [if ?b then _ else _] => destruct b end.
  - constructor.
  - unfold bind, ret.
    match goal with |- context [assessRisk ?r ?x ?y ?z] => destruct (assessRisk r x y z) end.
    simpl. constructor; [|constructor].
    apply calculateConfidence_hundredths.
Qed.

Lemma allClauses_confidence (random : nat -> Q) (t : str) (n : nat) :
  Forall confidenceOk (fst (allClausesOf random t n)).
Proof.
  unfold allClausesOf. apply flatMapR_Forall. intros ty m _.
  unfold classifyClause. apply flatMapR_Forall. intros pattern m' _.
  apply flatMapR_Forall. intros hit m'' _. apply clauseOfMatch_confidence.
Qed.

Lemma unique_incl (allClauses : list ClauseMatch) :
  incl (uniqueClausesOf allClauses) allClauses.
Proof.
  intros c Hc. unfold uniqueClausesOf in Hc.
  apply In_firstn, In_sort in Hc. unfold dedupe, filteri in Hc.
  now apply In_filteri_from in Hc.
Qed.

Lemma classifyDocument_clauses (random : nat -> Q) (t : str) (n : nat) :
  clauses (fst (classifyDocument random t n))
  = uniqueClausesOf (fst (allClausesOf random t n)).
Proof.
  unfold classifyDocument, bind, ret.
  destruct (allClausesOf random t n). reflexivity.
Qed.

Lemma classifyDocument_summary (random : nat -> Q) (t : str) (n : nat) :
  fst (classifyDocument random t n)
  = resultOf (clauses (fst (classifyDocument random t n))).
Proof.
  unfold classifyDocument, bind, ret.
  destruct (allClausesOf random t n). reflexivity.
Qed.

(** C10: every clause the classifier returns has a confidence between
    0.75 and 0.98 that is a whole number of hundredths. *)
Theorem confidence_range (random : nat -> Q) (t : str) (n : nat) (c : ClauseMatch) :
  In c (clauses (fst (classifyDocument random t n))) ->
  75 # 100 <= confidence c /\ confidence c <= 98 # 100
  /\ exists k : Z, confidence c = inject_Z k / 100.
Proof.
  rewrite classifyDocument_clauses. intros Hc.
  apply unique_incl in Hc.
  pose proof (allClauses_confidence random t n) as Hall.
  rewrite Forall_forall in Hall. destruct (Hall c Hc) as (k & Hk & ->).
  destruct (hundredths_bounds Hk). eauto.
Qed.

Lemma confidence_range_witness :
  let cs := clauses (fst (classifyDocument noDraws termsDocument 0%nat)) in
  let c := nth 0 cs (mkClause nda [] 0 0 0 low []) in
  In c cs /\ 75 # 100 <= confidence c /\ confidence c <= 98 # 100.
Proof.
  intros cs c.
  assert (In c cs) as Hin.
  { apply nth_In. vm_compute. constructor. }
  split; [exact Hin|].
  destruct (confidence_range noDraws termsDocument 0%nat c Hin) as (Hl & Hu & _).
  split; assumption.
Defined.

Lemma count_levels (cs : list ClauseMatch) :
  length cs = (countLevel high cs + countLevel medium cs + countLevel low cs)%nat.
Proof.
  unfold countLevel. induction cs as [|c cs IH]; simpl; [reflexivity|].
  destruct (riskLevel c); simpl; lia.
Qed.

Lemma noPatternHit_empty (random : nat -> Q) (t : str) (n : nat) :
  noPatternHit t = true -> allClausesOf random t n = ([], n).
Proof.
  intros H. unfold noPatternHit in H. rewrite forallb_forall in H.
  unfold allClausesOf. apply flatMapR_nil. intros ty m Hty.
  specialize (H ty Hty). rewrite forallb_forall in H.
  unfold classifyClause. apply flatMapR_nil. intros pattern m' Hp.
  specialize (H pattern Hp). apply Nat.eqb_eq in H.
  destruct (matchAll pattern t); [reflexivity | discriminate].
Qed.

(** A match of a literal phrase covers a spelling of the phrase. *)
Lemma run_word (w : str) (x : pos) (k : cont) (z : pos) :
  run (seqOf (map ci w)) x k = Some z ->
  exists u r, rest x = u ++ r /\ map foldCase u = map foldCase w.
Proof.
  revert x k; induction w as [|c w IH]; intros x k H.
  - exists [], (rest x). split; reflexivity.
  - destruct w as [|c' w'].
    + simpl in H. destruct (rest x) as [|a s]; [discriminate|].
      destruct (chr_eqb (foldCase a) (foldCase c)) eqn:E; [|discriminate].
      apply chr_eqb_eq in E. exists [a], s. split; [reflexivity|].
      simpl. now rewrite E.
    + change (seqOf (map ci (c :: c' :: w')))
        with (Seq (ci c) (seqOf (map ci (c' :: w')))) in H.
      simpl in H. destruct (rest x) as [|a s]; [discriminate|].
      destruct (chr_eqb (foldCase a) (foldCase c)) eqn:E; [|discriminate].
      apply chr_eqb_eq in E.
      destruct (IH _ _ H) as (u & r & Hs & Hu). simpl in Hs.
      exists (a :: u), r. split; [now rewrite Hs|].
      simpl. simpl in Hu. now rewrite E, Hu.
Qed.

Lemma run_words (ws : list string) (x : pos) (k : cont) (z : pos) :
  run (words ws) x k = Some z ->
  exists w u r,
    In w ws /\ rest x = u ++ r /\ map foldCase u = map foldCase (lit w).
Proof.
  unfold words. induction ws as [|w ws IH]; intros H.
  - simpl in H. destruct (rest x); discriminate.
  - destruct ws as [|w' ws'].
    + simpl in H. destruct (run_word _ _ _ H) as (u & r & Hs & Hu).
      exists w, u, r. repeat split; auto. now left.
    + change (altOf (map word (w :: w' :: ws')))
        with (Alt (word w) (altOf (map word (w' :: ws')))) in H.
      simpl in H. destruct (run (word w) x k) eqn:E.
      * destruct (run_word _ _ _ E) as (u & r & Hs & Hu).
        exists w, u, r. repeat split; auto. now left.
      * destruct (IH H) as (v & u & r & Hv & Hs & Hu).
        exists v, u, r. repeat split; auto. now right.
Qed.

Lemma exec_sound (r : regex) (s : str) (i : nat) (b : option ascii) (f : found) :
  exec r i b s = Some f ->
  exists pre s' b' z, s = pre ++ s' /\ run r (mkPos b' s') Some = Some z.
Proof.
  revert i b; induction s as [|c s IH]; intros i b H; simpl in H.
  - destruct (run r (mkPos b []) Some) eqn:E; [|discriminate].
    exists [], [], b, p. split; [reflexivity | exact E].
  - destruct (run r (mkPos b (c :: s)) Some) eqn:E.
    + exists [], (c :: s), b, p. split; [reflexivity | exact E].
    + destruct (IH _ _ H) as (pre & s' & b' & z & -> & Hrun).
      exists (c :: pre), s', b', z. split; [reflexivity | exact Hrun].
Qed.

(** A pattern has no hit in a text that mentions none of its phrases. *)
Lemma no_mention_no_hit (ws : list string) (t : str) :
  forallb (fun w => negb (mentions t w)) ws = true -> matchAll (words ws) t = [].
Proof.
  intros Hno. unfold matchAll. simpl.
  destruct (exec (words ws) 0 None t) as [f|] eqn:E; [exfalso | reflexivity].
  destruct (exec_sound _ _ _ _ E) as (pre & s' & b' & z & -> & Hrun).
  destruct (run_words _ _ _ Hrun) as (w & u & r & Hw & Hs & Hu). simpl in Hs.
  rewrite forallb_forall in Hno. specialize (Hno w Hw).
  apply negb_true_iff in Hno. unfold mentions in Hno.
  rewrite Hs, !map_app, Hu in Hno.
  assert (includes (map foldCase pre ++ map foldCase (lit w) ++ map foldCase r)
            (map foldCase (lit w)) = true) as Hin
    by (apply includes_spec; eauto).
  congruence.
Qed.

Lemma clauseFree_noPatternHit (t : str) : clauseFree t = true -> noPatternHit t = true.
Proof.
  unfold clauseFree, noPatternHit. rewrite !forallb_forall. intros H ty Hty.
  specialize (H ty Hty). rewrite forallb_forall in *. intros pattern Hp.
  unfold CLAUSE_PATTERNS in Hp. apply in_map_iff in Hp as (ws & <- & Hws).
  rewrite (no_mention_no_hit ws t (H ws Hws)). reflexivity.
Qed.

(** C5: the summary of a classification counts its clauses: the total is
    the length of the list and the sum of the three tier counts, and the
    list has at most 20 entries; a text that contains none of the clause
    phrases, in any letter case, gets the empty list and four zero counts. *)
Theorem summary_counts (random : nat -> Q) (t : str) (n : nat) :
  let r := fst (classifyDocument random t n) in
  totalClauses (summary r) = length (clauses r)
  /\ totalClauses (summary r)
     = (highRiskClauses (summary r) + mediumRiskClauses (summary r)
        + lowRiskClauses (summary r))%nat
  /\ (length (clauses r) <= 20)%nat
  /\ (clauseFree t = true ->
      clauses r = [] /\ summary r = mkSummary 0 0 0 0).
Proof.
  intros r. subst r. rewrite classifyDocument_summary.
  set (cs := clauses (fst (classifyDocument random t n))).
  simpl. repeat split.
  - apply count_levels.
  - subst cs. rewrite classifyDocument_clauses. unfold uniqueClausesOf.
    apply firstn_le_length.
  - subst cs. apply clauseFree_noPatternHit in H.
    rewrite classifyDocument_clauses, (noPatternHit_empty random t n H).
    reflexivity.
  - subst cs. apply clauseFree_noPatternHit in H.
    rewrite classifyDocument_clauses, (noPatternHit_empty random t n H).
    reflexivity.
Qed.

Lemma summary_counts_witness :
  clauseFree skyDocument = true
  /\ clauses (fst (classifyDocument noDraws skyDocument 0%nat)) = []
  /\ summary (fst (classifyDocument noDraws skyDocument 0%nat)) = mkSummary 0 0 0 0.
Proof.
  assert (clauseFree skyDocument = true) as H by (vm_compute; reflexivity).
  split; [exact H|].
  exact (proj2 (proj2 (proj2 (summary_counts noDraws skyDocument 0%nat))) H).
Defined.

Lemma near_refl (c : ClauseMatch) : near c c = true.
Proof.
  unfold near. rewrite Z.sub_diag. simpl. destruct (type c); reflexivity.
Qed.

(** [findIndex] stops at position [length l1] exactly when nothing in
    [l1] satisfies the test. *)
Lemma findIndex_here (X : Type) (p : X -> bool) (l1 : list X) (c : X) (l2 : list X) :
  p c = true ->
  match findIndex p (l1 ++ c :: l2) with
  | Some j => (length l1 =? j)%nat
  | None => false
  end
  = forallb (fun x => negb (p x)) l1.
Proof.
  intros Hc. induction l1 as [|x l1 IH]; simpl.
  - now rewrite Hc.
  - destruct (p x); simpl; [reflexivity|].
    destruct (findIndex p (l1 ++ c :: l2)); simpl in *; exact IH.
Qed.

Lemma dedupe_from (l1 l2 : list ClauseMatch) :
  filteri_from (length l1)
    (fun clause index =>
       match findIndex (near clause) (l1 ++ l2) with
       | Some i => (index =? i)%nat
       | None => false
       end) l2
  = filteri_from (length l1)
      (fun clause index =>
         forallb (fun c => negb (near clause c)) (firstn index (l1 ++ l2))) l2.
Proof.
  revert l1; induction l2 as [|c l2 IH]; intros l1; simpl; [reflexivity|].
  rewrite (findIndex_here (near c) l1 c l2 (near_refl c)).
  rewrite firstn_app, firstn_all, Nat.sub_diag, firstn_0, app_nil_r.
  specialize (IH (l1 ++ [c])). rewrite <- app_assoc, length_app in IH.
  simpl in IH. rewrite Nat.add_1_r in IH. rewrite IH. reflexivity.
Qed.

Lemma dedupe_firstOfItsKind (allClauses : list ClauseMatch) :
  dedupe allClauses = firstOfItsKind allClauses.
Proof. exact (dedupe_from [] allClauses). Qed.

Lemma byConfidence_total (a b : ClauseMatch) :
  byConfidence a b = false -> byConfidence b a = true.
Proof.
  unfold byConfidence. intros H. apply Qle_bool_iff.
  assert (~ confidence b - confidence a <= 0) as Hn
    by (rewrite <- Qle_bool_iff, H; discriminate).
  apply Qnot_le_lt in Hn. lra.
Qed.

Lemma Sorted_weaken (X : Type) (R R' : X -> X -> Prop) (l : list X) :
  (forall a b, R a b -> R' a b) -> Sorted R l -> Sorted R' l.
Proof.
  intros HR. induction 1 as [|x l Hs IH Hhd]; constructor; [assumption|].
  destruct Hhd; constructor; auto.
Qed.

Lemma termsMatches_eq :
  fst (allClausesOf noDraws termsDocument 0%nat) = termsMatches.
Proof. vm_compute. reflexivity. Qed.

(** What the claim of C4 says of a run of the deduplication: of two
    matches of one type that start less than 100 characters apart, the one
    with the lower confidence is not kept. *)
Definition keepsBest (allClauses kept : list ClauseMatch) : Prop :=
  forall a b,
    In a allClauses -> In b allClauses -> near a b = true ->
    confidence a < confidence b -> ~ In a kept.

(** C4, as stated, fails: in [termsDocument] the first hit, "terminate",
    has confidence 0.91 and the later hits of the same type, all starting
    less than 100 characters from it, have 0.93; the first one is the one
    kept. *)
Lemma dedupe_keeps_lower_confidence :
  ~ keepsBest (fst (allClausesOf noDraws termsDocument 0%nat))
      (clauses (fst (classifyDocument noDraws termsDocument 0%nat))).
Proof.
  rewrite classifyDocument_clauses, termsMatches_eq. unfold termsMatches.
  intros H.
  match type of H with
  | keepsBest (?a :: ?b :: _) _ => apply (H a b)
  end.
  - left. reflexivity.
  - right. left. reflexivity.
  - vm_compute. reflexivity.
  - vm_compute. reflexivity.
  - vm_compute. left. reflexivity.
Qed.

Lemma filter_insert (X : Type) (le0 : X -> X -> bool) (p : X -> bool) (x : X)
    (l : list X) :
  (forall y, p x = true -> le0 x y = false -> p y = false) ->
  filter p (insert le0 x l) = if p x then x :: filter p l else filter p l.
Proof.
  intros Hp. induction l as [|y l IH]; simpl.
  - reflexivity.
  - destruct (le0 x y) eqn:Hxy; simpl.
    + reflexivity.
    + rewrite IH. destruct (p x) eqn:Hx.
      * now rewrite (Hp y eq_refl Hxy).
      * reflexivity.
Qed.

(** A stable sort leaves the entries that satisfy [p] in their order,
    when no entry that satisfies [p] is moved behind another one. *)
Lemma filter_sort (X : Type) (le0 : X -> X -> bool) (p : X -> bool) (l : list X) :
  (forall x y, p x = true -> le0 x y = false -> p y = false) ->
  filter p (sort le0 l) = filter p l.
Proof.
  intros Hp. induction l as [|x l IH]; simpl; [reflexivity|].
  rewrite filter_insert by (apply Hp). now rewrite IH.
Qed.

Lemma byConfidence_ties (q : Q) (x y : ClauseMatch) :
  Qeq_bool (confidence x) q = true -> byConfidence x y = false ->
  Qeq_bool (confidence y) q = false.
Proof.
  unfold byConfidence. intros Hx Hxy. apply Qeq_bool_iff in Hx.
  assert (~ confidence y - confidence x <= 0) as Hn
    by (rewrite <- Qle_bool_iff, Hxy; discriminate).
  apply Qnot_le_lt in Hn.
  destruct (Qeq_bool (confidence y) q) eqn:Hy; [|reflexivity].
  apply Qeq_bool_iff in Hy. lra.
Qed.

(** C4, amended: a match is kept exactly when no earlier match of the
    scan has its type and starts less than 100 characters from it, whatever
    the confidences; the clauses returned are the first 20 of the kept
    matches sorted by confidence from high to low, and the sort is stable:
    kept matches of one confidence stay in the order of the scan. *)
Theorem dedupe_keeps_first (random : nat -> Q) (t : str) (n : nat) :
  let allClauses := fst (allClausesOf random t n) in
  let kept := clauses (fst (classifyDocument random t n)) in
  kept = firstn 20 (sort byConfidence (firstOfItsKind allClauses))
  /\ Permutation (sort byConfidence (firstOfItsKind allClauses))
       (firstOfItsKind allClauses)
  /\ Sorted (fun a b => confidence b <= confidence a) kept
  /\ (length kept <= 20)%nat
  /\ forall q : Q,
       filter (fun c => Qeq_bool (confidence c) q)
         (sort byConfidence (firstOfItsKind allClauses))
       = filter (fun c => Qeq_bool (confidence c) q) (firstOfItsKind allClauses).
Proof.
  intros allClauses kept. subst kept. rewrite classifyDocument_clauses.
  fold allClauses. unfold uniqueClausesOf. rewrite dedupe_firstOfItsKind.
  split; [reflexivity|]. split; [apply sort_perm|]. split; [|split].
  - apply sorted_firstn.
    apply Sorted_weaken with (R := fun a b => byConfidence a b = true).
    + intros a b Hab. unfold byConfidence in Hab. apply Qle_bool_iff in Hab. lra.
    + apply sort_sorted, byConfidence_total.
  - apply firstn_le_length.
  - intros q. apply filter_sort. intros x y. apply byConfidence_ties.
Qed.

End ClassifierProps.

(** ** The abstractive summarizer *)

Module SummarizerProps.
Import Regex Classifier Summarizer Examples.

(** [s] has a code unit that is not white space. *)
Definition hasInk (s : str) : bool := existsb (fun c => negb (isSpace c)) s.


Lemma hasInk_app (a b : str) : hasInk (a ++ b) = hasInk a || hasInk b.
Proof. apply existsb_app. Qed.


Lemma hasInk_length (s : str) : hasInk s = true -> (0 <? length s)%nat = true.
Proof. now destruct s. Qed.

Lemma hasInk_rev (s : str) : hasInk (rev s) = hasInk s.
Proof.
  induction s as [|c s IH]; simpl; [reflexivity|].
  rewrite hasInk_app, IH. simpl. rewrite orb_false_r. apply orb_comm.
Qed.

Lemma hasInk_dropSpaces (s : str) : hasInk (dropSpaces s) = hasInk s.
Proof.
  induction s as [|c s IH]; simpl; [reflexivity|].
  destruct (isSpace c) eqn:E; simpl; [exact IH | now rewrite E].
Qed.

Lemma hasInk_trim (s : str) : hasInk (trim s) = hasInk s.
Proof.
  unfold trim. now rewrite hasInk_rev, hasInk_dropSpaces, hasInk_rev, hasInk_dropSpaces.
Qed.

Lemma dropSpaces_ink (s : str) : dropSpaces s <> [] -> hasInk (dropSpaces s) = true.
Proof.
  induction s as [|c s IH]; simpl; [congruence|].
  destruct (isSpace c) eqn:E; [exact IH|].
  intros _. simpl. now rewrite E.
Qed.

(** A trimmed string that is not empty has ink. *)
Lemma trimmed_ink (s : str) : trim s <> [] -> hasInk (trim s) = true.
Proof.
  unfold trim. intros H. rewrite hasInk_rev. apply dropSpaces_ink.
  intros E. rewrite E in H. now apply H.
Qed.

Lemma sentences_ink (t : str) :
  Forall (fun s => hasInk s = true) (extractOriginalSentences t).
Proof.
  apply Forall_forall. intros s Hs. unfold extractOriginalSentences in Hs.
  apply filter_In in Hs as [Hs _]. apply filter_In in Hs as [Hs Hlen].
  apply in_map_iff in Hs as (x & <- & _). apply trimmed_ink.
  intros E. rewrite E in Hlen. discriminate.
Qed.

Section SummaryInk.

Variable random : nat -> Q.
Variable themes : list (str * nat).
Variable originalTerms : list str.

Lemma summaryStep_ink (state : str * list str) (i : nat) (ts : Scored) :
  hasInk (sentence ts) = true ->
  hasInk (fst state) = true \/ i = 0%nat ->
  hasInk (fst (summaryStep themes originalTerms state i ts)) = true.
Proof.
  intros Hts Hstate. destruct state as [summary usedTerms]. unfold summaryStep.
  set (enhanced :=
         match identifySentenceThemes (sentence ts) themes with
         | [] => (sentence ts, usedTerms)
         | theme :: _ => _
         end).
  assert (hasInk (fst enhanced) = true) as Henh.
  { subst enhanced. destruct (identifySentenceThemes (sentence ts) themes); [exact Hts|].
    destruct (negb _); [|exact Hts]. simpl. now rewrite hasInk_app, Hts. }
  destruct enhanced as [enhancedSentence used]. simpl in Henh. simpl.
  destruct (Nat.eqb_spec i 0) as [->|Hi]; [exact Henh|].
  destruct Hstate as [Hs|Hs]; [|contradiction].
  simpl in Hs. now rewrite hasInk_app, Hs.
Qed.

Lemma summaryLoop_ink (top : list Scored) (state : str * list str) (i : nat) :
  Forall (fun ts => hasInk (sentence ts) = true) top ->
  hasInk (fst state) = true \/ (i = 0%nat /\ top <> []) ->
  hasInk (fst (summaryLoop themes originalTerms state i top)) = true.
Proof.
  revert state i; induction top as [|ts top IH]; intros state i Htop Hstate; simpl.
  - destruct Hstate as [H|[_ H]]; [exact H | now contradiction H].
  - inversion Htop as [|? ? Hts Htop']; subst.
    apply IH; [assumption|]. left.
    apply summaryStep_ink; [assumption|]. destruct Hstate as [H|[H _]]; auto.
Qed.

Lemma appendRemaining_ink (remaining : list str) (summary : str) (i : nat) :
  hasInk summary = true -> hasInk (appendRemaining summary i remaining) = true.
Proof.
  revert summary i; induction remaining as [|s remaining IH]; intros summary i H; simpl.
  - exact H.
  - apply IH. rewrite (hasInk_length _ H). now rewrite hasInk_app, H.
Qed.

Lemma topSentences_ink (originalSentences : list str) :
  Forall (fun s => hasInk s = true) originalSentences ->
  Forall (fun ts => hasInk (sentence ts) = true)
    (sort byIndex
       (firstn (Nat.min 8 (length originalSentences))
          (sort byScore
             (mapi (fun s i => mkScored s (scoreSentenceImportance s themes originalTerms) i)
                originalSentences)))).
Proof.
  intros Hall. apply Forall_forall. intros ts Hts.
  apply In_sort, In_firstn, In_sort in Hts. unfold mapi in Hts.
  apply In_mapi_from in Hts as (s & j & Hs & ->). simpl.
  rewrite Forall_forall in Hall. now apply Hall.
Qed.

Lemma topSentences_nonempty (originalSentences : list str) :
  originalSentences <> [] ->
  sort byIndex
    (firstn (Nat.min 8 (length originalSentences))
       (sort byScore
          (mapi (fun s i => mkScored s (scoreSentenceImportance s themes originalTerms) i)
             originalSentences))) <> [].
Proof.
  intros Hne E. apply (f_equal (@length Scored)) in E.
  rewrite length_sort, length_firstn, length_sort in E.
  unfold mapi in E. rewrite length_mapi_from in E.
  destruct originalSentences; [now apply Hne | simpl in E; lia].
Qed.

(** The summary built on the main path has ink. *)
Lemma createSummary_ink (originalSentences : list str) (n : nat) :
  Forall (fun s => hasInk s = true) originalSentences ->
  hasInk (fst (createSummaryFromOriginalSentences random originalSentences themes
                 originalTerms n)) = true.
Proof.
  intros Hall. unfold createSummaryFromOriginalSentences.
  destruct (Nat.eqb_spec (length originalSentences) 0) as [_|Hlen].
  - vm_compute. reflexivity.
  - assert (originalSentences <> []) as Hne by (intros ->; now apply Hlen).
    pose proof (summaryLoop_ink ([], []) (topSentences_ink Hall)
                  (or_intror (conj eq_refl (topSentences_nonempty Hne)))) as Hloop.
    destruct (summaryLoop themes originalTerms ([], []) 0 _) as [summary usedTerms].
    simpl in Hloop.
    set (remaining := firstn 4 _).
    pose proof (@appendRemaining_ink remaining summary 0%nat Hloop) as Hrem.
    set (summary1 := appendRemaining summary 0%nat remaining) in *.
    match goal with
    | |- context [if ?c then ?a else summary1] =>
        set (summary2 := if c then a else summary1)
    end.
    assert (hasInk summary2 = true) as H2.
    { subst summary2. destruct (_ && _); [|exact Hrem]. now rewrite hasInk_app, Hrem. }
    destruct (_ <? 10)%nat; [|exact H2].
    unfold bind, ret.
    destruct (generateAdditionalContent random themes originalTerms usedTerms n)
      as [additionalContent n'].
    simpl. destruct (0 <? length additionalContent)%nat; [|exact H2].
    now rewrite hasInk_app, H2.
Qed.

End SummaryInk.

Lemma keyPoints_length (originalSentences : list str) (themes : list (str * nat))
    (relationships : list (str * list str)) :
  (5 <= length (extractKeyPointsFromOriginal originalSentences themes relationships)
   <= 8)%nat.
Proof.
  unfold extractKeyPointsFromOriginal, padTo5.
  rewrite length_firstn, length_app, repeat_length. lia.
Qed.

Lemma fallback_ink (t : str) : hasInk (summary (fallbackSummary t)) = true.
Proof.
  unfold fallbackSummary. cbn [summary]. rewrite hasInk_app. apply orb_true_r.
Qed.


(** What [generateAbstractiveSummary] returns, by the outcome of its
    [try] block. *)
Lemma generate_cases (random : nat -> Q) (t : str) (n : nat) :
  match fst (abstractiveBody random t n) with
  | Ok r => fst (generateAbstractiveSummary random t n) = r
  | Throw _ => fst (generateAbstractiveSummary random t n) = fallbackSummary t
  end.
Proof.
  unfold generateAbstractiveSummary, bind.
  destruct (abstractiveBody random t n) as [[r|e] n']; reflexivity.
Qed.

Lemma body_ok (random : nat -> Q) (t : str) (n : nat) (r : AbstractiveSummaryResult) :
  fst (abstractiveBody random t n) = Ok r ->
  hasInk (summary r) = true /\ (5 <= length (keyPoints r) <= 8)%nat /\ method r = hybrid.
Proof.
  unfold abstractiveBody.
  destruct (createDetailedSections _ _ _ _) as [sections|e]; [|discriminate].
  unfold bind, ret.
  pose proof (createSummary_ink random (extractLegalThemes t)
                (preserveOriginalTerms t (extractLegalThemes t)) n (sentences_ink t)) as Hink.
  destruct (createSummaryFromOriginalSentences _ _ _ _ n) as [s n'].
  simpl in *. intros H. injection H as <-. simpl.
  rewrite hasInk_trim. split; [exact Hink|]. split; [apply keyPoints_length | reflexivity].
Qed.

(** Every summary the summarizer returns has ink. *)
Lemma summary_ink (random : nat -> Q) (t : str) (n : nat) :
  hasInk (summary (fst (generateAbstractiveSummary random t n))) = true.
Proof.
  pose proof (generate_cases random t n) as H.
  destruct (fst (abstractiveBody random t n)) as [r|e] eqn:E; rewrite H.
  - now apply (body_ok random t n).
  - apply fallback_ink.
Qed.

Unset Implicit Arguments.

(** The pieces of [t] between sentence ends whose trimmed length is over
    [k]. *)
Definition sentencesOver (k : nat) (t : str) : list str :=
  filter (fun s => (k <? length (trim s))%nat) (split sentenceEnd t).

Lemma generateSectionSummary_ok (sentences relevantTerms : list str) :
  sentences <> [] -> exists c, generateSectionSummary sentences relevantTerms = Ok c.
Proof.
  destruct sentences as [|first more]; [congruence|]. intros _.
  eexists. reflexivity.
Qed.

Lemma createThemeSection_ok (t theme : str) (originalTerms : list str) :
  exists section, createThemeSection t theme originalTerms = Ok section
    /\ (sentencesOver 15 t = [] -> section = None)
    /\ forall sec, section = Some sec -> (length (originalQuotes sec) <= 3)%nat.
Proof.
  unfold createThemeSection. fold (sentencesOver 15 t).
  match goal with
  | |- context [(length ?l =? 0)%nat] => set (themeSentences := l)
  end.
  destruct (Nat.eqb_spec (length themeSentences) 0) as [H0|Hn0].
  - exists None. repeat split; discriminate.
  - match goal with
    | |- context [generateSectionSummary themeSentences ?terms] =>
        destruct (generateSectionSummary_ok themeSentences terms) as [c Hc];
          [now destruct themeSentences | rewrite Hc]
    end.
    eexists. split; [reflexivity|]. split.
    + intros Hnil. subst themeSentences. rewrite Hnil in Hn0. now simpl in Hn0.
    + intros sec Hsec. injection Hsec as <-. cbn [originalQuotes].
      rewrite length_map. exact (firstn_le_length 3 themeSentences).
Qed.

Lemma themeSections_ok (t : str) (themes : list (str * nat)) (originalTerms : list str) :
  exists sections, themeSections t themes originalTerms = Ok sections
    /\ (length sections <= length themes)%nat
    /\ (sentencesOver 15 t = [] -> sections = [])
    /\ Forall (fun sec => (length (originalQuotes sec) <= 3)%nat) sections.
Proof.
  induction themes as [|[theme count] themes IH]; simpl.
  - exists []. repeat split; auto.
  - destruct IH as (sections & E & Hlen & Hnil & Hq).
    destruct (0 <? count)%nat.
    + destruct (createThemeSection_ok t theme originalTerms)
        as (section & Es & Hnone & Hsec).
      rewrite Es, E. destruct section as [sec|].
      * exists (sec :: sections). split; [reflexivity|]. split; [simpl; lia|]. split.
        -- intros H. now specialize (Hnone H).
        -- constructor; [now apply Hsec | exact Hq].
      * exists sections. repeat split; auto.
    + exists sections. repeat split; auto.
Qed.

Lemma sentencesOver_mono (j k : nat) (t : str) :
  (j <= k)%nat -> sentencesOver j t = [] -> sentencesOver k t = [].
Proof.
  unfold sentencesOver. intros Hjk. induction (split sentenceEnd t) as [|s l IH]; simpl.
  - reflexivity.
  - destruct (Nat.ltb_spec j (length (trim s))); [discriminate|].
    destruct (Nat.ltb_spec k (length (trim s))); [lia|]. exact IH.
Qed.

Lemma extractLegalThemes_length (t : str) : (length (extractLegalThemes t) <= 7)%nat.
Proof.
  unfold extractLegalThemes.
  match goal with
  | |- (length (concat (map ?f legalPatterns)) <= 7)%nat =>
      assert (forall l, length (concat (map f l)) <= length l)%nat as H
  end.
  { induction l as [|[theme patterns] l IH]; simpl; [lia|].
    rewrite length_app.
    match goal with |- context [if ?b then _ else _] => destruct b end; simpl; lia. }
  apply (H legalPatterns).
Qed.

Lemma byImportance_total (a b : DetailedSection) :
  byImportance a b = false -> byImportance b a = true.
Proof. unfold byImportance. intros H. apply Z.leb_gt in H. apply Z.leb_le. lia. Qed.

(** The detailed sections of a document: when they can be built at all,
    and what they look like. *)
Lemma createDetailedSections_cases (t : str) (themes : list (str * nat))
    (relationships : list (str * list str)) (originalTerms : list str) :
  match createDetailedSections t themes relationships originalTerms with
  | Throw e =>
      e = TypeError /\ sentencesOver 15 t = [] /\ originalTerms <> []
  | Ok sections =>
      (sentencesOver 15 t = [] -> originalTerms = [])
      /\ sections <> []
      /\ (length sections <= Nat.max 1 (length themes))%nat
      /\ Sorted (fun a b => (importanceOrder (importance b)
                             <= importanceOrder (importance a))%Z) sections
      /\ Forall (fun sec => (length (originalQuotes sec) <= 3)%nat) sections
  end.
Proof.
  unfold createDetailedSections.
  destruct (themeSections_ok t themes originalTerms) as (sections & E & Hlen & Hnil & Hq).
  rewrite E.
  assert (forall l : list DetailedSection,
            Sorted (fun a b => (importanceOrder (importance b)
                                <= importanceOrder (importance a))%Z)
              (sort byImportance l)) as Hsorted.
  { intros l. apply ClassifierProps.Sorted_weaken
      with (R := fun a b => byImportance a b = true).
    - intros a b Hab. unfold byImportance in Hab. apply Z.leb_le in Hab. lia.
    - apply sort_sorted, byImportance_total. }
  destruct sections as [|sec sections].
  - change ((length (@nil DetailedSection) =? 0)%nat) with true. cbv iota.
    unfold createGeneralSection. fold (sentencesOver 15 t).
    unfold generateSectionSummary.
    destruct (firstn 5 (sentencesOver 15 t)) as [|first more] eqn:E5.
    + assert (sentencesOver 15 t = []) as Hs
        by (destruct (sentencesOver 15 t); [reflexivity | discriminate]).
      destruct originalTerms as [|term terms]; simpl firstn; cbv iota.
      * split; [now intros _|]. split; [discriminate|].
        split; [rewrite length_sort; cbn [length]; lia|].
        split; [apply Hsorted|]. repeat constructor.
      * split; [reflexivity|]. split; [exact Hs | discriminate].
    + split.
      { intros Hs. rewrite Hs in E5. discriminate. }
      split; [discriminate|]. split; [rewrite length_sort; cbn [length]; lia|].
      split; [apply Hsorted|].
      constructor; [|constructor]. cbn [originalQuotes].
      rewrite length_map. apply firstn_le_length.
  - change ((length (sec :: sections) =? 0)%nat) with false. cbv iota.
    split.
    { intros Hs. specialize (Hnil Hs). discriminate. }
    split.
    { intros Hs. apply (f_equal (@length _)) in Hs.
      rewrite length_sort in Hs. discriminate. }
    split; [rewrite length_sort; lia|]. split; [apply Hsorted|].
    rewrite Forall_forall in *. intros x Hx. apply Hq. now apply In_sort in Hx.
Qed.

Lemma body_cases (random : nat -> Q) (t : str) (n : nat) :
  let originalTerms := preserveOriginalTerms t (extractLegalThemes t) in
  match fst (abstractiveBody random t n) with
  | Throw e =>
      e = TypeError /\ sentencesOver 15 t = [] /\ originalTerms <> []
  | Ok r =>
      (sentencesOver 15 t = [] -> originalTerms = [])
      /\ method r = hybrid
      /\ confidence r = calculateConfidence (extractLegalThemes t)
                          (extractOriginalSentences t)
      /\ originalTermsPreserved r = originalTerms
      /\ createDetailedSections t (extractLegalThemes t) (identifyRelationships t)
           originalTerms = Ok (detailedSections r)
  end.
Proof.
  intros originalTerms. unfold abstractiveBody. fold originalTerms.
  pose proof (createDetailedSections_cases t (extractLegalThemes t)
                (identifyRelationships t) originalTerms) as H.
  destruct (createDetailedSections t (extractLegalThemes t) (identifyRelationships t)
              originalTerms) as [sections|e].
  - unfold bind, ret.
    destruct (createSummaryFromOriginalSentences random (extractOriginalSentences t)
                (extractLegalThemes t) originalTerms n) as [s n'].
    cbn [fst method confidence originalTermsPreserved detailedSections].
    destruct H as (H & _). repeat split. exact H.
  - exact H.
Qed.

Set Implicit Arguments.



(** A text on which the fallback has something to take: four sentences
    of more than 20 characters. *)
Definition fourSentences : str :=
  lit "First sentence is quite long here. Second sentence is also long enough! Third one is long enough as well? Fourth sentence will be left out.".

(** The fallback takes the first three sentences as they are between the
    sentence ends, the leading blank included, and trims the key points. *)
Lemma fallbackSummary_fourSentences :
  fallbackSummary fourSentences
  = mkSummaryResult
      (lit "First sentence is quite long here.  Second sentence is also long enough.  Third one is long enough as well.")
      [ lit "First sentence is quite long here";
        lit "Second sentence is also long enough";
        lit "Third one is long enough as well" ]
      (6 # 10) rule_based [] [].
Proof. vm_compute. reflexivity. Qed.



End SummarizerProps.

(** ** The multilingual summarizer *)

Module MultilingualProps.
Import Regex Multilingual Examples.

Unset Implicit Arguments.

(** The translator call made for one text: none for a blank text. *)
Definition callOf (x langCode : str) : list Call :=
  if isBlank x then [] else [(x, langCode)].

(** The translator calls made for one language: none for English, else
    one for the summary and one for each key point, in this order. *)
Definition callsFor (englishSummary : str) (keyPoints : list str) (langCode : str)
  : list Call :=
  if str_eqb langCode (lit "en") then []
  else flat_map (fun x => callOf x langCode) (englishSummary :: keyPoints).

Section WithTranslator.

Variable translateText : list Call -> str -> str -> Result str.
Variable getLanguageName : str -> str.

(** What [translateWithFallback] returns when the calls made before are
    [log]. *)
Definition outcome (log : list Call) (x langCode : str) : str :=
  if isBlank x then []
  else match translateText log x langCode with
       | Ok result => result
       | Throw _ => unavailable (getLanguageName langCode) x
       end.

Fixpoint pointsOutcome (log : list Call) (keyPoints : list str) (langCode : str)
  : list str :=
  match keyPoints with
  | [] => []
  | point :: rest =>
      outcome log point langCode
      :: pointsOutcome (log ++ callOf point langCode) rest langCode
  end.

Lemma translateWithFallback_spec (x langCode : str) (log : list Call) :
  str_eqb langCode (lit "en") = false ->
  translateWithFallback translateText getLanguageName x langCode log
  = (outcome log x langCode, log ++ callOf x langCode).
Proof.
  intros Hen. unfold translateWithFallback, outcome, callOf.
  destruct (isBlank x).
  - unfold ret. now rewrite app_nil_r.
  - rewrite Hen. unfold bind, callTranslator, ret.
    destruct (translateText log x langCode); reflexivity.
Qed.

Lemma mapT_points (keyPoints : list str) (langCode : str) (log : list Call) :
  str_eqb langCode (lit "en") = false ->
  mapT (fun point => translateWithFallback translateText getLanguageName point langCode)
    keyPoints log
  = (pointsOutcome log keyPoints langCode,
     log ++ flat_map (fun x => callOf x langCode) keyPoints).
Proof.
  intros Hen. revert log; induction keyPoints as [|point rest IH]; intros log; simpl.
  - unfold ret. now rewrite app_nil_r.
  - unfold bind at 1. rewrite (translateWithFallback_spec point langCode log Hen).
    unfold bind at 1. rewrite IH. unfold ret. now rewrite app_assoc.
Qed.

Lemma pointsOutcome_nth (keyPoints : list str) (langCode : str) (log : list Call)
    (j : nat) (point : str) :
  nth_error keyPoints j = Some point ->
  nth_error (pointsOutcome log keyPoints langCode) j
  = Some (outcome (log ++ flat_map (fun x => callOf x langCode) (firstn j keyPoints))
            point langCode).
Proof.
  revert log j; induction keyPoints as [|p rest IH]; intros log [|j] H; simpl in *;
    try discriminate.
  - injection H as ->. now rewrite app_nil_r.
  - rewrite (IH _ _ H). now rewrite app_assoc.
Qed.

Lemma summaryFor_spec (t englishSummary : str) (keyPoints : list str) (langCode : str)
    (log : list Call) :
  let out :=
    summaryFor translateText getLanguageName t englishSummary keyPoints langCode log in
  snd out = log ++ callsFor englishSummary keyPoints langCode
  /\ languageCode (fst out) = langCode
  /\ (str_eqb langCode (lit "en") = false ->
      summary (fst out) = outcome log englishSummary langCode
      /\ Multilingual.keyPoints (fst out)
         = pointsOutcome (log ++ callOf englishSummary langCode) keyPoints langCode).
Proof.
  intros out. subst out. unfold callsFor.
  destruct (str_eqb langCode (lit "en")) eqn:Hen.
  - unfold summaryFor. rewrite Hen. unfold bind, ret. simpl. rewrite app_nil_r.
    repeat split; discriminate.
  - assert (exists sr,
              summaryFor translateText getLanguageName t englishSummary keyPoints
                langCode log
              = (sr, (log ++ callOf englishSummary langCode)
                     ++ flat_map (fun x => callOf x langCode) keyPoints)
              /\ languageCode sr = langCode
              /\ summary sr = outcome log englishSummary langCode
              /\ Multilingual.keyPoints sr
                 = pointsOutcome (log ++ callOf englishSummary langCode) keyPoints
                     langCode) as (sr & E & Hcode & Hsum & Hpoints).
    { unfold summaryFor. rewrite Hen. unfold bind.
      rewrite (translateWithFallback_spec englishSummary langCode log Hen).
      rewrite (mapT_points keyPoints langCode _ Hen).
      unfold ret. eexists. split; [reflexivity|]. repeat split. }
    rewrite E. simpl. rewrite <- app_assoc. repeat split; assumption.
Qed.

Lemma summariesFor_spec (t englishSummary : str) (keyPoints languages : list str)
    (log : list Call) :
  exists srs,
    summariesFor translateText getLanguageName t englishSummary keyPoints languages log
    = (srs, log ++ flat_map (callsFor englishSummary keyPoints) languages)
    /\ map languageCode srs = languages
    /\ forall before langCode rest,
         languages = before ++ langCode :: rest ->
         nth_error srs (length before)
         = Some (fst (summaryFor translateText getLanguageName t englishSummary
                        keyPoints langCode
                        (log ++ flat_map (callsFor englishSummary keyPoints) before))).
Proof.
  unfold summariesFor. revert log; induction languages as [|lc languages IH];
    intros log.
  - exists []. simpl. unfold ret. rewrite app_nil_r. repeat split.
    intros [|? ?] ? ? H; discriminate.
  - destruct (summaryFor_spec t englishSummary keyPoints lc log) as (Hlog & Hcode & _).
    destruct (summaryFor translateText getLanguageName t englishSummary keyPoints lc log)
      as [sr log1] eqn:Efor.
    simpl in Hlog, Hcode.
    destruct (IH log1) as (srs & E & Hcodes & Hnth).
    exists (sr :: srs). split; [|split].
    + simpl. unfold bind. rewrite Efor, E. unfold ret.
      now rewrite Hlog, app_assoc.
    + simpl. now rewrite Hcode, Hcodes.
    + intros [|lc' before] langCode rest H; simpl in H; injection H as -> ->; simpl.
      * now rewrite app_nil_r, Efor.
      * rewrite (Hnth before langCode rest eq_refl), Hlog. now rewrite app_assoc.
Qed.

Lemma ink_not_blank (s : str) : SummarizerProps.hasInk s = true -> isBlank s = false.
Proof.
  intros H. unfold isBlank. rewrite <- SummarizerProps.hasInk_trim in H.
  destruct (trim s); [discriminate | reflexivity].
Qed.

(** The warning put in front of a text that could not be translated to
    the language called [languageName], as the response shows it: the
    notice in square brackets and an empty line. *)
Definition warning (languageName : str) : str :=
  lit "[Translation service temporarily unavailable for " ++ languageName ++ lit "]"
  ++ [ascii_of_nat 10; ascii_of_nat 10].

(** C9: a translation that fails is neither tried again nor fatal to the
    batch. For a text that passes validation and a list of languages that
    is not empty, the call returns one summary per requested language, in
    order; the translator has been called once for each non-English
    language and each text (the summary, then each key point) and never
    twice; and where the translator threw, the output for that summary or
    key point is the English text behind the warning
    "[Translation service temporarily unavailable for <language>]" and an
    empty line. *)
Theorem translation_failure_is_local (random : nat -> Q) (t : str)
    (languages : list str) (draws : nat) (log : list Call) :
  isBlank t = false -> (50 <= length t)%nat -> languages <> [] ->
  let english := fst (Summarizer.generateAbstractiveSummary random t draws) in
  let englishSummary := Summarizer.summary english in
  let keyPoints := Summarizer.keyPoints english in
  let out :=
    generateMultilingualSummary translateText getLanguageName random t languages
      draws log in
  exists ms,
    fst out = Ok ms
    /\ map languageCode (summaries ms) = languages
    /\ snd out = log ++ flat_map (callsFor englishSummary keyPoints) languages
    /\ forall before langCode rest,
         languages = before ++ langCode :: rest ->
         str_eqb langCode (lit "en") = false ->
         let log0 := log ++ flat_map (callsFor englishSummary keyPoints) before in
         exists sr,
           nth_error (summaries ms) (length before) = Some sr
           /\ (forall e,
                 translateText log0 englishSummary langCode = Throw e ->
                 summary sr = warning (getLanguageName langCode) ++ englishSummary)
           /\ (forall j point e,
                 nth_error keyPoints j = Some point -> isBlank point = false ->
                 translateText
                   (log0 ++ callsFor englishSummary (firstn j keyPoints) langCode)
                   point langCode = Throw e ->
                 nth_error (Multilingual.keyPoints sr) j
                 = Some (warning (getLanguageName langCode) ++ point)).
Proof.
  intros Hblank Hlen Hlangs english englishSummary keyPoints out.
  subst out. unfold generateMultilingualSummary. rewrite Hblank.
  destruct (Nat.ltb_spec (length t) 50) as [|_]; [lia|].
  fold english. fold englishSummary. fold keyPoints.
  destruct (summariesFor_spec t englishSummary keyPoints languages log)
    as (srs & E & Hcodes & Hnth).
  unfold bind. rewrite E.
  assert (length srs <> 0%nat) as Hsrs.
  { rewrite <- (length_map languageCode), Hcodes. destruct languages; [congruence | discriminate]. }
  destruct (Nat.eqb_spec (length srs) 0) as [|_]; [contradiction|].
  unfold ret. cbn [fst snd]. exists (mkMultilingual srs). cbn [summaries].
  split; [reflexivity|]. split; [assumption|]. split; [reflexivity|].
  intros before langCode rest Hsplit Hen.
  set (log0 := log ++ flat_map (callsFor englishSummary keyPoints) before).
  eexists. split; [exact (Hnth before langCode rest Hsplit)|].
  destruct (summaryFor_spec t englishSummary keyPoints langCode log0) as (_ & _ & Hout).
  destruct (Hout Hen) as [Hsum Hpoints]. fold log0.
  assert (isBlank englishSummary = false) as Hes
    by (apply ink_not_blank, SummarizerProps.summary_ink).
  split.
  - intros e He. rewrite Hsum. unfold outcome. rewrite Hes, He.
    unfold unavailable, warning. now rewrite <- !app_assoc.
  - intros j point e Hj Hpoint He. rewrite Hpoints.
    rewrite (pointsOutcome_nth keyPoints langCode _ j point Hj). f_equal.
    unfold callsFor in He. rewrite Hen in He. cbn [flat_map] in He.
    unfold callOf at 1 in He. rewrite Hes in He.
    unfold outcome. rewrite Hpoint.
    unfold callOf at 1. rewrite Hes. rewrite <- app_assoc.
    rewrite He. unfold unavailable, warning. now rewrite <- !app_assoc.
Qed.

End WithTranslator.

Lemma translation_failure_is_local_witness :
  let languages := [lit "en"; lit "hi"; lit "te"] in
  let englishSummary :=
    Summarizer.summary
      (fst (Summarizer.generateAbstractiveSummary noDraws contractDocument 0%nat)) in
  let out :=
    generateMultilingualSummary hindiDown codeAsName noDraws contractDocument languages
      0%nat [] in
  isBlank contractDocument = false
  /\ (50 <= length contractDocument)%nat
  /\ languages <> []
  /\ exists ms hindi,
       fst out = Ok ms
       /\ map languageCode (summaries ms) = languages
       /\ nth_error (summaries ms) 1 = Some hindi
       /\ summary hindi
          = lit "[Translation service temporarily unavailable for hi]"
            ++ [ascii_of_nat 10; ascii_of_nat 10] ++ englishSummary.
Proof.
  intros languages englishSummary out.
  assert (isBlank contractDocument = false) as Hb by (vm_compute; reflexivity).
  assert (50 <= length contractDocument)%nat as Hl by (vm_compute; repeat constructor).
  assert (languages <> []) as Hn by discriminate.
  split; [exact Hb|]. split; [exact Hl|]. split; [exact Hn|].
  destruct (translation_failure_is_local hindiDown codeAsName noDraws contractDocument
              languages 0%nat [] Hb Hl Hn) as (ms & Hok & Hcodes & _ & Hentry).
  destruct (Hentry [lit "en"] (lit "hi") [lit "te"] eq_refl eq_refl)
    as (hindi & Hnth & Hsummary & _).
  exists ms, hindi. split; [exact Hok|]. split; [exact Hcodes|].
  split; [exact Hnth|].
  exact (Hsummary (Failure (lit "service down")) eq_refl).
Defined.

End MultilingualProps.

(** * Further properties *)

Unset Implicit Arguments.
From Stdlib Require DecimalNat.


(** ** More list facts *)

Section MoreListFacts.

Variable X : Type.

Lemma filter_length_perm (p : X -> bool) (l l' : list X) :
  Permutation l l' -> length (filter p l) = length (filter p l').
Proof.
  induction 1 as [|x l l' _ IH|x y l|l l' l'' _ IH1 _ IH2]; simpl.
  - reflexivity.
  - destruct (p x); simpl; now rewrite IH.
  - destruct (p x), (p y); reflexivity.
  - now rewrite IH1.
Qed.

Lemma filter_length_le (p : X -> bool) (l : list X) :
  (length (filter p l) <= length l)%nat.
Proof. induction l as [|x l IH]; simpl; [lia|]. destruct (p x); simpl; lia. Qed.

Lemma filter_all (p : X -> bool) (l : list X) :
  Forall (fun x => p x = true) l -> filter p l = l.
Proof. induction 1 as [|x l Hx _ IH]; simpl; [reflexivity|]. now rewrite Hx, IH. Qed.

Lemma filter_none (p : X -> bool) (l : list X) :
  Forall (fun x => p x = false) l -> filter p l = [].
Proof. induction 1 as [|x l Hx _ IH]; simpl; [reflexivity|]. now rewrite Hx. Qed.

Lemma Forall_mapi_from (Y : Type) (P : Y -> Prop) (f : X -> nat -> Y) (l : list X)
    (i : nat) :
  (forall x j, P (f x j)) -> Forall P (mapi_from i f l).
Proof.
  intros Hf. revert i; induction l as [|x l IH]; intros i; simpl; constructor; auto.
Qed.

Lemma Forall_concat (P : X -> Prop) (ls : list (list X)) :
  Forall (Forall P) ls -> Forall P (concat ls).
Proof.
  induction 1 as [|l ls Hl _ IH]; simpl; [constructor|]. apply Forall_app. auto.
Qed.

Lemma NoDup_firstn (n : nat) (l : list X) : NoDup l -> NoDup (firstn n l).
Proof.
  intros H; revert n; induction H as [|x l Hx _ IH]; intros [|n]; simpl;
    try constructor.
  - intros Hin. apply Hx. revert Hin. apply In_firstn.
  - apply IH.
Qed.

End MoreListFacts.

Section UniqFacts.

Lemma has_In (seen : list str) (x : str) :
  existsb (str_eqb x) seen = true <-> In x seen.
Proof.
  rewrite existsb_exists. split.
  - intros (y & Hy & E). apply str_eqb_eq in E. now subst.
  - intros H. exists x. split; [assumption | now apply str_eqb_eq].
Qed.

Lemma uniq_In (l seen : list str) (x : str) :
  In x (uniq seen l) <-> In x l /\ ~ In x seen.
Proof.
  revert seen; induction l as [|y l IH]; intros seen; simpl; [tauto|].
  destruct (existsb (str_eqb y) seen) eqn:E.
  - apply has_In in E. rewrite IH. intuition (subst; try tauto; auto).
  - assert (~ In y seen) as Hy by (rewrite <- has_In, E; discriminate).
    simpl. rewrite IH. simpl.
    destruct (list_eq_dec ascii_dec y x) as [->|Hne]; intuition (subst; try tauto; auto).
Qed.

Lemma uniq_NoDup (l seen : list str) : NoDup (uniq seen l).
Proof.
  revert seen; induction l as [|y l IH]; intros seen; simpl; [constructor|].
  destruct (existsb (str_eqb y) seen); [apply IH|].
  constructor; [|apply IH]. rewrite uniq_In. simpl. tauto.
Qed.

Lemma uniq_length (l seen : list str) : (length (uniq seen l) <= length l)%nat.
Proof.
  revert seen; induction l as [|y l IH]; intros seen; simpl; [lia|].
  destruct (existsb (str_eqb y) seen); simpl.
  - specialize (IH seen). lia.
  - specialize (IH (y :: seen)). lia.
Qed.

End UniqFacts.

(** ** More on the risk assessment engine *)

Module RiskEngineExtra.
Import Classifier RiskEngine Examples RiskEngineProps.

Definition sev_eqb (a b : Severity) : bool :=
  match a, b with
  | sev_critical, sev_critical | sev_high, sev_high
  | sev_medium, sev_medium | sev_low, sev_low => true
  | _, _ => false
  end.

(** How many factors of a list have the severity [s]. *)
Definition countSeverity (s : Severity) (fs : list RiskFactor) : nat :=
  length (filter (fun f => sev_eqb (severity f) s) fs).

(** The cost-risk tiers, from the mildest up. *)
Definition costRank (c : CostRisk) : Z :=
  match c with
  | cost_low => 1
  | cost_medium => 2
  | cost_high => 3
  | cost_critical => 4
  end.

Definition hasForceMajeure (lowerText : str) : bool :=
  includes lowerText (lit "force majeure") || includes lowerText (lit "act of god").

Definition hasDisputeResolution (lowerText : str) : bool :=
  includes lowerText (lit "arbitration") || includes lowerText (lit "mediation")
  || includes lowerText (lit "dispute resolution").

Definition highClause (ty : ClauseType) (c : Q) : ClauseMatch :=
  mkClause ty (lit "x") c 0 1 high (generateExplanation ty high).

Definition lowClause (ty : ClauseType) (c : Q) : ClauseMatch :=
  mkClause ty (lit "x") c 0 1 low (generateExplanation ty low).

Lemma sev_eqb_eq (a b : Severity) : sev_eqb a b = true <-> a = b.
Proof. destruct a, b; simpl; split; intros H; try reflexivity; discriminate. Qed.

Lemma countSeverity_app (s : Severity) (a b : list RiskFactor) :
  countSeverity s (a ++ b) = (countSeverity s a + countSeverity s b)%nat.
Proof. unfold countSeverity. now rewrite filter_app, length_app. Qed.

Lemma countSeverity_uniform (s s' : Severity) (fs : list RiskFactor) :
  Forall (fun f => severity f = s') fs ->
  countSeverity s fs = if sev_eqb s' s then length fs else 0%nat.
Proof.
  intros H. unfold countSeverity. destruct (sev_eqb s' s) eqn:E.
  - rewrite filter_all; [reflexivity|].
    eapply Forall_impl; [|exact H]. intros f Hf. simpl in Hf. now rewrite Hf.
  - rewrite filter_none; [reflexivity|].
    eapply Forall_impl; [|exact H]. intros f Hf. simpl in Hf. now rewrite Hf.
Qed.

Lemma concat_mapi_length (X Y : Type) (f : X -> nat -> list Y) (b : X -> bool)
    (l : list X) (i : nat) :
  (forall x j, length (f x j) = if b x then 1%nat else 0%nat) ->
  length (concat (mapi_from i f l)) = length (filter b l).
Proof.
  intros Hf. revert i; induction l as [|x l IH]; intros i; simpl; [reflexivity|].
  rewrite length_app, Hf, IH. destruct (b x); reflexivity.
Qed.

Lemma criticalFactors_severity (result : ClassificationResult) (lowerText : str) :
  Forall (fun f => severity f = sev_critical) (criticalFactors result lowerText).
Proof.
  unfold criticalFactors, mapi. apply Forall_concat. apply Forall_mapi_from.
  intros pattern j. destruct (includes lowerText pattern); repeat constructor.
Qed.

Lemma criticalFactors_length (result : ClassificationResult) (lowerText : str) :
  length (criticalFactors result lowerText)
  = length (filter (includes lowerText) CRITICAL_PATTERNS).
Proof.
  unfold criticalFactors, mapi. apply concat_mapi_length.
  intros pattern j. destruct (includes lowerText pattern); reflexivity.
Qed.

Lemma highRiskFactors_severity (result : ClassificationResult) :
  Forall (fun f => severity f = sev_high) (highRiskFactors result).
Proof. unfold highRiskFactors, mapi. apply Forall_mapi_from. reflexivity. Qed.

Lemma highRiskFactors_length (result : ClassificationResult) :
  length (highRiskFactors result) = countLevel high (clauses result).
Proof. unfold highRiskFactors, mapi. now rewrite length_mapi_from. Qed.

Lemma missingFactors_severity (result : ClassificationResult) (documentText : str) :
  Forall (fun f => severity f = sev_medium) (missingFactors result documentText).
Proof. unfold missingFactors, mapi. apply Forall_mapi_from. reflexivity. Qed.

Lemma missingFactors_length (result : ClassificationResult) (documentText : str) :
  length (missingFactors result documentText)
  = length (identifyMissingProtections result documentText).
Proof. unfold missingFactors, mapi. now rewrite length_mapi_from. Qed.

Lemma missingProtections_length (result : ClassificationResult) (documentText : str) :
  length (identifyMissingProtections result documentText)
  = ((if hasForceMajeure (toLowerCase documentText) then 0 else 1)
     + (if hasDisputeResolution (toLowerCase documentText) then 0 else 1))%nat.
Proof.
  unfold identifyMissingProtections, hasForceMajeure, hasDisputeResolution.
  set (lowerText := toLowerCase documentText).
  destruct (includes lowerText (lit "force majeure")),
    (includes lowerText (lit "act of god")),
    (includes lowerText (lit "arbitration")),
    (includes lowerText (lit "mediation")),
    (includes lowerText (lit "dispute resolution")); reflexivity.
Qed.

Lemma countSeverity_factors (s : Severity) (result : ClassificationResult)
    (documentText : str) :
  countSeverity s (identifyRiskFactors result documentText)
  = ((if sev_eqb sev_critical s
      then length (filter (includes (toLowerCase documentText)) CRITICAL_PATTERNS)
      else 0)
     + (if sev_eqb sev_high s then countLevel high (clauses result) else 0)
     + (if sev_eqb sev_medium s
        then length (identifyMissingProtections result documentText)
        else 0))%nat.
Proof.
  unfold identifyRiskFactors, countSeverity at 1.
  rewrite (filter_length_perm _ _ _ _ (sort_perm bySeverity _)).
  fold (countSeverity s
          (criticalFactors result (toLowerCase documentText)
           ++ highRiskFactors result ++ missingFactors result documentText)).
  rewrite !countSeverity_app.
  rewrite (countSeverity_uniform s sev_critical _ (criticalFactors_severity _ _)).
  rewrite (countSeverity_uniform s sev_high _ (highRiskFactors_severity _)).
  rewrite (countSeverity_uniform s sev_medium _ (missingFactors_severity _ _)).
  rewrite criticalFactors_length, highRiskFactors_length, missingFactors_length.
  lia.
Qed.

(** X1: the risk factors of an assessment are one critical factor for
    each critical phrase the document contains, one high factor for each
    high-risk clause and one medium factor for each protection that is
    missing, and nothing else: no factor has severity low, and there are at
    most 7 critical and 2 medium ones. *)
Theorem risk_factor_census (result : ClassificationResult) (documentText : str) :
  let fs := riskFactors (assessRisk result documentText) in
  countSeverity sev_critical fs
  = length (filter (includes (toLowerCase documentText)) CRITICAL_PATTERNS)
  /\ countSeverity sev_high fs = countLevel high (clauses result)
  /\ countSeverity sev_medium fs
     = ((if hasForceMajeure (toLowerCase documentText) then 0 else 1)
        + (if hasDisputeResolution (toLowerCase documentText) then 0 else 1))%nat
  /\ countSeverity sev_low fs = 0%nat
  /\ (countSeverity sev_critical fs <= 7)%nat
  /\ length fs
     = (countSeverity sev_critical fs + countSeverity sev_high fs
        + countSeverity sev_medium fs)%nat.
Proof.
  intros fs. subst fs.
  change (riskFactors (assessRisk result documentText))
    with (identifyRiskFactors result documentText).
  rewrite !countSeverity_factors. simpl sev_eqb. cbv iota.
  rewrite missingProtections_length.
  pose proof (filter_length_le _ (includes (toLowerCase documentText)) CRITICAL_PATTERNS)
    as Hle.
  change (length CRITICAL_PATTERNS) with 7%nat in Hle.
  repeat split; try lia.
  unfold identifyRiskFactors. rewrite length_sort, !length_app.
  rewrite criticalFactors_length, highRiskFactors_length, missingFactors_length,
    missingProtections_length. lia.
Qed.

Lemma factors_empty_iff (result : ClassificationResult) (documentText : str) :
  identifyRiskFactors result documentText = []
  <-> length (identifyRiskFactors result documentText) = 0%nat.
Proof. destruct (identifyRiskFactors result documentText); simpl; split; congruence. Qed.

(** X2: an assessment has no risk factor at all exactly when the document
    contains none of the critical phrases, no clause is high-risk, and the
    text mentions force majeure (or act of god) and a way to settle
    disputes (arbitration, mediation or dispute resolution). *)
Theorem no_risk_factor_iff (result : ClassificationResult) (documentText : str) :
  let lowerText := toLowerCase documentText in
  riskFactors (assessRisk result documentText) = []
  <-> filter (includes lowerText) CRITICAL_PATTERNS = []
      /\ countLevel high (clauses result) = 0%nat
      /\ hasForceMajeure lowerText = true
      /\ hasDisputeResolution lowerText = true.
Proof.
  intros lowerText.
  change (riskFactors (assessRisk result documentText))
    with (identifyRiskFactors result documentText).
  rewrite factors_empty_iff. unfold identifyRiskFactors.
  rewrite length_sort, !length_app.
  rewrite criticalFactors_length, highRiskFactors_length, missingFactors_length,
    missingProtections_length.
  fold lowerText.
  destruct (filter (includes lowerText) CRITICAL_PATTERNS) as [|p ps];
    destruct (hasForceMajeure lowerText), (hasDisputeResolution lowerText);
    simpl; split; intros H; try lia; try (repeat split; (lia || reflexivity));
    try (destruct H as (H1 & H2 & H3 & H4); (discriminate || lia)).
Qed.

Lemma uniq_nil_iff (l : list str) : uniq [] l = [] <-> l = [].
Proof.
  destruct l as [|x l]; simpl; [tauto|]. split; discriminate.
Qed.

Lemma filter_nil_length (X : Type) (p : X -> bool) (l : list X) :
  filter p l = [] <-> length (filter p l) = 0%nat.
Proof. destruct (filter p l); simpl; split; congruence. Qed.

Lemma count_isMedium (fs : list RiskFactor) :
  length (filter isMedium fs) = countSeverity sev_medium fs.
Proof.
  unfold countSeverity. induction fs as [|f fs IH]; simpl; [reflexivity|].
  unfold isMedium at 1. destruct (severity f); simpl; now rewrite IH.
Qed.

Lemma count_isCriticalOrHigh (fs : list RiskFactor) :
  length (filter isCriticalOrHigh fs)
  = (countSeverity sev_critical fs + countSeverity sev_high fs)%nat.
Proof.
  unfold countSeverity. induction fs as [|f fs IH]; simpl; [reflexivity|].
  unfold isCriticalOrHigh at 1. destruct (severity f); simpl; rewrite IH; lia.
Qed.

(** X3: the recommendation buckets of an assessment: "immediate" holds,
    without repetition, exactly the recommendations of the critical and high
    factors, and is empty exactly when the document has no critical phrase
    and no high-risk clause; "shortTerm" has no repetition and at most two
    entries; "longTerm" is always the same three statements. *)
Theorem recommendation_buckets (result : ClassificationResult) (documentText : str) :
  let a := assessRisk result documentText in
  NoDup (immediate (recommendations a))
  /\ (forall s,
        In s (immediate (recommendations a))
        <-> exists f, In f (riskFactors a) /\ isCriticalOrHigh f = true
                      /\ recommendation f = s)
  /\ (immediate (recommendations a) = []
      <-> filter (includes (toLowerCase documentText)) CRITICAL_PATTERNS = []
          /\ countLevel high (clauses result) = 0%nat)
  /\ NoDup (shortTerm (recommendations a))
  /\ (length (shortTerm (recommendations a)) <= 2)%nat
  /\ longTerm (recommendations a)
     = [ lit "Establish regular contract review process with legal counsel.";
         lit "Create standardized contract templates with protective clauses.";
         lit "Implement contract management system for tracking key dates and obligations." ].
Proof.
  intros a. subst a.
  change (recommendations (assessRisk result documentText))
    with (generateRecommendations (identifyRiskFactors result documentText) result).
  change (riskFactors (assessRisk result documentText))
    with (identifyRiskFactors result documentText).
  unfold generateRecommendations. cbn [immediate shortTerm longTerm].
  set (fs := identifyRiskFactors result documentText).
  split; [apply uniq_NoDup|]. split.
  { intros s. rewrite uniq_In, in_map_iff. split.
    - intros [(f & Hs & Hf) _]. apply filter_In in Hf as [Hf Hc]. eauto.
    - intros (f & Hf & Hc & Hs). split; [|intros []].
      exists f. split; [assumption|]. apply filter_In. auto. }
  split.
  { rewrite uniq_nil_iff. split.
    - intros H. apply (f_equal (@length str)) in H.
      rewrite length_map, count_isCriticalOrHigh in H. subst fs.
      rewrite !countSeverity_factors in H. simpl sev_eqb in H. cbv iota in H.
      change (length (@nil str)) with 0%nat in H.
      split; [apply filter_nil_length|]; lia.
    - intros [H1 H2].
      assert (length (filter isCriticalOrHigh fs) = 0%nat) as H.
      { rewrite count_isCriticalOrHigh. subst fs.
        rewrite !countSeverity_factors. simpl sev_eqb. cbv iota.
        rewrite H1, H2. reflexivity. }
      destruct (filter isCriticalOrHigh fs); [reflexivity | discriminate]. }
  split; [apply uniq_NoDup|]. split; [|reflexivity].
  pose proof (uniq_length (map recommendation (filter isMedium fs)) []) as Hle.
  rewrite length_map, count_isMedium in Hle. subst fs.
  rewrite countSeverity_factors in Hle. simpl sev_eqb in Hle. cbv iota in Hle.
  rewrite missingProtections_length in Hle.
  destruct (hasForceMajeure _), (hasDisputeResolution _); simpl in Hle; lia.
Qed.

Lemma Forall_concat_map (X Y : Type) (P : Y -> Prop) (f : X -> list Y) (l : list X) :
  (forall x, In x l -> Forall P (f x)) -> Forall P (concat (map f l)).
Proof.
  intros H. apply Forall_concat. apply Forall_forall. intros ys Hys.
  apply in_map_iff in Hys as (x & <- & Hx). auto.
Qed.

Lemma concat_map_length_le (X Y : Type) (f : X -> list Y) (l : list X) :
  (forall x, (length (f x) <= 1)%nat) ->
  (length (concat (map f l)) <= length l)%nat.
Proof.
  intros H. induction l as [|x l IH]; simpl; [lia|].
  rewrite length_app. specialize (H x). lia.
Qed.

(** What an entry of the compliance report looks like. *)
Definition wellFormedIssue (i : ComplianceIssue) : Prop :=
  In (jurisdiction i)
    [lit "GDPR"; lit "EMPLOYMENT"; lit "CONSUMER"; lit "SECURITIES"]
  /\ (1 <= length (issues i) <= 4)%nat
  /\ (issueSeverity i = sev_high /\ (3 <= length (issues i))%nat
      \/ issueSeverity i = sev_medium /\ (length (issues i) <= 2)%nat).

(** X4: the compliance report has at most four entries, each for one of
    the four jurisdictions, named in capitals; an entry lists between one
    and four findings, and its severity is high when there are three or four
    findings and medium when there are one or two, never critical or low. *)
Theorem compliance_report_shape (documentText : str) :
  (length (assessComplianceRisks documentText) <= 4)%nat
  /\ Forall wellFormedIssue (assessComplianceRisks documentText).
Proof.
  unfold assessComplianceRisks. generalize (toLowerCase documentText) as lowerText.
  intros lowerText. split.
  - change 4%nat with (length COMPLIANCE_RISKS). apply concat_map_length_le.
    intros [j kws]. cbv beta iota zeta. destruct (0 <? _)%nat; simpl; lia.
  - apply Forall_concat_map. intros [j kws] Hin. cbv beta iota zeta.
    assert (In (toUpperCase j)
              [lit "GDPR"; lit "EMPLOYMENT"; lit "CONSUMER"; lit "SECURITIES"]
            /\ length kws = 4%nat) as [Hj Hk].
    { simpl in Hin.
      destruct Hin as [E|[E|[E|[E|[]]]]]; injection E as <- <-;
        (split; [vm_compute; tauto | reflexivity]). }
    pose proof (filter_length_le _ (includes lowerText) kws) as Hle.
    rewrite Hk in Hle.
    destruct (Nat.ltb_spec 0 (length (filter (includes lowerText) kws))) as [Hpos|];
      [|constructor].
    constructor; [|constructor]. unfold wellFormedIssue.
    cbn [jurisdiction issues issueSeverity]. rewrite length_map. unfold str in *. split; [exact Hj|]. split; [lia|].
    match goal with
    | |- context [(2 <? ?n)%nat] => destruct (Nat.ltb_spec 2 n)
    end; [left | right]; split; (reflexivity || lia).
Qed.

Lemma countLevel_app (l : RiskLevel) (a b : list ClauseMatch) :
  countLevel l (a ++ b) = (countLevel l a + countLevel l b)%nat.
Proof. unfold countLevel. now rewrite filter_app, length_app. Qed.

(** X5: more clauses never lower the cost-risk tier: for the same
    document text, a classification result with further clauses gets a
    tier at least as severe (low, medium, high, critical). *)
Theorem cost_risk_monotone (result : ClassificationResult) (more : list ClauseMatch)
    (s : Summary) (documentText : str) :
  (costRank (costRisk (assessFinancialImpact result documentText))
   <= costRank (costRisk (assessFinancialImpact
                            (mkResult (clauses result ++ more) s) documentText)))%Z.
Proof.
  unfold assessFinancialImpact. cbn [clauses].
  destruct (includes _ _ || includes _ _); [simpl; lia|].
  fold (countLevel high (clauses result)).
  fold (countLevel high (clauses result ++ more)).
  rewrite countLevel_app.
  destruct (Nat.ltb_spec 3 (countLevel high (clauses result)));
    destruct (Nat.ltb_spec 3 (countLevel high (clauses result) + countLevel high more));
    destruct (Nat.ltb_spec 1 (countLevel high (clauses result)));
    destruct (Nat.ltb_spec 1 (countLevel high (clauses result) + countLevel high more));
    simpl; lia.
Qed.

Lemma ofNat_inj (a b : nat) : ofNat a = ofNat b -> a = b.
Proof.
  unfold ofNat, lit. intros H. apply (f_equal string_of_list_ascii) in H.
  rewrite !string_of_list_ascii_of_string in H.
  apply (f_equal NilEmpty.uint_of_string) in H. rewrite !NilEmpty.usu in H.
  injection H as H. now apply DecimalNat.Unsigned.to_uint_inj.
Qed.

(** Factors numbered from [i] on under one prefix have different ids. *)
Lemma numbered_ids (X : Type) (prefix : str) (g : X -> nat -> list RiskFactor)
    (l : list X) (i : nat) :
  (forall x j, g x j = []
               \/ exists f, g x j = [f] /\ id f = prefix ++ ofNat j) ->
  NoDup (map id (concat (mapi_from i g l)))
  /\ forall y, In y (map id (concat (mapi_from i g l))) ->
               exists j, (i <= j)%nat /\ y = prefix ++ ofNat j.
Proof.
  intros Hg. revert i. induction l as [|x l IH]; intros i; simpl.
  - split; [constructor | contradiction].
  - destruct (IH (S i)) as [Hnd Hin]. destruct (Hg x i) as [E|(f & E & Hf)]; rewrite E.
    + simpl. split; [exact Hnd|]. intros y Hy.
      destruct (Hin y Hy) as (j & Hj & ->). exists j. split; [lia | reflexivity].
    + simpl. split.
      * constructor; [|exact Hnd]. intros Hy. destruct (Hin _ Hy) as (j & Hj & Ej).
        rewrite Hf in Ej. apply app_inv_head, ofNat_inj in Ej. lia.
      * intros y [<-|Hy]; [exists i; split; [lia | exact Hf]|].
        destruct (Hin y Hy) as (j & Hj & ->). exists j. split; [lia | reflexivity].
Qed.

Lemma mapi_as_concat (X Y : Type) (f : X -> nat -> Y) (l : list X) (i : nat) :
  mapi_from i f l = concat (mapi_from i (fun x j => [f x j]) l).
Proof.
  revert i. induction l as [|x l IH]; intros i; simpl; [reflexivity|]. now rewrite IH.
Qed.

Lemma NoDup_append (X : Type) (a b : list X) :
  NoDup a -> NoDup b -> (forall x, In x a -> ~ In x b) -> NoDup (a ++ b).
Proof.
  intros Ha Hb Hab. induction Ha as [|x a Hx Ha IH]; simpl; [exact Hb|].
  constructor.
  - rewrite in_app_iff. intros [H|H]; [contradiction|]. apply (Hab x); [now left | exact H].
  - apply IH. intros y Hy. apply Hab. now right.
Qed.

(** X6: the risk factors of an assessment have pairwise different ids. *)
Theorem risk_factor_ids_distinct (result : ClassificationResult) (documentText : str) :
  NoDup (map id (riskFactors (assessRisk result documentText))).
Proof.
  change (riskFactors (assessRisk result documentText))
    with (identifyRiskFactors result documentText).
  unfold identifyRiskFactors.
  apply (Permutation_NoDup
           (l := map id (criticalFactors result (toLowerCase documentText)
                         ++ highRiskFactors result
                         ++ missingFactors result documentText))).
  { apply Permutation_map, Permutation_sym, sort_perm. }
  assert (NoDup (map id (criticalFactors result (toLowerCase documentText)))
          /\ forall y, In y (map id (criticalFactors result (toLowerCase documentText))) ->
                       exists j, (0 <= j)%nat /\ y = lit "critical-" ++ ofNat j)
    as [Hc1 Hc2].
  { unfold criticalFactors, mapi. apply numbered_ids. intros pattern j.
    destruct (includes (toLowerCase documentText) pattern);
      [right; eexists; split; reflexivity | now left]. }
  assert (NoDup (map id (highRiskFactors result))
          /\ forall y, In y (map id (highRiskFactors result)) ->
                       exists j, (0 <= j)%nat /\ y = lit "high-risk-" ++ ofNat j)
    as [Hh1 Hh2].
  { unfold highRiskFactors, mapi. rewrite mapi_as_concat.
    apply numbered_ids. intros clause j. right. eexists. split; reflexivity. }
  assert (NoDup (map id (missingFactors result documentText))
          /\ forall y, In y (map id (missingFactors result documentText)) ->
                       exists j, (0 <= j)%nat /\ y = lit "missing-" ++ ofNat j)
    as [Hm1 Hm2].
  { unfold missingFactors, mapi. rewrite mapi_as_concat.
    apply numbered_ids. intros protection j. right. eexists. split; reflexivity. }
  rewrite !map_app. apply NoDup_append; [exact Hc1 | apply NoDup_append|].
  - exact Hh1.
  - exact Hm1.
  - intros y Hy Hy'. destruct (Hh2 y Hy) as (j & _ & ->).
    destruct (Hm2 _ Hy') as (k & _ & E). discriminate.
  - intros y Hy Hy'. destruct (Hc2 y Hy) as (j & _ & ->).
    apply in_app_iff in Hy' as [Hy'|Hy'].
    + destruct (Hh2 _ Hy') as (k & _ & E). discriminate.
    + destruct (Hm2 _ Hy') as (k & _ & E). discriminate.
Qed.

(** The score in terms of the two sums. *)
Lemma score_value (result : ClassificationResult) :
  calculateOverallRiskScore result
  = if (0 <? maxSum (clauses result))%Z
    then Z.min 100
           (Math_round (weightedSum (clauses result)
                        / inject_Z (maxSum (clauses result)) * 100))
    else Z.min 100 (Math_round 0).
Proof.
  unfold calculateOverallRiskScore.
  destruct (fold_scoreStep (clauses result) 0 0%Z) as [Hq Hz].
  destruct (fold_left scoreStep (clauses result) (0, 0%Z)) as [tot mx].
  simpl in Hq, Hz. rewrite Hz.
  destruct (0 <? maxSum (clauses result))%Z; [|reflexivity].
  f_equal. apply Math_round_compat. rewrite Hq. now rewrite Qplus_0_l.
Qed.

Lemma inject_Z_nonneg (z : Z) : (0 <= z)%Z -> 0 <= inject_Z z.
Proof. intros H. change 0 with (inject_Z 0). now rewrite <- Zle_Qle. Qed.

Lemma inject_Z_pos (z : Z) : (0 < z)%Z -> 0 < inject_Z z.
Proof. intros H. change 0 with (inject_Z 0). now rewrite <- Zlt_Qlt. Qed.

Lemma weightedSum_high (cs : list ClauseMatch) :
  Forall (fun c => riskLevel c = high /\ 75 # 100 <= confidence c) cs ->
  (75 # 100) * inject_Z (maxSum cs) <= weightedSum cs.
Proof.
  induction 1 as [|c cs [Hl Hc] _ IH]; simpl; [unfold inject_Z; lra|].
  rewrite Hl, inject_Z_plus. simpl weightAt.
  pose proof (inject_Z_nonneg _ (Z.lt_le_incl _ _ (high_pos (type c)))) as Hh.
  assert (0 <= inject_Z (w_high (RISK_WEIGHTS (type c))) * (confidence c - (75 # 100)))
    as Hp by (apply Qmult_le_0_compat; lra).
  lra.
Qed.

Lemma weightedSum_low (cs : list ClauseMatch) :
  Forall (fun c => riskLevel c = low /\ 0 <= confidence c /\ confidence c <= 1) cs ->
  weightedSum cs <= (5 # 18) * inject_Z (maxSum cs).
Proof.
  induction 1 as [|c cs (Hl & H0 & H1) _ IH]; simpl; [unfold inject_Z; lra|].
  rewrite Hl, inject_Z_plus.
  assert (inject_Z (weightAt (RISK_WEIGHTS (type c)) low) * confidence c
          <= (5 # 18) * inject_Z (w_high (RISK_WEIGHTS (type c)))) as Hc.
  { destruct (type c); simpl; unfold inject_Z; lra. }
  lra.
Qed.

(** X7: when every clause of a non-empty classification result is
    high-risk with a confidence of at least 0.75, which the classifier
    never goes below, the overall score is at least 75 and the grade is D
    or F. *)
Theorem all_high_is_D_or_F (result : ClassificationResult) (documentText : str) :
  clauses result <> [] ->
  Forall (fun c => riskLevel c = high /\ 75 # 100 <= confidence c) (clauses result) ->
  let a := assessRisk result documentText in
  (75 <= overallRiskScore a <= 100)%Z /\ (riskGrade a = D \/ riskGrade a = F).
Proof.
  intros Hne Hall a. subst a.
  change (overallRiskScore (assessRisk result documentText))
    with (calculateOverallRiskScore result).
  change (riskGrade (assessRisk result documentText))
    with (calculateRiskGrade (calculateOverallRiskScore result)).
  assert (75 <= calculateOverallRiskScore result <= 100)%Z as Hs.
  { rewrite score_value.
    destruct (clauses result) as [|c cs] eqn:E; [congruence|].
    pose proof (maxSum_pos c cs) as Hpos.
    destruct (Z.ltb_spec 0 (maxSum (c :: cs))) as [_|]; [|lia].
    pose proof (weightedSum_high _ Hall) as Hw.
    assert (75 # 100 <= weightedSum (c :: cs) / inject_Z (maxSum (c :: cs))) as Hr
      by (apply Qle_shift_div_l; [now apply inject_Z_pos | exact Hw]).
    assert (75 <= Math_round (weightedSum (c :: cs) / inject_Z (maxSum (c :: cs)) * 100))%Z.
    { unfold Math_round. change 75%Z with (Qfloor (75 + (1 # 2))).
      apply Qfloor_resp_le. lra. }
    lia. }
  split; [exact Hs|]. unfold calculateRiskGrade.
  destruct (Z.leb_spec (calculateOverallRiskScore result) 20); [lia|].
  destruct (Z.leb_spec (calculateOverallRiskScore result) 40); [lia|].
  destruct (Z.leb_spec (calculateOverallRiskScore result) 60); [lia|].
  destruct (Z.leb_spec (calculateOverallRiskScore result) 80); auto.
Qed.

Lemma all_high_is_D_or_F_witness :
  let r := mkResult [highClause termination (88 # 100); highClause liability (88 # 100)]
             (mkSummary 2 2 0 0) in
  clauses r <> []
  /\ Forall (fun c => riskLevel c = high /\ 75 # 100 <= confidence c) (clauses r)
  /\ riskGrade (assessRisk r (lit "x")) = F.
Proof.
  intros r.
  assert (clauses r <> []) as Hne by discriminate.
  assert (Forall (fun c => riskLevel c = high /\ 75 # 100 <= confidence c) (clauses r))
    as Hall.
  { repeat constructor; simpl; unfold Qle; simpl; lia. }
  split; [exact Hne|]. split; [exact Hall|].
  destruct (all_high_is_D_or_F r (lit "x") Hne Hall) as [_ [H|H]];
    [vm_compute in H; discriminate | exact H].
Defined.

(** X8: when every clause of a classification result is low-risk, with
    confidences between 0 and 1, the overall score is at most 28 and the
    grade is A or B. *)
Theorem all_low_is_A_or_B (result : ClassificationResult) (documentText : str) :
  Forall (fun c => riskLevel c = low /\ 0 <= confidence c /\ confidence c <= 1)
    (clauses result) ->
  let a := assessRisk result documentText in
  (0 <= overallRiskScore a <= 28)%Z /\ (riskGrade a = A \/ riskGrade a = B).
Proof.
  intros Hall a. subst a.
  change (overallRiskScore (assessRisk result documentText))
    with (calculateOverallRiskScore result).
  change (riskGrade (assessRisk result documentText))
    with (calculateRiskGrade (calculateOverallRiskScore result)).
  assert (0 <= calculateOverallRiskScore result <= 28)%Z as Hs.
  { rewrite score_value.
    destruct (Z.ltb_spec 0 (maxSum (clauses result))) as [Hpos|_];
      [|vm_compute; split; discriminate].
    pose proof (weightedSum_low _ Hall) as Hw.
    assert (0 <= weightedSum (clauses result)) as Hw0.
    { apply weightedSum_nonneg. eapply Forall_impl; [|exact Hall].
      intros c Hc. simpl in Hc. tauto. }
    pose proof (inject_Z_pos _ Hpos) as Hm.
    assert (weightedSum (clauses result) / inject_Z (maxSum (clauses result)) <= 5 # 18)
      as Hr by (apply Qle_shift_div_r; [exact Hm | lra]).
    assert (0 <= weightedSum (clauses result) / inject_Z (maxSum (clauses result)))
      as Hr0 by (apply Qle_shift_div_l; [exact Hm | lra]).
    assert (Math_round (weightedSum (clauses result)
                        / inject_Z (maxSum (clauses result)) * 100) <= 28)%Z.
    { unfold Math_round. change 28%Z with (Qfloor (28 + (1 # 2))).
      apply Qfloor_resp_le. lra. }
    assert (0 <= Math_round (weightedSum (clauses result)
                             / inject_Z (maxSum (clauses result)) * 100))%Z
      by (apply Math_round_nonneg; lra).
    lia. }
  split; [exact Hs|]. unfold calculateRiskGrade.
  destruct (Z.leb_spec (calculateOverallRiskScore result) 20); [auto|].
  destruct (Z.leb_spec (calculateOverallRiskScore result) 40); [auto | lia].
Qed.

Lemma all_low_is_A_or_B_witness :
  let r := mkResult [lowClause intellectual_property (98 # 100)] (mkSummary 1 0 0 1) in
  Forall (fun c => riskLevel c = low /\ 0 <= confidence c /\ confidence c <= 1)
    (clauses r)
  /\ riskGrade (assessRisk r (lit "x")) = B.
Proof.
  intros r.
  assert (Forall (fun c => riskLevel c = low /\ 0 <= confidence c /\ confidence c <= 1)
            (clauses r)) as Hall.
  { repeat constructor; simpl; unfold Qle; simpl; lia. }
  split; [exact Hall|].
  destruct (all_low_is_A_or_B r (lit "x") Hall) as [_ [H|H]];
    [vm_compute in H; discriminate | exact H].
Defined.

(** X9: classifying a document and assessing the result: the number of
    high-severity risk factors is the [highRiskClauses] count of the
    classification summary, and a document that contains none of the clause
    phrases gets score 0, grade A and no high-severity factor. *)
Theorem classify_then_assess (random : nat -> Q) (t : str) (n : nat) :
  let r := fst (classifyDocument random t n) in
  let a := assessRisk r t in
  countSeverity sev_high (riskFactors a) = highRiskClauses (summary r)
  /\ (ClassifierProps.clauseFree t = true ->
      overallRiskScore a = 0%Z /\ riskGrade a = A
      /\ countSeverity sev_high (riskFactors a) = 0%nat).
Proof.
  intros r a. subst a.
  change (riskFactors (assessRisk r t)) with (identifyRiskFactors r t).
  change (overallRiskScore (assessRisk r t)) with (calculateOverallRiskScore r).
  change (riskGrade (assessRisk r t))
    with (calculateRiskGrade (calculateOverallRiskScore r)).
  rewrite countSeverity_factors. simpl sev_eqb. cbv iota.
  assert (highRiskClauses (summary r) = countLevel high (clauses r)) as Hsum.
  { subst r. rewrite ClassifierProps.classifyDocument_summary at 1. reflexivity. }
  split; [rewrite Hsum; lia|].
  intros Hfree. apply ClassifierProps.clauseFree_noPatternHit in Hfree.
  assert (clauses r = []) as Hnil.
  { subst r. rewrite ClassifierProps.classifyDocument_clauses,
      (ClassifierProps.noPatternHit_empty random t n Hfree). reflexivity. }
  rewrite score_value, Hnil. repeat split.
Qed.

Lemma classify_then_assess_witness :
  ClassifierProps.clauseFree skyDocument = true
  /\ riskGrade (assessRisk (fst (classifyDocument noDraws skyDocument 0%nat)) skyDocument)
     = A.
Proof.
  assert (ClassifierProps.clauseFree skyDocument = true) as H by (vm_compute; reflexivity).
  split; [exact H|].
  exact (proj1 (proj2 (proj2 (classify_then_assess noDraws skyDocument 0%nat) H))).
Defined.

End RiskEngineExtra.

(** ** Regular expressions: where a match can lie *)

Module RegexMore.
Import Regex.

(** [y] is a position of the same string at or after [x]. *)
Definition reaches (x y : pos) : Prop := exists u, rest x = u ++ rest y.

(** A matcher that, when it succeeds, has called its continuation at a
    position it reaches. *)
Definition progressive (m : pos -> cont -> option pos) : Prop :=
  forall x k z, m x k = Some z -> exists y, reaches x y /\ k y = Some z.

Lemma reaches_refl (x : pos) : reaches x x.
Proof. now exists []. Qed.

Lemma reaches_trans (x y z : pos) : reaches x y -> reaches y z -> reaches x z.
Proof.
  intros [u Hu] [v Hv]. exists (u ++ v). now rewrite Hu, Hv, app_assoc.
Qed.

Lemma iter_progressive (m : pos -> cont -> option pos) :
  progressive m -> forall fuel lo hi, progressive (iter m fuel lo hi).
Proof.
  intros Hm. induction fuel as [|fuel IH]; intros lo hi x k z H.
  - simpl in H. destruct hi as [[|h]|]; try discriminate.
    exists x. split; [apply reaches_refl | exact H].
  - assert (forall hi',
              m x (fun y =>
                     if (lo =? 0)%nat && (length (rest y) =? length (rest x))%nat
                     then None else iter m fuel (pred lo) hi' y k) = Some z ->
              exists y, reaches x y /\ k y = Some z) as Hagain.
    { intros hi' Hz. destruct (Hm _ _ _ Hz) as (y & Hy & Hk).
      destruct ((lo =? 0)%nat && (length (rest y) =? length (rest x))%nat);
        [discriminate|].
      destruct (IH _ _ _ _ _ Hk) as (y' & Hy' & Hk').
      exists y'. split; [now apply reaches_trans with y | exact Hk']. }
    simpl in H. destruct hi as [[|h]|].
    + exists x. split; [apply reaches_refl | exact H].
    + destruct (0 <? lo)%nat; [now apply Hagain with (hi' := Some h)|].
      match type of H with
      | match ?a with _ => _ end = _ => destruct a as [z'|] eqn:E
      end.
      * injection H as ->. now apply Hagain with (hi' := Some h).
      * exists x. split; [apply reaches_refl | exact H].
    + destruct (0 <? lo)%nat; [now apply Hagain with (hi' := None)|].
      match type of H with
      | match ?a with _ => _ end = _ => destruct a as [z'|] eqn:E
      end.
      * injection H as ->. now apply Hagain with (hi' := None).
      * exists x. split; [apply reaches_refl | exact H].
Qed.

Lemma run_progressive (r : regex) : progressive (run r).
Proof.
  induction r as [p| |r1 IH1 r2 IH2|r1 IH1 r2 IH2|r IH lo hi|]; intros x k z H.
  - simpl in H. destruct (rest x) as [|c s] eqn:E; [discriminate|].
    destruct (p c); [|discriminate].
    exists (mkPos (Some c) s). split; [|exact H]. exists [c]. exact E.
  - exists x. split; [apply reaches_refl | exact H].
  - simpl in H. destruct (IH1 _ _ _ H) as (y & Hy & H2).
    destruct (IH2 _ _ _ H2) as (y' & Hy' & Hk).
    exists y'. split; [now apply reaches_trans with y | exact Hk].
  - simpl in H. destruct (run r1 x k) as [z'|] eqn:E.
    + injection H as ->. now apply IH1.
    + now apply IH2.
  - change (iter (run r) (S (length (rest x) + lo)) lo hi x k = Some z) in H.
    now apply (iter_progressive _ IH) in H.
  - simpl in H. destruct (atBoundary x); [|discriminate].
    exists x. split; [apply reaches_refl | exact H].
Qed.

(** What [exec] finds is a piece of the string it scans. *)
Lemma exec_spec (r : regex) (s : str) (i : nat) (b : option ascii) (f : found) :
  exec r i b s = Some f ->
  exists pre, s = pre ++ matched f ++ rest (after f)
              /\ index f = (i + length pre)%nat.
Proof.
  revert i b f. induction s as [|c s IH]; intros i b f H.
  - simpl in H. destruct (run r (mkPos b []) Some) as [y|] eqn:E; [|discriminate].
    injection H as <-. simpl.
    destruct (run_progressive _ _ _ _ E) as (y' & [u Hu] & Hy). injection Hy as ->.
    simpl in Hu. symmetry in Hu. apply app_eq_nil in Hu as [_ ->].
    exists []. simpl. split; [reflexivity | lia].
  - simpl in H. destruct (run r (mkPos b (c :: s)) Some) as [y|] eqn:E.
    + injection H as <-. cbn [index matched after].
      destruct (run_progressive _ _ _ _ E) as (y' & [u Hu] & Hy). injection Hy as ->.
      cbn [rest] in Hu. exists [].
      assert (S (length s) = length u + length (rest y))%nat as Hl.
      { change (S (length s)) with (length (c :: s)). rewrite Hu. apply length_app. }
      change (match length (rest y) with
              | 0 => S (length s)
              | S l => length s - l
              end)%nat with (S (length s) - length (rest y))%nat.
      rewrite Hl, Nat.add_sub, Hu, firstn_app, Nat.sub_diag, firstn_all.
      simpl. rewrite app_nil_r. split; [reflexivity | lia].
    + destruct (IH _ _ _ H) as (pre & Hs & Hi).
      exists (c :: pre). simpl. split; [now rewrite <- Hs | lia].
Qed.

(** Every match of a scan from offset [i] lies between [i] and the end of
    the string. *)
Lemma matchAllFrom_bounds (r : regex) (fuel i : nat) (b : option ascii) (s : str) :
  Forall (fun h => (i <= fst h)%nat /\ (fst h + length (snd h) <= i + length s)%nat)
    (matchAllFrom r fuel i b s).
Proof.
  revert i b s. induction fuel as [|fuel IH]; intros i b s; simpl; [constructor|].
  destruct (exec r i b s) as [f|] eqn:E; [|constructor].
  destruct (exec_spec _ _ _ _ _ E) as (pre & Hs & Hi).
  assert (length s = length pre + length (matched f) + length (rest (after f)))%nat
    as Hlen by (rewrite Hs at 1; rewrite !length_app; lia).
  assert ((i <= index f)%nat
          /\ (index f + length (matched f) <= i + length s)%nat) as Hhere by lia.
  destruct (matched f) as [|c m] eqn:Em.
  - destruct (rest (after f)) as [|c s'] eqn:Er.
    + constructor; [exact Hhere | constructor].
    + constructor; [exact Hhere|].
      eapply Forall_impl; [|apply IH]. simpl in Hlen |- *. intros h Hh. lia.
  - constructor; [exact Hhere|].
    eapply Forall_impl; [|apply IH]. simpl in Hlen |- *. intros h Hh. lia.
Qed.

Lemma matchAll_bounds (r : regex) (s : str) (j : nat) (m : str) :
  In (j, m) (matchAll r s) -> (j + length m <= length s)%nat.
Proof.
  intros H. pose proof (matchAllFrom_bounds r (S (length s)) 0 None s) as Hall.
  rewrite Forall_forall in Hall. apply Hall in H. simpl in H. lia.
Qed.

End RegexMore.

(** ** Regular expressions: runs of one character class

    [/c+/g] for a class [c], as in [/\s+/g] and [/[.!?]+/g]: the scan
    finds the maximal runs of the class, so splitting and replacing on it
    can be read off the string by a single pass. *)

Module ClassRuns.
Import Regex RegexMore.

Section Class.

Variable p : ascii -> bool.

(** The longest prefix of [s] inside the class, and what follows it. *)
Fixpoint takeRun (s : str) : str :=
  match s with
  | c :: s' => if p c then c :: takeRun s' else []
  | [] => []
  end.

Fixpoint skipRun (s : str) : str :=
  match s with
  | c :: s' => if p c then skipRun s' else s
  | [] => []
  end.

(** The code unit before the position reached after the run [r] that
    starts after [b]. *)
Fixpoint lastOf (b : option ascii) (r : str) : option ascii :=
  match r with
  | [] => b
  | c :: r' => lastOf (Some c) r'
  end.

(** [s.replace(/c+/g, sep)] by a single pass: [inRun] tells that the code
    unit before was in the class. *)
Fixpoint collapse (sep : str) (inRun : bool) (s : str) : str :=
  match s with
  | [] => []
  | c :: s' =>
      if p c then (if inRun then collapse sep true s' else sep ++ collapse sep true s')
      else c :: collapse sep false s'
  end.

(** [s.split(/c+/)] by a single pass: [cur] is the piece being read, in
    reverse. *)
Fixpoint fields (inRun : bool) (cur : str) (s : str) : list str :=
  match s with
  | [] => [rev cur]
  | c :: s' =>
      if p c then (if inRun then fields true cur s' else rev cur :: fields true [] s')
      else fields false (c :: cur) s'
  end.

Lemma take_skip (s : str) : s = takeRun s ++ skipRun s.
Proof.
  induction s as [|c s IH]; simpl; [reflexivity|].
  destruct (p c); simpl; [now rewrite <- IH | reflexivity].
Qed.

Lemma skipRun_length (s : str) : (length (skipRun s) <= length s)%nat.
Proof.
  induction s as [|c s IH]; simpl; [lia|]. destruct (p c); simpl; lia.
Qed.

Lemma iter_class (s : str) :
  forall fuel lo b,
    (length s + lo < fuel)%nat ->
    iter (run (Chr p)) fuel lo None (mkPos b s) Some
    = if (lo <=? length (takeRun s))%nat
      then Some (mkPos (lastOf b (takeRun s)) (skipRun s))
      else None.
Proof.
  induction s as [|c s IH]; intros fuel lo b Hfuel.
  - destruct fuel as [|fuel]; [lia|]. simpl.
    destruct lo as [|lo]; reflexivity.
  - destruct fuel as [|fuel]; [simpl in Hfuel; lia|].
    cbn [iter run rest takeRun skipRun]. destruct (p c) eqn:Hc.
    + cbn [length]. rewrite (proj2 (Nat.eqb_neq (length s) (S (length s))))
        by lia.
      rewrite andb_false_r. rewrite IH by (simpl in Hfuel; lia).
      cbn [lastOf]. destruct lo as [|lo].
      * reflexivity.
      * cbn [pred]. change (0 <? S lo)%nat with true. cbv iota.
        reflexivity.
    + cbn [length lastOf]. destruct lo as [|lo]; reflexivity.
Qed.

(** A match of [/c+/] at a position: the maximal run that starts there. *)
Lemma run_class (b : option ascii) (s : str) :
  run (plus (Chr p)) (mkPos b s) Some
  = match s with
    | [] => None
    | c :: s' =>
        if p c then Some (mkPos (lastOf b (takeRun s)) (skipRun s)) else None
    end.
Proof.
  unfold plus.
  change (run (Rep (Chr p) 1 None) (mkPos b s) Some)
    with (iter (run (Chr p)) (S (length s + 1)) 1 None (mkPos b s) Some).
  rewrite iter_class by lia.
  destruct s as [|c s]; [reflexivity|]. simpl. destruct (p c); reflexivity.
Qed.

Lemma exec_nil (i : nat) (b : option ascii) : exec (plus (Chr p)) i b [] = None.
Proof. unfold exec. now rewrite run_class. Qed.

Lemma exec_hit (c : ascii) (s : str) (i : nat) (b : option ascii) :
  p c = true ->
  exec (plus (Chr p)) i b (c :: s)
  = Some (mkFound i (c :: takeRun s)
            (mkPos (lastOf (Some c) (takeRun s)) (skipRun s))).
Proof.
  intros Hc. cbn [exec]. rewrite run_class, Hc.
  assert (takeRun (c :: s) = c :: takeRun s) as Ht by (simpl; now rewrite Hc).
  assert (skipRun (c :: s) = skipRun s) as Hk by (simpl; now rewrite Hc).
  rewrite Ht, Hk. cbn [lastOf rest]. do 2 f_equal.
  assert (c :: s = (c :: takeRun s) ++ skipRun s) as Hs
    by (simpl; now rewrite <- take_skip).
  rewrite Hs at 1 2. rewrite length_app, Nat.add_sub.
  rewrite firstn_app, Nat.sub_diag, firstn_all. simpl. now rewrite app_nil_r.
Qed.

Lemma exec_miss (c : ascii) (s : str) (i : nat) (b : option ascii) :
  p c = false ->
  exec (plus (Chr p)) i b (c :: s) = exec (plus (Chr p)) (S i) (Some c) s.
Proof. intros Hc. cbn [exec]. now rewrite run_class, Hc. Qed.

Lemma matchAllFrom_nil (fuel i : nat) (b : option ascii) :
  matchAllFrom (plus (Chr p)) fuel i b [] = [].
Proof. destruct fuel; [reflexivity|]. cbn [matchAllFrom]. now rewrite exec_nil. Qed.

Lemma matchAllFrom_hit (c : ascii) (s : str) (fuel i : nat) (b : option ascii) :
  p c = true ->
  matchAllFrom (plus (Chr p)) (S fuel) i b (c :: s)
  = (i, c :: takeRun s)
    :: matchAllFrom (plus (Chr p)) fuel (i + S (length (takeRun s)))
         (lastOf (Some c) (takeRun s)) (skipRun s).
Proof. intros Hc. cbn [matchAllFrom]. now rewrite exec_hit. Qed.

Lemma matchAllFrom_miss (c : ascii) (s : str) (fuel i : nat) (b : option ascii) :
  p c = false ->
  matchAllFrom (plus (Chr p)) (S fuel) i b (c :: s)
  = matchAllFrom (plus (Chr p)) (S fuel) (S i) (Some c) s.
Proof.
  intros Hc. cbn [matchAllFrom]. rewrite exec_miss by exact Hc. reflexivity.
Qed.

Lemma fields_inRun (cur s : str) : fields true cur s = fields false cur (skipRun s).
Proof.
  induction s as [|c s IH]; simpl; [reflexivity|].
  destruct (p c) eqn:Hc; [exact IH|]. simpl. now rewrite Hc.
Qed.

(** The pieces that [split] cuts, from a scan with enough rounds left:
    [cur] is the part of the piece at hand that the scan has passed. *)
Lemma pieces_class (fuel : nat) :
  forall (s cur : str) (i0 i : nat) (b : option ascii),
    (length s < fuel)%nat ->
    i = (i0 + length cur)%nat ->
    pieces (matchAllFrom (plus (Chr p)) fuel i b s) i0 (cur ++ s)
    = fields false (rev cur) s.
Proof.
  induction fuel as [|fuel IH]; intros s cur i0 i b Hfuel Hi; [lia|].
  revert cur i b Hi. induction s as [|c s IHs]; intros cur i b Hi.
  - rewrite matchAllFrom_nil. simpl. now rewrite app_nil_r, rev_involutive.
  - destruct (p c) eqn:Hc.
    + rewrite matchAllFrom_hit by exact Hc. cbn [pieces fields]. rewrite Hc.
      rewrite rev_involutive.
      replace (i - i0)%nat with (length cur) by lia.
      rewrite firstn_app, Nat.sub_diag, firstn_all. simpl firstn. rewrite app_nil_r.
      f_equal.
      assert (c :: s = (c :: takeRun s) ++ skipRun s) as Hs
        by (simpl; now rewrite <- take_skip).
      rewrite Hs. rewrite app_assoc, skipn_app.
      rewrite <- length_app, skipn_all, Nat.sub_diag. cbn [skipn app].
      rewrite fields_inRun.
      pose proof (skipRun_length s) as Hlen.
      apply (IH (skipRun s) [] (i + length (c :: takeRun s))%nat).
      * simpl in Hfuel. lia.
      * simpl. lia.
    + rewrite matchAllFrom_miss by exact Hc. cbn [fields]. rewrite Hc.
      specialize (IHs ltac:(simpl in Hfuel; lia) (cur ++ [c]) (S i) (Some c)).
      rewrite <- app_assoc in IHs. cbn [app] in IHs.
      rewrite rev_app_distr in IHs. cbn [rev app] in IHs.
      apply IHs. rewrite length_app. simpl. lia.
Qed.

(** [s.split(/c+/)] is the single pass. *)
Lemma split_class (s : str) : split (plus (Chr p)) s = fields false [] s.
Proof.
  unfold split, matchAll.
  exact (pieces_class (S (length s)) s [] 0 0 None (Nat.lt_succ_diag_r _) eq_refl).
Qed.

Lemma join_cons (sep x : str) (l : list str) :
  l <> [] -> join sep (x :: l) = x ++ sep ++ join sep l.
Proof. destruct l; [congruence | reflexivity]. Qed.

Lemma fields_nonempty (inRun : bool) (cur s : str) : fields inRun cur s <> [].
Proof.
  revert inRun cur. induction s as [|c s IH]; intros inRun cur; simpl; [discriminate|].
  destruct (p c); [destruct inRun; [apply IH | discriminate] | apply IH].
Qed.

Lemma join_fields (sep : str) (s cur : str) (inRun : bool) :
  join sep (fields inRun cur s) = rev cur ++ collapse sep inRun s.
Proof.
  revert cur inRun. induction s as [|c s IH]; intros cur inRun.
  - simpl. now rewrite app_nil_r.
  - cbn [fields collapse]. destruct (p c) eqn:Hc.
    + destruct inRun; [apply IH|].
      rewrite join_cons by apply fields_nonempty. now rewrite IH.
    + rewrite IH. simpl. now rewrite <- app_assoc.
Qed.

(** [s.replace(/c+/g, sep)] is the single pass. *)
Lemma replaceAll_class (sep s : str) :
  replaceAll (plus (Chr p)) sep s = collapse sep false s.
Proof. unfold replaceAll. rewrite split_class. apply join_fields. Qed.

(** No piece of [s.split(/c+/)] has a code unit of the class. *)
Lemma fields_free (s cur : str) (inRun : bool) :
  forallb (fun c => negb (p c)) cur = true ->
  Forall (fun piece => forallb (fun c => negb (p c)) piece = true)
    (fields inRun cur s).
Proof.
  revert cur inRun. induction s as [|c s IH]; intros cur inRun Hcur.
  - simpl. constructor; [|constructor].
    rewrite forallb_forall in *. intros x Hx. apply Hcur. now apply in_rev.
  - cbn [fields]. destruct (p c) eqn:Hc.
    + destruct inRun; [now apply IH|]. constructor; [|now apply IH].
      rewrite forallb_forall in *. intros x Hx. apply Hcur. now apply in_rev.
    + apply IH. simpl. now rewrite Hc.
Qed.

End Class.

(** ** White space collapsed and trimmed

    [s.replace(/\s+/g, " ").trim()], the way the classifier tidies the text
    of a clause. *)

Definition blank : ascii := " "%char.

(** No two white-space code units of [s] are neighbours. *)
Fixpoint noDouble (s : str) : bool :=
  match s with
  | a :: s' =>
      match s' with
      | b :: _ => negb (isSpace a && isSpace b) && noDouble s'
      | [] => true
      end
  | [] => true
  end.

Definition startsInk (s : str) : bool :=
  match s with
  | c :: _ => negb (isSpace c)
  | [] => true
  end.

(** The white space of [s] is single blanks between other code units. *)
Definition tidy (s : str) : bool :=
  forallb (fun c => negb (isSpace c) || chr_eqb c blank) s
  && noDouble s && startsInk s && startsInk (rev s).

Lemma collapse_blanks (inRun : bool) (s : str) :
  forallb (fun c => negb (isSpace c) || chr_eqb c blank)
    (collapse isSpace [blank] inRun s) = true.
Proof.
  revert inRun. induction s as [|c s IH]; intros inRun; simpl; [reflexivity|].
  destruct (isSpace c) eqn:Hc.
  - destruct inRun; [apply IH|]. simpl. apply IH.
  - simpl. rewrite Hc. simpl. apply IH.
Qed.

Lemma collapse_inRun_startsInk (s : str) :
  startsInk (collapse isSpace [blank] true s) = true.
Proof.
  induction s as [|c s IH]; simpl; [reflexivity|].
  destruct (isSpace c) eqn:Hc; [exact IH|]. simpl. now rewrite Hc.
Qed.

Lemma noDouble_cons (a : ascii) (s : str) :
  noDouble (a :: s) = (negb (isSpace a) || startsInk s) && noDouble s.
Proof.
  destruct s as [|b s]; simpl.
  - now rewrite orb_true_r.
  - now rewrite negb_andb.
Qed.

Lemma collapse_noDouble (inRun : bool) (s : str) :
  noDouble (collapse isSpace [blank] inRun s) = true.
Proof.
  revert inRun. induction s as [|c s IH]; intros inRun; [reflexivity|].
  cbn [collapse]. destruct (isSpace c) eqn:Hc.
  - destruct inRun; [apply IH|]. cbn [app]. rewrite noDouble_cons.
    now rewrite collapse_inRun_startsInk, orb_true_r, IH.
  - rewrite noDouble_cons. now rewrite Hc, IH.
Qed.

Lemma dropSpaces_suffix (s : str) : exists a, s = a ++ dropSpaces s.
Proof.
  induction s as [|c s [a IH]]; simpl.
  - now exists [].
  - destruct (isSpace c); [|now exists []]. exists (c :: a). simpl. now rewrite <- IH.
Qed.

Lemma dropSpaces_startsInk (s : str) : startsInk (dropSpaces s) = true.
Proof.
  induction s as [|c s IH]; simpl; [reflexivity|].
  destruct (isSpace c) eqn:Hc; [exact IH|]. simpl. now rewrite Hc.
Qed.

(** [trim s] is a piece of [s]. *)
Lemma trim_infix (s : str) : exists a b, s = a ++ trim s ++ b.
Proof.
  unfold trim. destruct (dropSpaces_suffix s) as [a Ha].
  destruct (dropSpaces_suffix (rev (dropSpaces s))) as [b Hb].
  exists a, (rev b). rewrite <- rev_app_distr, <- Hb, rev_involutive. exact Ha.
Qed.

Lemma trim_prefix (s : str) : exists b, dropSpaces s = trim s ++ b.
Proof.
  unfold trim. destruct (dropSpaces_suffix (rev (dropSpaces s))) as [b Hb].
  exists (rev b). now rewrite <- rev_app_distr, <- Hb, rev_involutive.
Qed.

Lemma noDouble_app (a b : str) : noDouble (a ++ b) = true -> noDouble a = true /\ noDouble b = true.
Proof.
  induction a as [|x a IH]; intros H; [now split|].
  cbn [app] in H. rewrite noDouble_cons in H. apply andb_true_iff in H as [Hx H].
  destruct (IH H) as [Ha Hb]. split; [|exact Hb].
  rewrite noDouble_cons, Ha, andb_true_r.
  destruct a; [apply orb_true_r | exact Hx].
Qed.

(** Trimming a string whose white space is collapsed leaves it tidy. *)
Lemma trim_collapse_tidy (s : str) :
  tidy (trim (replaceAll spaces [blank] s)) = true.
Proof.
  unfold spaces, space. rewrite replaceAll_class.
  set (u := collapse isSpace [blank] false s).
  destruct (trim_infix u) as (a & b & Hu).
  pose proof (collapse_blanks false s) as Hb. fold u in Hb.
  pose proof (collapse_noDouble false s) as Hd. fold u in Hd.
  unfold tidy. rewrite Hu in Hb, Hd.
  rewrite forallb_app in Hb. apply andb_true_iff in Hb as [_ Hb].
  rewrite forallb_app in Hb. apply andb_true_iff in Hb as [Hb _].
  apply noDouble_app in Hd as [_ Hd]. apply noDouble_app in Hd as [Hd _].
  rewrite Hb, Hd. cbn [andb].
  assert (startsInk (trim u) = true) as Hs.
  { destruct (trim_prefix u) as [b' Hp]. pose proof (dropSpaces_startsInk u) as H.
    rewrite Hp in H. destruct (trim u); [reflexivity | exact H]. }
  rewrite Hs. cbn [andb]. unfold trim. rewrite rev_involutive.
  apply dropSpaces_startsInk.
Qed.

End ClassRuns.

(** ** The classifier: more on the clauses it returns *)

Module ClassifierMore.
Import Regex Classifier Examples ClassifierProps RegexMore.

(** The window of a clause found for the hit [(j, m)] of one of the
    patterns of its type in the document [t]: it starts 200 characters
    before the hit, or at the start of the document, and ends 200 characters
    after the hit, or at the end of the document. *)
Definition cutFrom (t : str) (c : ClauseMatch) : Prop :=
  exists pattern j m,
    In pattern (CLAUSE_PATTERNS (type c))
    /\ In (j, m) (matchAll pattern t)
    /\ startIndex c = Z.max 0 (Z.of_nat j - 200)
    /\ endIndex c = Z.min (Z.of_nat (length t)) (Z.of_nat (j + length m) + 200)
    /\ (Z.of_nat j - 200 <= startIndex c <= Z.of_nat j)%Z
    /\ (Z.of_nat (j + length m) <= endIndex c <= Z.of_nat (j + length m) + 200)%Z.

Definition wellFormed (t : str) (c : ClauseMatch) : Prop :=
  (0 <= startIndex c <= endIndex c)%Z
  /\ (endIndex c <= Z.of_nat (length t))%Z
  /\ text c = trim (replaceAll spaces (lit " ")
                      (slice (Z.to_nat (startIndex c)) (Z.to_nat (endIndex c)) t))
  /\ (50 <= length (text c))%nat
  /\ explanation c = generateExplanation (type c) (riskLevel c).

(** Two clauses that differ at most in risk level and explanation. *)
Definition sameButRisk (a b : ClauseMatch) : Prop :=
  type a = type b /\ text a = text b /\ confidence a = confidence b
  /\ startIndex a = startIndex b /\ endIndex a = endIndex b.

(** Two clauses of one type start at least 100 characters apart. *)
Definition apart (a b : ClauseMatch) : Prop :=
  type a = type b -> (100 <= Z.abs (startIndex a - startIndex b))%Z.

Lemma clauseOfMatch_shape (random : nat -> Q) (t : str) (ty : ClauseType)
    (j : nat) (m : str) (n : nat) :
  (j + length m <= length t)%nat ->
  Forall (fun c => type c = ty /\ wellFormed t c
                   /\ startIndex c = Z.max 0 (Z.of_nat j - 200)
                   /\ endIndex c
                      = Z.min (Z.of_nat (length t)) (Z.of_nat (j + length m) + 200)
                   /\ (Z.of_nat j - 200 <= startIndex c <= Z.of_nat j)%Z
                   /\ (Z.of_nat (j + length m) <= endIndex c
                       <= Z.of_nat (j + length m) + 200)%Z)
    (fst (clauseOfMatch random t ty (j, m) n)).
Proof.
  intros Hb. unfold clauseOfMatch. cbn [fst snd].
  set (contextStart := Z.max 0 (Z.of_nat j - 200)).
  set (contextEnd := Z.min (Z.of_nat (length t))
                       (Z.of_nat j + Z.of_nat (length m) + 200)).
  set (contextText := trim (replaceAll spaces (lit " ")
                              (slice (Z.to_nat contextStart) (Z.to_nat contextEnd) t))).
  destruct (Nat.ltb_spec (length contextText) 50) as [|Hlen]; [constructor|].
  unfold bind, ret.
  destruct (assessRisk random contextText ty n) as [rl n'].
  constructor; [|constructor]. cbn [type text confidence startIndex endIndex
                                    riskLevel explanation].
  unfold wellFormed. cbn [type text confidence startIndex endIndex
                          riskLevel explanation].
  subst contextStart contextEnd. repeat split; try reflexivity; lia.
Qed.

Lemma allClauses_shape (random : nat -> Q) (t : str) (n : nat) :
  Forall (fun c => wellFormed t c /\ cutFrom t c) (fst (allClausesOf random t n)).
Proof.
  unfold allClausesOf. apply flatMapR_Forall. intros ty n1 _.
  unfold classifyClause. apply flatMapR_Forall. intros pattern n2 Hp.
  apply flatMapR_Forall. intros [j m] n3 Hhit.
  pose proof (matchAll_bounds _ _ _ _ Hhit) as Hb.
  eapply Forall_impl; [|apply (clauseOfMatch_shape random t ty j m n3 Hb)].
  intros c (Hty & Hwf & H1 & H2 & H3 & H4). split; [exact Hwf|].
  exists pattern, j, m. rewrite Hty. repeat split; try assumption; lia.
Qed.

(** X10: every clause that [classifyDocument] returns is cut from the
    document around a hit of one of the patterns of its type: its window
    lies inside the document, contains the hit and at most 200 characters on
    either side of it, exactly 200 unless the document starts or ends
    before; its text is the window with white space collapsed and trimmed
    and is at least 50 characters long; its explanation is that of its type
    and risk level. *)
Theorem clause_well_formed (random : nat -> Q) (t : str) (n : nat) (c : ClauseMatch) :
  In c (clauses (fst (classifyDocument random t n))) ->
  wellFormed t c /\ cutFrom t c.
Proof.
  intros H. rewrite classifyDocument_clauses in H. apply unique_incl in H.
  pose proof (allClauses_shape random t n) as Hall.
  rewrite Forall_forall in Hall. now apply Hall.
Qed.

Lemma clause_well_formed_witness :
  let cs := clauses (fst (classifyDocument noDraws termsDocument 0%nat)) in
  let c := nth 0 cs (mkClause termination [] 0 0 0 low []) in
  In c cs /\ wellFormed termsDocument c /\ cutFrom termsDocument c.
Proof.
  intros cs c.
  assert (In c cs) as H by (apply nth_In; vm_compute; repeat constructor).
  split; [exact H|]. exact (clause_well_formed noDraws termsDocument 0%nat c H).
Defined.

Lemma flatMapR_Forall2 (X Y : Type) (P : Y -> Y -> Prop)
    (f g : X -> Rand (list Y)) (l : list X) (n m : nat) :
  (forall x n' m', Forall2 P (fst (f x n')) (fst (g x m'))) ->
  Forall2 P (fst (flatMapR f l n)) (fst (flatMapR g l m)).
Proof.
  intros Hfg. revert n m. induction l as [|x l IH]; intros n m; simpl.
  - constructor.
  - unfold bind, ret. pose proof (Hfg x n m) as Hx.
    destruct (f x n) as [ys n1]. destruct (g x m) as [ys' m1].
    pose proof (IH n1 m1) as Hl.
    destruct (flatMapR f l n1) as [zs n2]. destruct (flatMapR g l m1) as [zs' m2].
    simpl in *. now apply Forall2_app.
Qed.

Lemma allClauses_sameButRisk (random1 random2 : nat -> Q) (t : str) (n1 n2 : nat) :
  Forall2 sameButRisk (fst (allClausesOf random1 t n1))
    (fst (allClausesOf random2 t n2)).
Proof.
  unfold allClausesOf. apply flatMapR_Forall2. intros ty m1 m2.
  unfold classifyClause. apply flatMapR_Forall2. intros pattern m3 m4.
  apply flatMapR_Forall2. intros hit m5 m6.
  unfold clauseOfMatch.
  match goal with |- context [if ?b then _ else _] => destruct b end.
  - constructor.
  - unfold bind, ret.
    match goal with
    | |- context [assessRisk random1 ?x ?y m5] => destruct (assessRisk random1 x y m5)
    end.
    match goal with
    | |- context [assessRisk random2 ?x ?y m6] => destruct (assessRisk random2 x y m6)
    end.
    constructor; [|constructor]. repeat split.
Qed.

Lemma findIndex_Forall2 (X : Type) (p q : X -> bool) (l l' : list X) :
  Forall2 (fun a b => p a = q b) l l' -> findIndex p l = findIndex q l'.
Proof.
  induction 1 as [|a b l l' Hab _ IH]; simpl; [reflexivity|].
  rewrite Hab, IH. reflexivity.
Qed.

Lemma filteri_from_Forall2 (X : Type) (P : X -> X -> Prop) (p q : X -> nat -> bool)
    (l l' : list X) (i : nat) :
  (forall a b k, P a b -> p a k = q b k) ->
  Forall2 P l l' -> Forall2 P (filteri_from i p l) (filteri_from i q l').
Proof.
  intros Hpq H. revert i. induction H as [|a b l l' Hab _ IH]; intros i; simpl.
  - constructor.
  - rewrite (Hpq a b i Hab). destruct (q b i); [constructor; [exact Hab|]|]; apply IH.
Qed.

Lemma near_sameButRisk (a b c d : ClauseMatch) :
  sameButRisk a b -> sameButRisk c d -> near a c = near b d.
Proof.
  intros (Ht & _ & _ & Hs & _) (Ht' & _ & _ & Hs' & _).
  unfold near. now rewrite Ht, Hs, Ht', Hs'.
Qed.

Lemma dedupe_sameButRisk (l l' : list ClauseMatch) :
  Forall2 sameButRisk l l' -> Forall2 sameButRisk (dedupe l) (dedupe l').
Proof.
  intros H. unfold dedupe, filteri. apply filteri_from_Forall2; [|exact H].
  intros a b k Hab.
  rewrite (findIndex_Forall2 _ (near a) (near b) l l'); [reflexivity|].
  eapply Forall2_impl; [|exact H]. intros c d Hcd. now apply near_sameButRisk.
Qed.

Lemma insert_Forall2 (X : Type) (P : X -> X -> Prop) (le0 : X -> X -> bool)
    (x y : X) (l l' : list X) :
  (forall a b c d, P a b -> P c d -> le0 a c = le0 b d) ->
  P x y -> Forall2 P l l' -> Forall2 P (insert le0 x l) (insert le0 y l').
Proof.
  intros Hle Hxy H. induction H as [|a b l l' Hab Hl IH]; simpl.
  - constructor; [exact Hxy | constructor].
  - rewrite (Hle x y a b Hxy Hab). destruct (le0 y b).
    + constructor; [exact Hxy|]. constructor; assumption.
    + constructor; assumption.
Qed.

Lemma sort_Forall2 (X : Type) (P : X -> X -> Prop) (le0 : X -> X -> bool)
    (l l' : list X) :
  (forall a b c d, P a b -> P c d -> le0 a c = le0 b d) ->
  Forall2 P l l' -> Forall2 P (sort le0 l) (sort le0 l').
Proof.
  intros Hle. induction 1 as [|a b l l' Hab _ IH]; simpl.
  - constructor.
  - now apply insert_Forall2.
Qed.

Lemma firstn_Forall2 (X : Type) (P : X -> X -> Prop) (k : nat) (l l' : list X) :
  Forall2 P l l' -> Forall2 P (firstn k l) (firstn k l').
Proof.
  intros H. revert k. induction H as [|a b l l' Hab _ IH]; intros [|k]; simpl;
    constructor; [exact Hab | apply IH].
Qed.

(** X11: the random draws decide nothing but risk levels: whatever the
    draws, [classifyDocument] returns for a document the same clauses in
    the same order, up to the risk level and the explanation of each. *)
Theorem draws_only_change_risk (random1 random2 : nat -> Q) (t : str) (n1 n2 : nat) :
  Forall2 sameButRisk
    (clauses (fst (classifyDocument random1 t n1)))
    (clauses (fst (classifyDocument random2 t n2))).
Proof.
  rewrite !classifyDocument_clauses. unfold uniqueClausesOf.
  apply firstn_Forall2, sort_Forall2.
  - intros a b c d (_ & _ & Hab & _) (_ & _ & Hcd & _).
    unfold byConfidence. now rewrite Hab, Hcd.
  - apply dedupe_sameButRisk, allClauses_sameButRisk.
Qed.

Lemma near_sym (a b : ClauseMatch) : near a b = near b a.
Proof.
  unfold near. f_equal.
  - replace (startIndex b - startIndex a)%Z
      with (- (startIndex a - startIndex b))%Z by lia.
    now rewrite Z.abs_opp.
  - now destruct (type a), (type b).
Qed.

Lemma near_apart (a b : ClauseMatch) : near a b = false -> apart a b.
Proof.
  unfold near, apart. intros H Hty.
  apply andb_false_iff in H as [H|H].
  - apply Z.ltb_ge in H.
    replace (startIndex a - startIndex b)%Z
      with (- (startIndex b - startIndex a))%Z by lia.
    now rewrite Z.abs_opp.
  - rewrite Hty in H. now destruct (type b).
Qed.

Lemma firstOfItsKind_from (l1 l2 : list ClauseMatch) :
  let kept :=
    filteri_from (length l1)
      (fun clause index =>
         forallb (fun c => negb (near clause c)) (firstn index (l1 ++ l2)))
      l2 in
  ForallOrdPairs (fun a b => near a b = false) kept
  /\ Forall (fun b => forall a, In a l1 -> near b a = false) kept.
Proof.
  revert l1. induction l2 as [|x l2 IH]; intros l1; simpl.
  - split; constructor.
  - specialize (IH (l1 ++ [x])). rewrite <- app_assoc, length_app in IH.
    simpl in IH. rewrite Nat.add_1_r in IH. destruct IH as [IH1 IH2].
    assert (Forall (fun b => forall a, In a l1 -> near b a = false)
              (filteri_from (S (length l1))
                 (fun clause index =>
                    forallb (fun c => negb (near clause c))
                      (firstn index (l1 ++ x :: l2))) l2)) as Hrest.
    { eapply Forall_impl; [|exact IH2]. intros b Hb a Ha.
      apply Hb, in_or_app. now left. }
    rewrite firstn_app, Nat.sub_diag, firstn_all. simpl firstn. rewrite app_nil_r.
    destruct (forallb (fun c => negb (near x c)) l1) eqn:E; [|now split].
    split.
    + constructor; [|exact IH1].
      eapply Forall_impl; [|exact IH2]. intros b Hb. rewrite near_sym.
      apply Hb, in_or_app. right. now left.
    + constructor; [|exact Hrest].
      intros a Ha. rewrite forallb_forall in E. apply E in Ha.
      now apply negb_true_iff in Ha.
Qed.

Lemma ordPairs_perm (X : Type) (R : X -> X -> Prop) (l l' : list X) :
  (forall a b, R a b -> R b a) ->
  Permutation l l' -> ForallOrdPairs R l -> ForallOrdPairs R l'.
Proof.
  intros Hsym. induction 1 as [|x l l' Hp IH|x y l|l l' l'' _ IH1 _ IH2]; intros H.
  - constructor.
  - inversion H as [|? ? Hx Hl]; subst. constructor; [|now apply IH].
    rewrite Forall_forall in *. intros b Hb. apply Hx.
    now apply Permutation_in with l'; [apply Permutation_sym|].
  - inversion H as [|? ? Hy Hl]; subst. inversion Hl as [|? ? Hx Hl']; subst.
    inversion Hy as [|? ? Hyx Hy']; subst.
    constructor; [constructor; [now apply Hsym | exact Hx]|].
    constructor; assumption.
  - auto.
Qed.

Lemma ordPairs_firstn (X : Type) (R : X -> X -> Prop) (k : nat) (l : list X) :
  ForallOrdPairs R l -> ForallOrdPairs R (firstn k l).
Proof.
  intros H. revert k. induction H as [|x l Hx _ IH]; intros [|k]; simpl;
    try constructor; [|apply IH].
  rewrite Forall_forall in *. intros b Hb. apply Hx. now apply In_firstn in Hb.
Qed.

(** X12: no two clauses that [classifyDocument] returns have the same type
    and start offsets less than 100 apart. *)
Theorem returned_clauses_apart (random : nat -> Q) (t : str) (n : nat) :
  ForallOrdPairs apart (clauses (fst (classifyDocument random t n))).
Proof.
  rewrite classifyDocument_clauses. unfold uniqueClausesOf.
  rewrite dedupe_firstOfItsKind.
  assert (ForallOrdPairs (fun a b => near a b = false)
            (firstn 20 (sort byConfidence
                          (firstOfItsKind (fst (allClausesOf random t n)))))) as H.
  { apply ordPairs_firstn.
    apply ordPairs_perm with (l := firstOfItsKind (fst (allClausesOf random t n))).
    - intros a b Hab. now rewrite near_sym.
    - apply Permutation_sym, sort_perm.
    - exact (proj1 (firstOfItsKind_from [] (fst (allClausesOf random t n)))). }
  induction H as [|x l Hx _ IH]; constructor; [|exact IH].
  eapply Forall_impl; [|exact Hx]. intros b. apply near_apart.
Qed.

Definition mentionsAny (keywords : list str) (t : str) : bool :=
  existsb (includes (toLowerCase t)) keywords.

Lemma assessRisk_keywords (random : nat -> Q) (t : str) (ty : ClauseType) (n : nat) :
  (mentionsAny (RISK_KEYWORDS high) t = true ->
   assessRisk random t ty n = (high, n))
  /\ (mentionsAny (RISK_KEYWORDS high) t = false ->
      mentionsAny (RISK_KEYWORDS medium) t = true ->
      assessRisk random t ty n = (medium, n)).
Proof.
  unfold mentionsAny, assessRisk. split.
  - intros H. rewrite H. reflexivity.
  - intros H H'. rewrite H, H'. reflexivity.
Qed.

Lemma allClauses_risk (random : nat -> Q) (t : str) (n : nat) :
  Forall (fun c => exists m, riskLevel c = fst (assessRisk random (text c) (type c) m))
    (fst (allClausesOf random t n)).
Proof.
  unfold allClausesOf. apply flatMapR_Forall. intros ty n1 _.
  unfold classifyClause. apply flatMapR_Forall. intros pattern n2 _.
  apply flatMapR_Forall. intros hit n3 _.
  unfold clauseOfMatch.
  match goal with |- context [if ?b then _ else _] => destruct b end.
  - constructor.
  - unfold bind, ret.
    match goal with
    | |- context [assessRisk random ?x ?y n3] =>
        destruct (assessRisk random x y n3) as [rl n'] eqn:E
    end.
    constructor; [|constructor]. cbn [riskLevel text type fst].
    exists n3. now rewrite E.
Qed.

(** X13: the keyword rules come before the draws: a clause that
    [classifyDocument] returns is high-risk whenever its text contains one of
    the high-risk keywords, in any letter case, and medium-risk whenever it
    contains none of these but one of the medium-risk keywords, whatever its
    type and whatever the draws. *)
Theorem keywords_decide_risk (random : nat -> Q) (t : str) (n : nat) (c : ClauseMatch) :
  In c (clauses (fst (classifyDocument random t n))) ->
  (mentionsAny (RISK_KEYWORDS high) (text c) = true -> riskLevel c = high)
  /\ (mentionsAny (RISK_KEYWORDS high) (text c) = false ->
      mentionsAny (RISK_KEYWORDS medium) (text c) = true -> riskLevel c = medium).
Proof.
  intros H. rewrite classifyDocument_clauses in H. apply unique_incl in H.
  pose proof (allClauses_risk random t n) as Hall.
  rewrite Forall_forall in Hall. destruct (Hall c H) as [m Hm].
  destruct (assessRisk_keywords random (text c) (type c) m) as [Hhigh Hmedium].
  split.
  - intros Hk. now rewrite Hm, (Hhigh Hk).
  - intros Hk Hk'. now rewrite Hm, (Hmedium Hk Hk').
Qed.

Lemma keywords_decide_risk_witness :
  let cs := clauses (fst (classifyDocument noDraws termsDocument 0%nat)) in
  let c := nth 0 cs (mkClause termination [] 0 0 0 low []) in
  In c cs /\ mentionsAny (RISK_KEYWORDS high) (text c) = true /\ riskLevel c = high.
Proof.
  intros cs c.
  assert (In c cs) as H by (apply nth_In; vm_compute; repeat constructor).
  assert (mentionsAny (RISK_KEYWORDS high) (text c) = true) as Hk
    by (vm_compute; reflexivity).
  split; [exact H|]. split; [exact Hk|].
  exact (proj1 (keywords_decide_risk noDraws termsDocument 0%nat c H) Hk).
Defined.

(** X14: the text of every clause that [classifyDocument] returns is
    tidy: its only white space is single blanks between other characters;
    it has no tab, line break or other space character, no two blanks in a
    row, and no blank at either end. *)
Theorem clause_text_tidy (random : nat -> Q) (t : str) (n : nat) (c : ClauseMatch) :
  In c (clauses (fst (classifyDocument random t n))) ->
  ClassRuns.tidy (text c) = true.
Proof.
  intros H. rewrite classifyDocument_clauses in H. apply unique_incl in H.
  pose proof (allClauses_shape random t n) as Hall.
  rewrite Forall_forall in Hall. destruct (Hall c H) as [(_ & _ & Htext & _) _].
  rewrite Htext. exact (ClassRuns.trim_collapse_tidy _).
Qed.

Lemma clause_text_tidy_witness :
  let cs := clauses (fst (classifyDocument noDraws termsDocument 0%nat)) in
  let c := nth 0 cs (mkClause termination [] 0 0 0 low []) in
  In c cs /\ ClassRuns.tidy (text c) = true.
Proof.
  intros cs c.
  assert (In c cs) as H by (apply nth_In; vm_compute; repeat constructor).
  split; [exact H|]. exact (clause_text_tidy noDraws termsDocument 0%nat c H).
Defined.

End ClassifierMore.

(** ** The summarizer: when it falls back, and what a result looks like *)

Module SummarizerMore.
Import Regex Classifier Summarizer Examples SummarizerProps.


(** X15: the summarizer falls back exactly for a document that has no
    sentence of more than 15 characters and yet a term to preserve; the
    fallback then finds no sentence of more than 20 characters either, so its
    summary is the bare "." and it has no key points. *)
Theorem fallback_is_degenerate (random : nat -> Q) (t : str) (n : nat) :
  let r := fst (generateAbstractiveSummary random t n) in
  (method r = rule_based
   <-> sentencesOver 15 t = []
       /\ preserveOriginalTerms t (extractLegalThemes t) <> [])
  /\ (method r = rule_based -> summary r = lit "." /\ keyPoints r = []).
Proof.
  intros r. subst r.
  pose proof (generate_cases random t n) as Hg.
  pose proof (body_cases random t n) as Hb. cbv zeta in Hb.
  destruct (fst (abstractiveBody random t n)) as [r|e]; rewrite Hg.
  - destruct Hb as (Hterms & Hm & _). rewrite Hm. split.
    + split; [discriminate|]. intros [Hs Hne]. now specialize (Hterms Hs).
    + discriminate.
  - destruct Hb as (_ & Hs & Hne). split.
    + split; [now intros _ | reflexivity].
    + intros _. unfold fallbackSummary. fold (sentencesOver 20 t).
      rewrite (sentencesOver_mono 15 20 t) by (try lia; exact Hs).
      split; reflexivity.
Qed.

Lemma calculateConfidence_bounds (themes : list (str * nat)) (sentences : list str) :
  1 # 2 <= calculateConfidence themes sentences <= 85 # 100.
Proof.
  unfold calculateConfidence. split; [|apply ClassifierProps.Math_min_r].
  apply ClassifierProps.Math_min_glb; [|lra].
  repeat match goal with |- context [if ?b then _ else _] => destruct b end; lra.
Qed.

(** X16: the confidence of every result of the summarizer lies between
    0.5 and 0.85. *)
Theorem summary_confidence_bounds (random : nat -> Q) (t : str) (n : nat) :
  let r := fst (generateAbstractiveSummary random t n) in
  1 # 2 <= confidence r <= 85 # 100.
Proof.
  intros r. subst r.
  pose proof (generate_cases random t n) as Hg.
  pose proof (body_cases random t n) as Hb. cbv zeta in Hb.
  destruct (fst (abstractiveBody random t n)) as [r|e]; rewrite Hg.
  - destruct Hb as (_ & _ & Hc & _). rewrite Hc. apply calculateConfidence_bounds.
  - simpl. lra.
Qed.

Lemma preserveOriginalTerms_NoDup (t : str) (themes : list (str * nat)) :
  NoDup (preserveOriginalTerms t themes)
  /\ (length (preserveOriginalTerms t themes) <= 20)%nat.
Proof.
  unfold preserveOriginalTerms. split.
  - apply NoDup_firstn, uniq_NoDup.
  - apply firstn_le_length.
Qed.

(** X17: the terms a result lists as preserved are pairwise different and
    at most 20. *)
Theorem preserved_terms_distinct (random : nat -> Q) (t : str) (n : nat) :
  let r := fst (generateAbstractiveSummary random t n) in
  NoDup (originalTermsPreserved r) /\ (length (originalTermsPreserved r) <= 20)%nat.
Proof.
  intros r. subst r.
  pose proof (generate_cases random t n) as Hg.
  pose proof (body_cases random t n) as Hb. cbv zeta in Hb.
  destruct (fst (abstractiveBody random t n)) as [r|e]; rewrite Hg.
  - destruct Hb as (_ & _ & _ & Ht & _). rewrite Ht. apply preserveOriginalTerms_NoDup.
  - simpl. split; [constructor | lia].
Qed.

(** X18: a result that is not a fallback has between one and seven
    detailed sections, ordered from high to low importance, each quoting at
    most three sentences; a fallback result has none. *)
Theorem detailed_sections_shape (random : nat -> Q) (t : str) (n : nat) :
  let r := fst (generateAbstractiveSummary random t n) in
  match method r with
  | rule_based => detailedSections r = []
  | _ =>
      (1 <= length (detailedSections r) <= 7)%nat
      /\ Sorted (fun a b => (importanceOrder (importance b)
                             <= importanceOrder (importance a))%Z)
           (detailedSections r)
      /\ Forall (fun sec => (length (originalQuotes sec) <= 3)%nat) (detailedSections r)
  end.
Proof.
  intros r. subst r.
  pose proof (generate_cases random t n) as Hg.
  pose proof (body_cases random t n) as Hb. cbv zeta in Hb.
  destruct (fst (abstractiveBody random t n)) as [r|e]; rewrite Hg.
  - destruct Hb as (_ & Hm & _ & _ & Hd). rewrite Hm.
    pose proof (createDetailedSections_cases t (extractLegalThemes t)
                  (identifyRelationships t)
                  (preserveOriginalTerms t (extractLegalThemes t))) as Hc.
    rewrite Hd in Hc. destruct Hc as (_ & Hne & Hlen & Hsorted & Hq).
    pose proof (extractLegalThemes_length t).
    split; [|split; assumption].
    assert (1 <= length (detailedSections r))%nat
      by (destruct (detailedSections r); [congruence | cbn [length]; lia]).
    lia.
  - reflexivity.
Qed.

Lemma body_keyPoints (random : nat -> Q) (t : str) (n : nat)
    (r : AbstractiveSummaryResult) :
  fst (abstractiveBody random t n) = Ok r ->
  keyPoints r
  = extractKeyPointsFromOriginal (extractOriginalSentences t) (extractLegalThemes t)
      (identifyRelationships t).
Proof.
  unfold abstractiveBody.
  destruct (createDetailedSections _ _ _ _) as [sections|e]; [|discriminate].
  unfold bind, ret.
  destruct (createSummaryFromOriginalSentences _ _ _ _ n) as [s n'].
  cbn [fst]. intros H. injection H as <-. reflexivity.
Qed.

Lemma relationPoint_appends (relationships : list (str * list str))
    (keyPoints : list str) :
  exists more, fold_left relationPoint relationships keyPoints = keyPoints ++ more.
Proof.
  revert keyPoints. induction relationships as [|[kind rels] l IH]; intros keyPoints.
  - exists []. simpl. now rewrite app_nil_r.
  - cbn [fold_left]. destruct (IH (relationPoint keyPoints (kind, rels))) as [more E].
    rewrite E. unfold relationPoint. destruct rels as [|relationship rels'].
    + now exists more.
    + destruct ((length keyPoints <? 8)%nat && (length relationship <? 100)%nat).
      * eexists. now rewrite <- app_assoc.
      * now exists more.
Qed.

Lemma nth_error_mapi_from (X Y : Type) (f : X -> nat -> Y) (l : list X) (k i : nat) :
  nth_error (mapi_from k f l) i = option_map (fun x => f x (k + i)%nat) (nth_error l i).
Proof.
  revert k i. induction l as [|x l IH]; intros k [|i]; simpl; try reflexivity.
  - now rewrite Nat.add_0_r.
  - rewrite IH. now rewrite Nat.add_succ_r.
Qed.

(** X19: the first key points of a result that is not a fallback quote
    the document: each of the first three key points, as far as the document
    has sentences, is one of its sentences of more than 15 characters,
    trimmed and otherwise word for word. *)
Theorem first_key_points_are_quotes (random : nat -> Q) (t : str) (n i : nat) :
  let r := fst (generateAbstractiveSummary random t n) in
  method r = hybrid ->
  (i < 3)%nat -> (i < length (extractOriginalSentences t))%nat ->
  exists s,
    nth_error (keyPoints r) i = Some s
    /\ In s (extractOriginalSentences t)
    /\ In s (map trim (split sentenceEnd t))
    /\ (15 < length s)%nat.
Proof.
  intros r Hm Hi Hlen. subst r.
  pose proof (generate_cases random t n) as Hg.
  destruct (fst (abstractiveBody random t n)) as [r|e] eqn:E; rewrite Hg in *;
    [|discriminate].
  rewrite (body_keyPoints random t n r E). unfold extractKeyPointsFromOriginal.
  set (originalSentences := extractOriginalSentences t) in *.
  set (scored := map (fun s => (s, scoreSentenceImportance s (extractLegalThemes t) []))
                   originalSentences).
  set (top := firstn 6 (sort (fun a b : str * Q => Qle_bool (snd b - snd a) 0) scored)).
  assert (i < length top)%nat as Htop.
  { unfold top, scored. rewrite length_firstn, length_sort, length_map. lia. }
  destruct (nth_error top i) as [entry|] eqn:Eentry;
    [|apply nth_error_None in Eentry; lia].
  assert (In (fst entry) originalSentences) as Hin.
  { apply nth_error_In in Eentry. unfold top in Eentry.
    apply In_firstn, In_sort in Eentry. unfold scored in Eentry.
    apply in_map_iff in Eentry as (s & <- & Hs). exact Hs. }
  exists (fst entry). split; [|split; [exact Hin|]].
  - match goal with
    | |- context [fold_left relationPoint ?rels ?kp] =>
        destruct (relationPoint_appends rels kp) as [more Emore]; rewrite Emore
    end.
    unfold padTo5. rewrite nth_error_firstn.
    destruct (Nat.ltb_spec i 8) as [_|]; [|lia].
    unfold mapi. rewrite <- app_assoc, nth_error_app1
      by (rewrite length_mapi_from; exact Htop).
    rewrite nth_error_mapi_from, Eentry. cbn [option_map].
    destruct (Nat.ltb_spec (0 + i) 3) as [_|]; [reflexivity | lia].
  - unfold originalSentences, extractOriginalSentences in Hin.
    apply filter_In in Hin as [Hin _]. apply filter_In in Hin as [Hin Hlong].
    split; [exact Hin | now apply Nat.ltb_lt in Hlong].
Qed.

Lemma first_key_points_are_quotes_witness :
  exists s,
    nth_error (keyPoints (fst (generateAbstractiveSummary noDraws contractDocument 0%nat)))
      0 = Some s
    /\ (15 < length s)%nat.
Proof.
  assert (method (fst (generateAbstractiveSummary noDraws contractDocument 0%nat))
          = hybrid) as Hm by (vm_compute; reflexivity).
  assert (0 < 3)%nat as Hi by lia.
  assert (0 < length (extractOriginalSentences contractDocument))%nat as Hlen
    by (vm_compute; repeat constructor).
  destruct (first_key_points_are_quotes noDraws contractDocument 0%nat 0%nat Hm Hi Hlen)
    as (s & Hs & _ & _ & Hlong).
  exists s. split; assumption.
Defined.

End SummarizerMore.

(** ** The multilingual summarizer: rejected input, English, and
    translations that succeed *)

Module MultilingualMore.
Import Regex Multilingual Examples MultilingualProps.

Section WithTranslator.

Variable translateText : list Call -> str -> str -> Result str.
Variable getLanguageName : str -> str.

(** The statistics of one entry of the result for the document [t]. *)
Definition statisticsOk (t : str) (sr : SummaryResult) : Prop :=
  language sr = getLanguageName (languageCode sr)
  /\ wordCount sr = countWords (summary sr)
  /\ originalLength sr = countWords t
  /\ compressionRatio sr
     = if (0 <? countWords t)%nat
       then Binary64.Math_round
              (Binary64.mul
                 (Binary64.div (Binary64.ofNat (wordCount sr))
                    (Binary64.ofNat (countWords t)))
                 (Binary64.ofZ 100))
       else Binary64.zero.

(** The ratio of 41 words to 40 is 102, not 103: the quotient is the
    binary64 number just below 1.025, and one hundred times it is
    102.49999999999999. *)
Lemma compressionRatio_41_of_40 :
  Binary64.Math_round
    (Binary64.mul (Binary64.div (Binary64.ofNat 41) (Binary64.ofNat 40))
       (Binary64.ofZ 100))
  = Binary64.ofZ 102.
Proof. vm_compute. reflexivity. Qed.

Lemma mapT_Forall (X Y : Type) (P : Y -> Prop) (f : X -> Tr Y) (l : list X)
    (log : list Call) :
  (forall x log', P (fst (f x log'))) -> Forall P (fst (mapT f l log)).
Proof.
  intros Hf. revert log. induction l as [|x l IH]; intros log; simpl.
  - constructor.
  - unfold bind, ret. pose proof (Hf x log) as Hx.
    destruct (f x log) as [y log1]. pose proof (IH log1) as Hl.
    destruct (mapT f l log1) as [ys log2]. simpl in *. now constructor.
Qed.

Lemma summaryFor_entry (t englishSummary : str) (keyPoints : list str) (langCode : str)
    (log : list Call) :
  let sr :=
    fst (summaryFor translateText getLanguageName t englishSummary keyPoints langCode
           log) in
  statisticsOk t sr
  /\ (languageCode sr = lit "en" ->
      summary sr = englishSummary /\ Multilingual.keyPoints sr = keyPoints).
Proof.
  intros sr. subst sr. unfold summaryFor.
  destruct (str_eqb langCode (lit "en")) eqn:Hen.
  - unfold bind, ret. cbn [fst]. unfold statisticsOk.
    cbn [language languageCode summary Multilingual.keyPoints wordCount
         originalLength compressionRatio].
    repeat split.
  - unfold bind.
    destruct (translateWithFallback translateText getLanguageName englishSummary
                langCode log) as [s log1].
    destruct (mapT (fun point =>
                      translateWithFallback translateText getLanguageName point langCode)
                keyPoints log1) as [ps log2].
    unfold ret. cbn [fst]. unfold statisticsOk.
    cbn [language languageCode summary Multilingual.keyPoints wordCount
         originalLength compressionRatio].
    split; [repeat split|].
    intros Hcode. apply str_eqb_eq in Hcode. congruence.
Qed.

Lemma pointsOutcome_length (log : list Call) (keyPoints : list str) (langCode : str) :
  length (pointsOutcome translateText getLanguageName log keyPoints langCode)
  = length keyPoints.
Proof.
  revert log. induction keyPoints as [|p ps IH]; intros log; simpl; [reflexivity|].
  now rewrite IH.
Qed.

Lemma generate_ok (random : nat -> Q) (t : str) (languages : list str)
    (draws : nat) (log : list Call) :
  isBlank t = false -> (50 <= length t)%nat -> languages <> [] ->
  exists ms,
    fst (generateMultilingualSummary translateText getLanguageName random t languages
           draws log) = Ok ms
    /\ map languageCode (summaries ms) = languages.
Proof.
  intros Hblank Hlen Hlangs. unfold generateMultilingualSummary. rewrite Hblank.
  destruct (Nat.ltb_spec (length t) 50) as [|_]; [lia|].
  set (english := fst (Summarizer.generateAbstractiveSummary random t draws)).
  destruct (summariesFor_spec translateText getLanguageName t
              (Summarizer.summary english) (Summarizer.keyPoints english)
              languages log) as (srs & E & Hcodes & _).
  unfold bind. rewrite E.
  destruct srs as [|sr srs].
  - destruct languages; [congruence | discriminate].
  - exists (mkMultilingual (sr :: srs)). split; [reflexivity | exact Hcodes].
Qed.

Lemma generate_short (random : nat -> Q) (t : str) (languages : list str)
    (draws : nat) (log : list Call) :
  (length t < 50)%nat ->
  exists e,
    fst (generateMultilingualSummary translateText getLanguageName random t languages
           draws log) = Throw e.
Proof.
  intros Hlen. unfold generateMultilingualSummary.
  destruct (isBlank t); [eexists; reflexivity|].
  destruct (Nat.ltb_spec (length t) 50) as [_|]; [|lia].
  eexists. reflexivity.
Qed.

(** X20: [generateMultilingualSummary] succeeds exactly for a text that is
    not blank and has at least 50 characters and a list of languages that is
    not empty. Otherwise it throws, with a message of its own for each of
    the three cases, and the translator has not been called. *)
Theorem invalid_input_is_rejected (random : nat -> Q) (t : str)
    (languages : list str) (draws : nat) (log : list Call) :
  let out :=
    generateMultilingualSummary translateText getLanguageName random t languages
      draws log in
  ((exists ms, fst out = Ok ms)
   <-> isBlank t = false /\ (50 <= length t)%nat /\ languages <> [])
  /\ (isBlank t = true ->
      out = (Throw (Failure (lit "Text is required for summary generation")), log))
  /\ (isBlank t = false -> (length t < 50)%nat ->
      out = (Throw (Failure (lit "Text is too short for meaningful summarization (minimum 50 characters)")),
             log))
  /\ (isBlank t = false -> (50 <= length t)%nat -> languages = [] ->
      out = (Throw (Failure (lit "Failed to generate any summaries")), log)).
Proof.
  intros out. subst out. unfold generateMultilingualSummary.
  destruct (isBlank t) eqn:Hblank.
  - unfold ret. cbn [fst]. split; [|repeat split; try discriminate].
    split; [intros [ms H]; discriminate | intros [H _]; discriminate].
  - destruct (Nat.ltb_spec (length t) 50) as [Hshort|Hlong].
    + unfold ret. cbn [fst]. split; [|repeat split; try discriminate; intros; lia].
      split; [intros [ms H]; discriminate | intros (_ & H & _); lia].
    + set (english := fst (Summarizer.generateAbstractiveSummary random t draws)).
      destruct (summariesFor_spec translateText getLanguageName t
                  (Summarizer.summary english) (Summarizer.keyPoints english)
                  languages log) as (srs & E & Hcodes & _).
      unfold bind. rewrite E.
      assert (length srs = length languages) as Hlen
        by (now rewrite <- Hcodes, length_map).
      destruct languages as [|lc languages].
      * destruct srs; [|discriminate]. simpl. unfold ret. rewrite app_nil_r.
        split; [|repeat split; try discriminate; intros; lia].
        split; [intros [ms H]; discriminate | intros (_ & _ & H); congruence].
      * destruct srs as [|sr srs]; [discriminate|].
        change ((length (sr :: srs) =? 0)%nat) with false. cbv iota.
        unfold ret. cbn [fst].
        split; [|repeat split; try discriminate; intros; lia].
        split; [intros _; repeat split; [assumption | discriminate] | intros _; eauto].
Qed.

(** X21: in a result of [generateMultilingualSummary], the entry of
    English carries the summary and the key points of the summarizer as
    they are, and every entry has the display name of its language code, the
    word count of its own summary, the word count of the document and the
    percentage of the two, computed in binary64 arithmetic (the quotient
    first, then times 100) and rounded by [Math.round]. *)
Theorem entries_of_a_result (random : nat -> Q) (t : str) (languages : list str)
    (draws : nat) (log : list Call) (ms : MultilingualSummary) :
  fst (generateMultilingualSummary translateText getLanguageName random t languages
         draws log) = Ok ms ->
  let english := fst (Summarizer.generateAbstractiveSummary random t draws) in
  Forall
    (fun sr =>
       statisticsOk t sr
       /\ (languageCode sr = lit "en" ->
           summary sr = Summarizer.summary english
           /\ Multilingual.keyPoints sr = Summarizer.keyPoints english))
    (summaries ms).
Proof.
  unfold generateMultilingualSummary.
  destruct (isBlank t); [discriminate|].
  destruct (length t <? 50)%nat; [discriminate|].
  intros H.
  set (english := fst (Summarizer.generateAbstractiveSummary random t draws)) in *.
  pose proof (mapT_Forall _ _
                (fun sr =>
                   statisticsOk t sr
                   /\ (languageCode sr = lit "en" ->
                       summary sr = Summarizer.summary english
                       /\ Multilingual.keyPoints sr = Summarizer.keyPoints english))
                (summaryFor translateText getLanguageName t (Summarizer.summary english)
                   (Summarizer.keyPoints english))
                languages log
                (fun x log' =>
                   summaryFor_entry t (Summarizer.summary english)
                     (Summarizer.keyPoints english) x log')) as Hall.
  unfold bind, summariesFor in H.
  destruct (mapT _ languages log) as [srs log1].
  destruct (length srs =? 0)%nat; [discriminate|].
  unfold ret in H. cbn [fst] in H. injection H as <-. exact Hall.
Qed.

(** X22: where the translator answers, its answer is what the result
    carries: for a non-English language the summary of the entry is the
    translator's answer for the English summary, and each key point is its
    answer for that key point. *)
Theorem translation_is_passed_on (random : nat -> Q) (t : str)
    (languages : list str) (draws : nat) (log : list Call) (ms : MultilingualSummary) :
  fst (generateMultilingualSummary translateText getLanguageName random t languages
         draws log) = Ok ms ->
  let english := fst (Summarizer.generateAbstractiveSummary random t draws) in
  let englishSummary := Summarizer.summary english in
  let keyPoints := Summarizer.keyPoints english in
  forall before langCode rest,
    languages = before ++ langCode :: rest ->
    str_eqb langCode (lit "en") = false ->
    let log0 := log ++ flat_map (callsFor englishSummary keyPoints) before in
    exists sr,
      nth_error (summaries ms) (length before) = Some sr
      /\ length (Multilingual.keyPoints sr) = length keyPoints
      /\ (forall answer,
            translateText log0 englishSummary langCode = Ok answer ->
            summary sr = answer)
      /\ (forall j point answer,
            nth_error keyPoints j = Some point -> isBlank point = false ->
            translateText
              (log0 ++ callsFor englishSummary (firstn j keyPoints) langCode)
              point langCode = Ok answer ->
            nth_error (Multilingual.keyPoints sr) j = Some answer).
Proof.
  unfold generateMultilingualSummary.
  destruct (isBlank t); [discriminate|].
  destruct (length t <? 50)%nat; [discriminate|].
  intros H.
  set (english := fst (Summarizer.generateAbstractiveSummary random t draws)) in *.
  set (englishSummary := Summarizer.summary english) in *.
  set (keyPoints := Summarizer.keyPoints english) in *.
  destruct (summariesFor_spec translateText getLanguageName t englishSummary keyPoints
              languages log) as (srs & E & Hcodes & Hnth).
  unfold bind in H. rewrite E in H.
  destruct (length srs =? 0)%nat; [discriminate|].
  unfold ret in H. cbn [fst] in H. injection H as <-. cbn [summaries].
  intros before langCode rest Hsplit Hen.
  set (log0 := log ++ flat_map (callsFor englishSummary keyPoints) before).
  eexists. split; [exact (Hnth before langCode rest Hsplit)|].
  destruct (summaryFor_spec translateText getLanguageName t englishSummary keyPoints
              langCode log0) as (_ & _ & Hout).
  destruct (Hout Hen) as [Hsum Hpoints]. fold log0.
  assert (isBlank englishSummary = false) as Hes
    by (apply ink_not_blank, SummarizerProps.summary_ink).
  split; [|split].
  - rewrite Hpoints. apply pointsOutcome_length.
  - intros answer Ha. rewrite Hsum. unfold outcome. now rewrite Hes, Ha.
  - intros j point answer Hj Hpoint Ha. rewrite Hpoints.
    rewrite (pointsOutcome_nth translateText getLanguageName keyPoints langCode _ j
               point Hj).
    f_equal. unfold callsFor in Ha. rewrite Hen in Ha. cbn [flat_map] in Ha.
    unfold callOf at 1 in Ha. rewrite Hes in Ha.
    unfold outcome. rewrite Hpoint.
    unfold callOf at 1. rewrite Hes. rewrite <- app_assoc.
    now rewrite Ha.
Qed.

End WithTranslator.

(** A translator that always answers, tagging the text with the code. *)
Definition tagging (log : list Call) (t langCode : str) : Result str :=
  Ok (lit "<" ++ langCode ++ lit ">" ++ t).

Definition contractSummary : MultilingualSummary :=
  Eval vm_compute in
    match fst (generateMultilingualSummary tagging codeAsName noDraws contractDocument
                 [lit "en"; lit "hi"] 0%nat []) with
    | Ok ms => ms
    | Throw _ => mkMultilingual []
    end.

Lemma contractSummary_eq :
  fst (generateMultilingualSummary tagging codeAsName noDraws contractDocument
         [lit "en"; lit "hi"] 0%nat []) = Ok contractSummary.
Proof. vm_compute. reflexivity. Qed.

Lemma entries_of_a_result_witness :
  Forall (statisticsOk codeAsName contractDocument) (summaries contractSummary).
Proof.
  pose proof (entries_of_a_result tagging codeAsName noDraws contractDocument
                [lit "en"; lit "hi"] 0%nat [] contractSummary contractSummary_eq) as H.
  eapply Forall_impl; [|exact H]. intros sr Hsr. exact (proj1 Hsr).
Defined.

Lemma translation_is_passed_on_witness :
  exists sr, nth_error (summaries contractSummary) 1 = Some sr
             /\ length (Multilingual.keyPoints sr)
                = length (Summarizer.keyPoints
                            (fst (Summarizer.generateAbstractiveSummary noDraws
                                    contractDocument 0%nat))).
Proof.
  destruct (translation_is_passed_on tagging codeAsName noDraws contractDocument
              [lit "en"; lit "hi"] 0%nat [] contractSummary contractSummary_eq
              [lit "en"] (lit "hi") [] eq_refl eq_refl) as (sr & Hnth & Hlen & _).
  exists sr. split; [exact Hnth | exact Hlen].
Defined.

End MultilingualMore.

(** ** The extractive summarizer *)

Module ExtractiveProps.
Import Regex Extractive.

(** The sentences [extractSummary] chooses from, and the key-point
    candidates of [extractKeyPoints]. *)
Definition longSentences (k : nat) (t : str) : list str :=
  filter (fun s => (k <? length (trim s))%nat) (split sentenceEnd t).

Lemma mapi_from_index (X : Type) (f : X -> nat -> Scored) (l : list X) (i : nat) :
  (forall x k, index (f x k) = k) ->
  map index (mapi_from i f l) = seq i (length l).
Proof.
  intros Hf. revert i. induction l as [|x l IH]; intros i; simpl; [reflexivity|].
  now rewrite Hf, IH.
Qed.

Lemma mapi_from_nth (X : Type) (f : X -> nat -> Scored) (l : list X) (i : nat)
    (d : X) (e : Scored) :
  (forall x k, index (f x k) = k) ->
  In e (mapi_from i f l) ->
  (i <= index e < i + length l)%nat /\ e = f (nth (index e - i) l d) (index e).
Proof.
  intros Hf. revert i. induction l as [|x l IH]; intros i H; simpl in H; [contradiction|].
  destruct H as [<-|H].
  - rewrite Hf, Nat.sub_diag. simpl. split; [lia | reflexivity].
  - destruct (IH _ H) as [Hi He]. simpl. split; [lia|].
    replace (index e - i)%nat with (S (index e - S i)) by lia. exact He.
Qed.

Lemma byIndex_total (a b : Scored) : byIndex a b = false -> byIndex b a = true.
Proof.
  unfold byIndex. intros H. apply Nat.leb_gt in H. apply Nat.leb_le. lia.
Qed.

Lemma sorted_strict (l : list nat) :
  Sorted le l -> NoDup l -> StronglySorted lt l.
Proof.
  intros Hs Hn. apply Sorted_StronglySorted in Hs; [|intros a b c; apply Nat.le_trans].
  induction Hs as [|a l Hl IH Ha]; [constructor|].
  inversion Hn as [|? ? Hnot Hn']; subst.
  constructor; [now apply IH|].
  rewrite Forall_forall in *. intros b Hb. specialize (Ha b Hb).
  assert (a <> b) by (intros ->; contradiction). lia.
Qed.

Lemma Sorted_map (X Y : Type) (R : X -> X -> Prop) (S' : Y -> Y -> Prop) (f : X -> Y)
    (l : list X) :
  (forall a b, R a b -> S' (f a) (f b)) -> Sorted R l -> Sorted S' (map f l).
Proof.
  intros Hf. induction 1 as [|a l Hl IH Ha]; simpl; constructor; [exact IH|].
  destruct Ha; simpl; constructor. now apply Hf.
Qed.

(** X23: [extractSummary] returns the text as it is when it has at most
    [maxSentences] sentences of more than 20 characters; otherwise the
    summary is made of exactly [maxSentences] of these sentences, trimmed,
    in the order of the document, joined by ". " and closed by ".". *)
Theorem extractSummary_picks (t : str) (maxSentences : nat) :
  let sentences := longSentences 20 t in
  ((length sentences <= maxSentences)%nat -> extractSummary t maxSentences = t)
  /\ ((maxSentences < length sentences)%nat ->
      exists picks : list nat,
        length picks = maxSentences
        /\ StronglySorted lt picks
        /\ Forall (fun i => (i < length sentences)%nat) picks
        /\ extractSummary t maxSentences
           = join (lit ". ") (map (fun i => trim (nth i sentences [])) picks)
             ++ lit ".").
Proof.
  intros sentences. unfold extractSummary. fold (longSentences 20 t). fold sentences.
  split.
  - intros H. apply Nat.leb_le in H. now rewrite H.
  - intros H. pose proof H as Hlt. apply Nat.leb_gt in H. rewrite H.
    set (wordFreq := fold_left bump (contentWords t) []).
    set (f := fun (sentence : str) (index : nat) =>
                mkScored (trim sentence) (scoreSentence sentence wordFreq) index).
    set (scored := mapi f sentences).
    set (top := sort byIndex (firstn maxSentences (sort byScore scored))).
    assert (forall x k, index (f x k) = k) as Hf by reflexivity.
    assert (map index scored = seq 0 (length sentences)) as Hidx
      by (apply mapi_from_index; exact Hf).
    assert (Permutation top (firstn maxSentences (sort byScore scored))) as Hp1
      by apply sort_perm.
    assert (forall e, In e top -> In e scored) as Hin.
    { intros e He. apply (Permutation_in _ Hp1) in He.
      apply In_firstn in He. now apply In_sort in He. }
    exists (map index top). split; [|split; [|split]].
    + rewrite length_map. unfold top. rewrite length_sort, length_firstn, length_sort.
      unfold scored, mapi. rewrite length_mapi_from. lia.
    + apply sorted_strict.
      * apply Sorted_map with (R := fun a b => byIndex a b = true).
        -- intros a b Hab. now apply Nat.leb_le in Hab.
        -- apply sort_sorted, byIndex_total.
      * apply (Permutation_NoDup (l := map index (firstn maxSentences
                                                   (sort byScore scored)))).
        -- apply Permutation_map, Permutation_sym, Hp1.
        -- rewrite <- firstn_map. apply NoDup_firstn.
           apply (Permutation_NoDup (l := map index scored)).
           ++ apply Permutation_map, Permutation_sym, sort_perm.
           ++ rewrite Hidx. apply seq_NoDup.
    + rewrite Forall_forall. intros i Hi. apply in_map_iff in Hi as (e & <- & He).
      apply Hin in He.
      destruct (mapi_from_nth _ f sentences 0 [] e Hf He) as [Hb _]. lia.
    + f_equal. f_equal. rewrite map_map. apply map_ext_in. intros e He.
      apply Hin in He.
      destruct (mapi_from_nth _ f sentences 0 [] e Hf He) as [_ ->].
      rewrite Hf, Nat.sub_0_r. reflexivity.
Qed.

(** X24: [extractKeyPoints] returns at most [maxPoints] key points; each
    is the trimmed form of a sentence of the document of more than 15
    characters one of whose words, in small letters, is a legal keyword. *)
Theorem extractKeyPoints_sound (t : str) (maxPoints : nat) :
  (length (extractKeyPoints t maxPoints) <= maxPoints)%nat
  /\ Forall
       (fun point =>
          exists s,
            In s (longSentences 15 t) /\ point = trim s
            /\ existsb (has legalKeywords) (split spaces (toLowerCase s)) = true)
       (extractKeyPoints t maxPoints).
Proof.
  unfold extractKeyPoints. fold (longSentences 15 t). split.
  - rewrite length_map. apply firstn_le_length.
  - rewrite Forall_forall. intros point Hp.
    apply in_map_iff in Hp as (e & <- & He).
    apply In_firstn, In_sort in He. apply filter_In in He as [He Hcount].
    apply in_map_iff in He as (s & <- & Hs).
    exists s. split; [exact Hs|]. split; [reflexivity|].
    cbn [legalTermCount] in Hcount. apply Nat.ltb_lt in Hcount.
    destruct (filter (has legalKeywords) (split spaces (toLowerCase s))) as [|w ws] eqn:E;
      [simpl in Hcount; lia|].
    assert (In w (filter (has legalKeywords) (split spaces (toLowerCase s)))) as Hw
      by (rewrite E; now left).
    apply filter_In in Hw as [Hw Hk]. apply existsb_exists. now exists w.
Qed.

End ExtractiveProps.

(** ** Text extraction from a PDF *)

Module PdfProps.
Import Regex PdfProcessor ClassRuns Multilingual.

(** A pattern that starts with a code unit of a class finds nothing in a
    string that has none. *)
Lemma exec_no_start (q : ascii -> bool) (r : regex) (s : str) :
  forallb (fun c => negb (q c)) s = true ->
  forall i b, exec (Seq (Chr q) r) i b s = None.
Proof.
  induction s as [|c s IH]; intros H i b.
  - reflexivity.
  - simpl in H. apply andb_true_iff in H as [Hc H].
    cbn [exec run rest]. apply negb_true_iff in Hc. rewrite Hc. now apply IH.
Qed.

Lemma replaceAll_no_start (q : ascii -> bool) (r : regex) (x s : str) :
  forallb (fun c => negb (q c)) s = true ->
  replaceAll (Seq (Chr q) r) x s = s.
Proof.
  intros H. unfold replaceAll, split, matchAll. cbn [matchAllFrom].
  now rewrite exec_no_start.
Qed.

Lemma collapse_no_newline (raw : str) :
  forallb (fun c => negb (chr_eqb newline c)) (replaceAll spaces (lit " ") raw) = true.
Proof.
  unfold spaces, space. rewrite replaceAll_class.
  pose proof (collapse_blanks false raw) as H.
  rewrite forallb_forall in *. intros c Hc. specialize (H c Hc).
  apply orb_true_iff in H as [H|H].
  - destruct (chr_eqb newline c) eqn:E; [|reflexivity].
    apply chr_eqb_eq in E. subst c. discriminate.
  - apply chr_eqb_eq in H. subst c. reflexivity.
Qed.

(** The second replacement of the clean-up never finds a blank line. *)
Lemma cleanup_is_collapse (raw : str) :
  trim (replaceAll blankLines [newline; newline] (replaceAll spaces (lit " ") raw))
  = trim (replaceAll spaces (lit " ") raw).
Proof.
  unfold blankLines. cbn [seqOf]. unfold cs at 1.
  now rewrite replaceAll_no_start by apply collapse_no_newline.
Qed.

Lemma scannedNotice_long (fileName : str) :
  (50 <= length (scannedNotice fileName))%nat
  /\ SummarizerProps.hasInk (scannedNotice fileName) = true.
Proof.
  unfold scannedNotice. split; [|reflexivity].
  rewrite !length_app. simpl length. lia.
Qed.

Lemma errorNotice_long (fileName errorMessage : str) :
  (50 <= length (errorNotice fileName errorMessage))%nat
  /\ SummarizerProps.hasInk (errorNotice fileName errorMessage) = true.
Proof.
  unfold errorNotice. split; [|reflexivity].
  rewrite !length_app. simpl length. lia.
Qed.

(** The text before the clean-up. *)
Definition rawText (unpdf : Unpdf) : str :=
  match unpdf with
  | extracted (Some s) _ => s
  | _ => []
  end.

(** X25: [extractTextFromPDF] returns on every outcome of the library,
    with at least one page and a text of at least 50 characters that is not
    blank. When the result is not flagged as scanned, its text is the text
    of the library with white space collapsed and trimmed: it is tidy, with
    no line break left; the flag is set exactly when the library failed or
    that text has fewer than 50 characters. *)
Theorem extraction_is_usable (unpdf : Unpdf) (fileName : str) :
  let r := extractTextFromPDF unpdf fileName in
  let cleaned := trim (replaceAll spaces (lit " ") (rawText unpdf)) in
  (1 <= pageCount r)%nat
  /\ (50 <= length (text r))%nat
  /\ isBlank (text r) = false
  /\ (isScanned r = false -> text r = cleaned /\ tidy (text r) = true)
  /\ (isScanned r = true
      <-> (exists errorMessage, unpdf = failed errorMessage)
          \/ (length cleaned < 50)%nat).
Proof.
  intros r cleaned. subst r cleaned. destruct unpdf as [resultText totalPages|message].
  - cbn [extractTextFromPDF].
    assert (match resultText with Some s => s | None => [] end
            = rawText (extracted resultText totalPages)) as Hraw
      by (destruct resultText; reflexivity).
    rewrite Hraw, cleanup_is_collapse.
    set (cleaned := trim (replaceAll spaces (lit " ")
                            (rawText (extracted resultText totalPages)))).
    assert (1 <= match totalPages with Some (S n) => S n | _ => 1 end)%nat as Hpages
      by (destruct totalPages as [[|n]|]; lia).
    destruct (Nat.ltb_spec (length cleaned) 50) as [Hshort|Hlong];
      cbn [pageCount text isScanned].
    + destruct (scannedNotice_long fileName) as [Hlen Hink].
      split; [exact Hpages|]. split; [exact Hlen|].
      split; [now apply MultilingualProps.ink_not_blank|].
      split; [discriminate|]. split; [now right | reflexivity].
    + split; [exact Hpages|]. split; [exact Hlong|]. split.
      { apply MultilingualProps.ink_not_blank. unfold cleaned in *.
        apply SummarizerProps.trimmed_ink.
        intros E. rewrite E in Hlong. simpl in Hlong. lia. }
      split; [intros _; split; [reflexivity | apply trim_collapse_tidy]|].
      split; [discriminate|]. intros [[m Hm]|H]; [discriminate | lia].
  - cbn [extractTextFromPDF pageCount text isScanned].
    destruct (errorNotice_long fileName message) as [Hlen Hink].
    split; [lia|]. split; [exact Hlen|].
    split; [now apply MultilingualProps.ink_not_blank|].
    split; [discriminate|]. split; [intros _; left; now exists message | reflexivity].
Qed.

Lemma extracted_text_valid (unpdf : Unpdf) (fileName : str) :
  isBlank (text (extractTextFromPDF unpdf fileName)) = false
  /\ (50 <= length (text (extractTextFromPDF unpdf fileName)))%nat.
Proof.
  destruct unpdf as [resultText totalPages|message]; cbn [extractTextFromPDF].
  - match goal with
    | |- context [(length ?x <? 50)%nat] => set (cleaned := x)
    end.
    destruct (Nat.ltb_spec (length cleaned) 50) as [Hshort|Hlong]; cbn [text].
    + destruct (scannedNotice_long fileName) as [Hlen Hink].
      split; [now apply MultilingualProps.ink_not_blank | exact Hlen].
    + split; [|exact Hlong].
      apply MultilingualProps.ink_not_blank. unfold cleaned in *.
      apply SummarizerProps.trimmed_ink.
      intros E. rewrite E in Hlong. simpl in Hlong. lia.
  - cbn [text]. destruct (errorNotice_long fileName message) as [Hlen Hink].
    split; [now apply MultilingualProps.ink_not_blank | exact Hlen].
Qed.

(** X26: the text extracted from an upload always passes the checks of
    the multilingual summarizer: whatever the library made of the file, for
    a list of languages that is not empty [generateMultilingualSummary]
    returns a summary for each language asked for. *)
Theorem extracted_text_is_summarized
    (translateText : list Call -> str -> str -> Result str)
    (getLanguageName : str -> str) (random : nat -> Q) (unpdf : Unpdf)
    (fileName : str) (languages : list str) (draws : nat) (log : list Call) :
  languages <> [] ->
  exists ms,
    fst (generateMultilingualSummary translateText getLanguageName random
           (text (extractTextFromPDF unpdf fileName)) languages draws log) = Ok ms
    /\ map languageCode (summaries ms) = languages.
Proof.
  intros Hlangs. destruct (extracted_text_valid unpdf fileName) as [Hblank Hlen].
  now apply MultilingualMore.generate_ok.
Qed.

Lemma extracted_text_is_summarized_witness :
  exists ms,
    fst (generateMultilingualSummary MultilingualMore.tagging Examples.codeAsName
           Examples.noDraws
           (text (extractTextFromPDF (failed (lit "bad header")) (lit "lease.pdf")))
           [lit "en"] 0%nat []) = Ok ms
    /\ map languageCode (summaries ms) = [lit "en"].
Proof.
  apply (extracted_text_is_summarized MultilingualMore.tagging Examples.codeAsName
           Examples.noDraws (failed (lit "bad header")) (lit "lease.pdf") [lit "en"]
           0%nat []).
  discriminate.
Defined.

End PdfProps.

(** ** The summarize route *)

Module RouteProps.
Import Multilingual SummarizeRoute Examples.

Lemma validLanguages_supported (languages : list str) :
  Forall (fun lang => In lang supportedLangCodes) (validLanguagesOf languages).
Proof.
  rewrite Forall_forall. intros lang H. apply filter_In in H as [_ H].
  apply existsb_exists in H as (x & Hx & E). apply str_eqb_eq in E. now subst.
Qed.

Section WithTranslator.

Variable translateText : list Call -> str -> str -> Result str.
Variable getLanguageName : str -> str.

(** The languages a request asks for. *)
Definition requested (body : Body) : list str :=
  match languages body with
  | Some l => l
  | None => defaultLanguages
  end.

(** The text is there, not blank and of at most 50,000 characters, and
    one of the languages asked for is supported. *)
Definition wellFormedRequest (t : str) (body : Body) : Prop :=
  text body = Some t /\ isBlank t = false /\ (Z.of_nat (length t) <= 50000)%Z
  /\ validLanguagesOf (requested body) <> [].

Lemma POST_cases (random : nat -> Q) (body : Body) (timedOut : bool) (draws : nat)
    (log : list Call) :
  let r := fst (POST translateText getLanguageName random (Some body) timedOut draws log) in
  (status r = 400%nat /\ forall t, ~ wellFormedRequest t body)
  \/ exists t,
       wellFormedRequest t body
       /\ ((length t < 50)%nat /\ status r = 500%nat
           \/ (50 <= length t)%nat /\ timedOut = true /\ status r = 500%nat
           \/ (50 <= length t)%nat /\ timedOut = false
              /\ exists result,
                   r = success result (length (validLanguagesOf (requested body)))
                         (length t)
                   /\ fst (generateMultilingualSummary translateText getLanguageName
                             random t (validLanguagesOf (requested body)) draws log)
                      = Ok result
                   /\ map languageCode (summaries result)
                      = validLanguagesOf (requested body)).
Proof.
  intros r. subst r. unfold POST. fold (requested body).
  destruct (text body) as [[|c t']|] eqn:Etext.
  - left. split; [reflexivity|]. intros t (Ht & Hb & _).
    rewrite Etext in Ht. injection Ht as <-. discriminate.
  - set (t := c :: t') in *. fold (isBlank t).
    destruct (isBlank t) eqn:Hblank.
    { left. split; [reflexivity|]. intros t0 (Ht & Hb & _).
      rewrite Etext in Ht. injection Ht as <-. congruence. }
    destruct (Z.ltb_spec 50000 (Z.of_nat (length t))) as [Hlong|Hlen].
    { left. split; [reflexivity|]. intros t0 (Ht & _ & Hl & _).
      rewrite Etext in Ht. injection Ht as <-. lia. }
    destruct (validLanguagesOf (requested body)) as [|lang langs] eqn:Evalid.
    { left. split; [reflexivity|]. intros t0 (_ & _ & _ & Hv).
      rewrite Evalid in Hv. congruence. }
    change ((length (lang :: langs) =? 0)%nat) with false. cbv iota.
    right. exists t. split.
    { split; [exact Etext|]. split; [exact Hblank|]. split; [lia|].
      rewrite Evalid. discriminate. }
    unfold bind.
    destruct (Nat.lt_ge_cases (length t) 50) as [Hshort|Hok].
    + left. split; [exact Hshort|].
      destruct (MultilingualMore.generate_short translateText getLanguageName random t
                  (lang :: langs) draws log Hshort) as [e He].
      destruct (generateMultilingualSummary translateText getLanguageName random t
                  (lang :: langs) draws log) as [outcome log'].
      cbn [fst] in He. subst outcome. reflexivity.
    + right.
      destruct (MultilingualMore.generate_ok translateText getLanguageName random t
                  (lang :: langs) draws log Hblank Hok ltac:(discriminate))
        as (ms & Hms & Hcodes).
      destruct (generateMultilingualSummary translateText getLanguageName random t
                  (lang :: langs) draws log) as [outcome log'].
      cbn [fst] in Hms. subst outcome.
      destruct timedOut.
      * left. repeat split. exact Hok.
      * right. split; [exact Hok|]. split; [reflexivity|].
        exists ms. repeat split. exact Hcodes.
  - left. split; [reflexivity|]. intros t (Ht & _). rewrite Etext in Ht. discriminate.
Qed.

End WithTranslator.

(** *** Any request body *)

(** The values that have no string: an object with a member "toString",
    and an array that holds such a value. *)
Inductive unprintable : JSON -> Prop :=
| unprintable_object (members : list (str * JSON)) :
    In (lit "toString") (map fst members) -> unprintable (JObject members)
| unprintable_array (items : list JSON) (v : JSON) :
    In v items -> unprintable v -> unprintable (JArray items).

(** What the handler reads of a body other than [null]. *)
Definition textOf (body : JSON) : option JSON := property (lit "text") body.

Definition languagesOf (body : JSON) : JSON :=
  match property (lit "languages") body with
  | Some l => l
  | None => JArray [JString (lit "en"); JString (lit "hi"); JString (lit "ta")]
  end.

(** The line the handler logs cannot be built. *)
Definition logThrows (text : option JSON) (languages : JSON) : Prop :=
  unprintable languages
  \/ exists members n,
       text = Some (JObject members)
       /\ member (lit "length") members = Some n /\ unprintable n.

(** The text is taken to be missing: it is not there, or it is null,
    false, a zero or the empty string. *)
Definition noText (text : option JSON) : Prop :=
  text = None \/ text = Some JNull \/ text = Some (JBool false)
  \/ (exists s, text = Some (JNumber (SpecFloat.S754_zero s)))
  \/ text = Some (JNumber SpecFloat.S754_nan)
  \/ text = Some (JString []).

(** The text is the string [t], not blank and of at most 50,000
    characters. *)
Definition goodText (t : str) (text : option JSON) : Prop :=
  text = Some (JString t) /\ isBlank t = false /\ (Z.of_nat (length t) <= 50000)%Z.

(** A request the handler passes on to the summarizer. *)
Definition servable (t : str) (text : option JSON) (languages : JSON) : Prop :=
  ~ logThrows text languages
  /\ goodText t text
  /\ exists items,
       languages = JArray items
       /\ exists code, In (JString code) items /\ In code supportedLangCodes.

(** A request on which the handler throws a TypeError. *)
Definition crashes (text : option JSON) (languages : JSON) : Prop :=
  logThrows text languages
  \/ (~ noText text /\ forall t, text <> Some (JString t))
  \/ ((exists t, goodText t text) /\ forall items, languages <> JArray items).

Lemma printable_object (members : list (str * JSON)) :
  printable (JObject members) = false <-> In (lit "toString") (map fst members).
Proof.
  simpl. rewrite negb_false_iff, existsb_exists. split.
  - intros (m & Hm & E). apply str_eqb_eq in E. rewrite <- E. now apply in_map.
  - intros H. apply in_map_iff in H as (m & E & Hm). exists m. split; [exact Hm|].
    rewrite E. apply str_eqb_eq. reflexivity.
Qed.

Lemma printable_spec (v : JSON) : printable v = false <-> unprintable v.
Proof.
  revert v. fix IH 1. intros [| b | x | s | items | members].
  - split; [discriminate | inversion 1].
  - split; [discriminate | inversion 1].
  - split; [discriminate | inversion 1].
  - split; [discriminate | inversion 1].
  - assert (forall l, forallb printable l = false <-> exists v, In v l /\ unprintable v)
      as Hl.
    { clear items. fix IHl 1. intros [|y l]; simpl.
      - split; [discriminate | intros (v & [] & _)].
      - rewrite andb_false_iff, (IH y), (IHl l). split.
        + intros [Hy|(v & Hv & Hu)]; [exists y | exists v]; auto.
        + intros (v & [<-|Hv] & Hu); [now left | right; now exists v]. }
    change (printable (JArray items)) with (forallb printable items). rewrite Hl.
    split.
    + intros (v & Hv & Hu). now apply unprintable_array with v.
    + inversion 1; subst. now exists v.
  - rewrite printable_object. split; [now constructor | now inversion 1].
Qed.

Lemma member_absent (key : str) (members : list (str * JSON)) :
  member key members = None <-> ~ In key (map fst members).
Proof.
  induction members as [|[name v] rest IH]; simpl; [tauto|].
  destruct (member key rest) as [later|].
  - split; [discriminate|]. intros H.
    assert (~ In key (map fst rest)) as Hn by tauto.
    apply IH in Hn. discriminate.
  - destruct (str_eqb name key) eqn:E.
    + apply str_eqb_eq in E. split; [discriminate | tauto].
    + split; [|reflexivity]. intros _ [Hk|Hk].
      * apply str_eqb_eq in Hk. congruence.
      * now apply IH in Hk.
Qed.

(** The member read is the last one of its name. *)
Lemma member_last (key : str) (members : list (str * JSON)) (v : JSON) :
  member key members = Some v
  <-> exists before after,
        members = before ++ (key, v) :: after /\ ~ In key (map fst after).
Proof.
  split.
  - revert v. induction members as [|[name v0] rest IH]; intros v; [discriminate|].
    cbn [member]. destruct (member key rest) as [later|] eqn:E.
    + intros H. injection H as ->.
      destruct (IH v eq_refl) as (before & after & -> & Hn).
      exists ((name, v0) :: before), after. split; [reflexivity | exact Hn].
    + destruct (str_eqb name key) eqn:Ek; [|discriminate].
      intros H. injection H as ->. apply str_eqb_eq in Ek. subst name.
      exists [], rest. split; [reflexivity|]. now apply member_absent.
  - intros (before & after & -> & Hn). apply member_absent in Hn.
    induction before as [|[name v0] before IH].
    + cbn [app member]. rewrite Hn.
      assert (str_eqb key key = true) as -> by now apply str_eqb_eq.
      reflexivity.
    + cbn [app member]. now rewrite IH.
Qed.

Lemma log_spec (text : option JSON) (languages : JSON) :
  (match lengthOf text with
   | Some n => printable n
   | None => true
   end && printable languages) = false
  <-> logThrows text languages.
Proof.
  rewrite andb_false_iff, (printable_spec languages). unfold logThrows. split.
  - intros [H|H]; [|now left]. right.
    destruct text as [[| b | x | s | items | members]|]; cbn [lengthOf printable] in H;
      try discriminate.
    destruct (member (lit "length") members) as [n|] eqn:E; [|discriminate].
    exists members, n. split; [reflexivity|]. split; [exact E|].
    now apply printable_spec.
  - intros [H|(members & n & -> & E & H)]; [now right|]. left.
    cbn [lengthOf]. rewrite E. now apply printable_spec.
Qed.

Lemma falsy_spec (text : option JSON) : falsy text = true <-> noText text.
Proof.
  unfold noText. split.
  - destruct text as [[| [|] | [s|s| |s m e] | [|c s] | items | members]|];
      simpl; try discriminate; intros _; eauto 7.
  - intros [->|[->|[->|[(s & ->)|[->| ->]]]]]; reflexivity.
Qed.

Lemma validItems_spec (items : list JSON) (code : str) :
  In code (validItems items)
  <-> In (JString code) items /\ In code supportedLangCodes.
Proof.
  unfold validItems. rewrite in_flat_map. split.
  - intros (lang & Hlang & H). destruct lang as [| b | x | s | l | ms]; try contradiction.
    destruct (existsb (str_eqb s) supportedLangCodes) eqn:E; [|contradiction].
    destruct H as [<-|[]]. split; [exact Hlang|].
    apply existsb_exists in E as (c & Hc & Ec). apply str_eqb_eq in Ec. now subst.
  - intros [Hin Hs]. exists (JString code). split; [exact Hin|].
    assert (existsb (str_eqb code) supportedLangCodes = true) as E.
    { apply existsb_exists. exists code. split; [exact Hs|]. now apply str_eqb_eq. }
    rewrite E. now left.
Qed.

Lemma validItems_strings (languages : list str) :
  validItems (map JString languages) = validLanguagesOf languages.
Proof.
  unfold validItems, validLanguagesOf.
  induction languages as [|lang l IH]; [reflexivity|].
  cbn [map flat_map filter]. rewrite IH.
  now destruct (existsb (str_eqb lang) supportedLangCodes).
Qed.

(** A request body of [POST] as a JSON value. *)
Definition bodyJSON (body : Body) : JSON :=
  JObject
    (match text body with
     | Some t => [(lit "text", JString t)]
     | None => []
     end
     ++ match languages body with
        | Some l => [(lit "languages", JArray (map JString l))]
        | None => []
        end).

Lemma printable_strings (l : list str) : forallb printable (map JString l) = true.
Proof. induction l as [|s l IH]; simpl; [reflexivity | exact IH]. Qed.

Lemma noText_not_good (t : str) (text : option JSON) :
  noText text -> goodText t text -> False.
Proof.
  intros H (Ht & Hb & _). rewrite Ht in H.
  destruct H as [H|[H|[H|[(s & H)|[H|H]]]]]; try discriminate.
  injection H as ->. vm_compute in Hb. discriminate.
Qed.

Section WithTranslatorJSON.

Variable translateText : list Call -> str -> str -> Result str.
Variable getLanguageName : str -> str.

(** The handler once it has read [text] and [languages]. *)
Definition handleFields (random : nat -> Q) (text : option JSON) (languages : JSON)
    (timedOut : bool) : nat -> Tr Response :=
  fun draws =>
    if negb (match lengthOf text with
             | Some n => printable n
             | None => true
             end && printable languages)
    then ret (serverError (lit "top_level"))
    else if falsy text then
      ret (badRequest (lit "Text is required for summarization"))
    else
      match text with
      | Some (JString t) =>
          if (length (trim t) =? 0)%nat then
            ret (badRequest (lit "Text cannot be empty"))
          else if (50000 <? Z.of_nat (length t))%Z then
            ret (badRequest
                   (lit "Text is too long for processing (max 50,000 characters)"))
          else
            match languages with
            | JArray items =>
                let validLanguages := validItems items in
                if (length validLanguages =? 0)%nat then
                  ret (badRequest (lit "At least one supported language is required"))
                else
                  bind (generateMultilingualSummary translateText getLanguageName
                          random t validLanguages draws)
                    (fun outcome =>
                       match outcome with
                       | Throw _ => ret (serverError (lit "summary_generation"))
                       | Ok result =>
                           if timedOut
                           then ret (serverError (lit "summary_generation"))
                           else ret (success result (length validLanguages)
                                       (length t))
                       end)
            | _ => ret (serverError (lit "top_level"))
            end
      | _ => ret (serverError (lit "top_level"))
      end.

Lemma POSTjson_fields (random : nat -> Q) (body : JSON) (timedOut : bool) :
  body <> JNull ->
  POSTjson translateText getLanguageName random (Some body) timedOut
  = handleFields random (textOf body) (languagesOf body) timedOut.
Proof. destruct body; [congruence | reflexivity ..]. Qed.

(** On a body of the shape [POST] reads, the two embeddings of the
    handler agree. *)
Lemma POSTjson_typed (random : nat -> Q) (body : Body) (timedOut : bool)
    (draws : nat) (log : list Call) :
  POSTjson translateText getLanguageName random (Some (bodyJSON body)) timedOut draws log
  = POST translateText getLanguageName random (Some body) timedOut draws log.
Proof.
  rewrite POSTjson_fields by discriminate. unfold handleFields, POST.
  assert (textOf (bodyJSON body)
          = match text body with Some t => Some (JString t) | None => None end) as Ht
    by (destruct body as [[t|] [l|]]; reflexivity).
  assert (languagesOf (bodyJSON body)
          = JArray (map JString (match languages body with
                                 | Some l => l
                                 | None => defaultLanguages
                                 end))) as Hl
    by (destruct body as [[t|] [l|]]; reflexivity).
  rewrite Ht, Hl. cbn [printable]. rewrite printable_strings, validItems_strings.
  destruct (text body) as [[|c t]|]; reflexivity.
Qed.

Lemma handleFields_cases (random : nat -> Q) (text : option JSON) (languages : JSON)
    (timedOut : bool) (draws : nat) (log : list Call) :
  let r := fst (handleFields random text languages timedOut draws log) in
  (crashes text languages /\ status r = 500%nat)
  \/ (~ crashes text languages /\ (forall t, ~ servable t text languages)
      /\ status r = 400%nat)
  \/ exists t,
       servable t text languages /\ ~ crashes text languages
       /\ ((length t < 50)%nat /\ status r = 500%nat
           \/ (50 <= length t)%nat /\ timedOut = true /\ status r = 500%nat
           \/ (50 <= length t)%nat /\ timedOut = false /\ status r = 200%nat).
Proof.
  intros r. subst r. unfold handleFields.
  destruct (match lengthOf text with
            | Some n => printable n
            | None => true
            end && printable languages) eqn:Elog; cbn [negb].
  2:{ left. split; [|reflexivity]. left. now apply log_spec. }
  assert (~ logThrows text languages) as Hlog.
  { intros H. apply log_spec in H. congruence. }
  destruct (falsy text) eqn:Efalsy.
  { right. left. apply falsy_spec in Efalsy. split; [|split; [|reflexivity]].
    - intros [H|[[H _]|[(t & Hgood) _]]]; [contradiction | contradiction |].
      exact (noText_not_good _ _ Efalsy Hgood).
    - intros t (_ & Hgood & _). exact (noText_not_good _ _ Efalsy Hgood). }
  assert (~ noText text) as Hsome.
  { intros H. apply falsy_spec in H. congruence. }
  destruct text as [[| b | x | t | items | members]|];
    try (left; split; [right; left; split; [exact Hsome | discriminate] | reflexivity]).
  fold (isBlank t). destruct (isBlank t) eqn:Hblank.
  { right. left. split; [|split; [|reflexivity]].
    - intros [H|[[_ H]|[(t' & Ht & Hb & _) _]]]; [contradiction | now apply (H t) |].
      injection Ht as <-. congruence.
    - intros t' (_ & (Ht & Hb & _) & _). injection Ht as <-. congruence. }
  destruct (Z.ltb_spec 50000 (Z.of_nat (length t))) as [Hlong|Hlen].
  { right. left. split; [|split; [|reflexivity]].
    - intros [H|[[_ H]|[(t' & Ht & _ & Hl) _]]]; [contradiction | now apply (H t) |].
      injection Ht as <-. lia.
    - intros t' (_ & (Ht & _ & Hl) & _). injection Ht as <-. lia. }
  assert (goodText t (Some (JString t))) as Hgood
    by (split; [reflexivity|]; split; [exact Hblank | exact Hlen]).
  destruct languages as [| b | x | s | items | members];
    try (left; split; [right; right; split; [now exists t | discriminate]
                      | reflexivity]).
  assert (~ crashes (Some (JString t)) (JArray items)) as Hfine.
  { intros [H|[[_ H]|[_ H]]]; [contradiction | now apply (H t) | now apply (H items)]. }
  destruct (validItems items) as [|lang langs] eqn:Evalid.
  { right. left. split; [exact Hfine|]. split; [|reflexivity].
    intros t' (_ & _ & items' & E & code & Hin & Hs). injection E as <-.
    assert (In code (validItems items)) as H by (apply validItems_spec; now split).
    rewrite Evalid in H. contradiction. }
  change ((length (lang :: langs) =? 0)%nat) with false. cbv iota.
  right. right. exists t. split; [|split; [exact Hfine|]].
  { split; [exact Hlog|]. split; [exact Hgood|]. exists items. split; [reflexivity|].
    exists lang. apply validItems_spec. rewrite Evalid. now left. }
  unfold bind.
  destruct (Nat.lt_ge_cases (length t) 50) as [Hshort|Hok].
  - left. split; [exact Hshort|].
    destruct (MultilingualMore.generate_short translateText getLanguageName random t
                (lang :: langs) draws log Hshort) as [e He].
    destruct (generateMultilingualSummary translateText getLanguageName random t
                (lang :: langs) draws log) as [outcome log'].
    cbn [fst] in He. subst outcome. reflexivity.
  - right.
    destruct (MultilingualMore.generate_ok translateText getLanguageName random t
                (lang :: langs) draws log Hblank Hok ltac:(discriminate))
      as (ms & Hms & _).
    destruct (generateMultilingualSummary translateText getLanguageName random t
                (lang :: langs) draws log) as [outcome log'].
    cbn [fst] in Hms. subst outcome.
    destruct timedOut; [left | right]; repeat split; exact Hok.
Qed.

(** X27: the status of the answer of the summarize route, whatever the
    body of the request is. A body that is not JSON gets 400 and the body
    [null] 500. Of any other body the handler reads the members [text] and
    [languages], the languages being English, Hindi and Tamil when there is
    no such member. The answer is 200 exactly when the request can be
    served: the logged line can be built, the text is a string that is not
    blank and has 50 to 50,000 characters, the languages are an array that
    holds a supported code, and the summarizer settles in time. It is 500
    exactly when the handler throws a TypeError: the logged line cannot be
    built, the text is there but not a string, or the text is good and the
    languages are not an array; or when the request can be served but the
    text has fewer than 50 characters or the time runs out. It is 400 in
    every other case. *)
Theorem summarize_status (random : nat -> Q) (body : JSON) (timedOut : bool)
    (draws : nat) (log : list Call) :
  let r :=
    fst (POSTjson translateText getLanguageName random (Some body) timedOut draws log) in
  let text := textOf body in
  let languages := languagesOf body in
  status (fst (POSTjson translateText getLanguageName random None timedOut draws log))
  = 400%nat
  /\ (body = JNull -> status r = 500%nat)
  /\ (body <> JNull ->
      (status r = 200%nat
       <-> exists t, servable t text languages /\ (50 <= length t)%nat
                     /\ timedOut = false)
      /\ (status r = 500%nat
          <-> crashes text languages
              \/ exists t, servable t text languages
                           /\ ((length t < 50)%nat \/ timedOut = true))
      /\ (status r = 400%nat
          <-> ~ crashes text languages /\ forall t, ~ servable t text languages)).
Proof.
  intros r text languages. split; [reflexivity|]. split.
  { intros ->. reflexivity. }
  intros Hbody. subst r. rewrite (POSTjson_fields random body timedOut Hbody).
  fold text. fold languages.
  assert (forall t t', servable t text languages -> servable t' text languages -> t = t')
    as Huniq.
  { intros t t' (_ & (H & _) & _) (_ & (H' & _) & _). congruence. }
  destruct (handleFields_cases random text languages timedOut draws log)
    as [[Hc H500]|[(Hn & Hs & H400)|(t & Hs & Hn & [[Hshort H500]|[(Hok & Hout & H500)|(Hok & Hin & H200)]])]].
  - rewrite H500. split; [|split].
    + split; [discriminate|]. intros (t & (Hlog & Hgood & items & Hl & _) & _).
      exfalso. destruct Hc as [H|[[_ H]|[_ H]]].
      * contradiction.
      * destruct Hgood as (Ht & _). now apply (H t).
      * now apply (H items).
    + split; [|reflexivity]. intros _. now left.
    + split; [discriminate|]. intros [H _]. contradiction.
  - rewrite H400. split; [|split].
    + split; [discriminate|]. intros (t & H & _). now apply Hs in H.
    + split; [discriminate|]. intros [H|(t & H & _)]; [contradiction | now apply Hs in H].
    + split; [|reflexivity]. intros _. now split.
  - rewrite H500. split; [|split].
    + split; [discriminate|]. intros (t' & Hs' & Hlen & _).
      rewrite (Huniq _ _ Hs' Hs) in Hlen. lia.
    + split; [|reflexivity]. intros _. right. exists t. split; [exact Hs | now left].
    + split; [discriminate|]. intros [_ H]. now apply H in Hs.
  - rewrite H500. split; [|split].
    + split; [discriminate|]. intros (t' & _ & _ & Hin). congruence.
    + split; [|reflexivity]. intros _. right. exists t. split; [exact Hs | now right].
    + split; [discriminate|]. intros [_ H]. now apply H in Hs.
  - rewrite H200. split; [|split].
    + split; [|reflexivity]. intros _. exists t. repeat split; try assumption; apply Hs.
    + split; [discriminate|]. intros [H|(t' & Hs' & [Hlen|Hout])];
        [contradiction | | congruence].
      rewrite (Huniq _ _ Hs' Hs) in Hlen. lia.
    + split; [discriminate|]. intros [_ H]. now apply H in Hs.
Qed.

End WithTranslatorJSON.

Section WithTranslator.

Variable translateText : list Call -> str -> str -> Result str.
Variable getLanguageName : str -> str.

(** X28: what a successful answer of the summarize route carries: the
    result of the summarizer for the text and the supported ones among the
    languages asked for, with one summary for each of them, in the order of
    the request, their number and the length of the text. When the request
    names no language, the summaries are those of English and Hindi: the
    third default, Tamil, is not supported. *)
Theorem summarize_success (random : nat -> Q) (body : Body) (timedOut : bool)
    (draws : nat) (log : list Call) (result : MultilingualSummary)
    (processedLanguages textLength : nat) :
  fst (POST translateText getLanguageName random (Some body) timedOut draws log)
  = success result processedLanguages textLength ->
  let validLanguages := validLanguagesOf (requested body) in
  exists t,
    text body = Some t /\ textLength = length t
    /\ processedLanguages = length validLanguages
    /\ fst (generateMultilingualSummary translateText getLanguageName random t
              validLanguages draws log) = Ok result
    /\ map languageCode (summaries result) = validLanguages
    /\ Forall (fun code => In code supportedLangCodes)
         (map languageCode (summaries result))
    /\ (languages body = None ->
        map languageCode (summaries result) = [lit "en"; lit "hi"]).
Proof.
  intros H validLanguages. subst validLanguages.
  destruct (POST_cases translateText getLanguageName random body timedOut draws log)
    as [[H400 _]|(t & Hwf & [[_ H500]|[(_ & _ & H500)|(_ & _ & result' & Hr & Hgen & Hcodes)]])];
    rewrite H in *; try discriminate.
  injection Hr as -> -> ->. destruct Hwf as (Ht & _).
  exists t. split; [exact Ht|]. split; [reflexivity|]. split; [reflexivity|].
  split; [exact Hgen|]. split; [exact Hcodes|]. split.
  - rewrite Hcodes. apply validLanguages_supported.
  - intros Hnone. rewrite Hcodes. unfold requested. rewrite Hnone. reflexivity.
Qed.

End WithTranslator.

(** The status of the answer for some bodies: [null]; an array; a text
    that is a number; languages that are a string, [null], an array with a
    number and a supported code, an array with an object that has a member
    "toString"; an empty text together with languages that are [null]. *)
Lemma POSTjson_statuses :
  let answer body :=
    status (fst (POSTjson MultilingualMore.tagging codeAsName noDraws (Some body) false
                   0%nat [])) in
  let document := (lit "text", JString contractDocument) in
  map answer
    [ JNull;
      JArray [];
      JObject [(lit "text", JNumber (Binary64.ofZ 5))];
      JObject [document; (lit "languages", JString (lit "en"))];
      JObject [document; (lit "languages", JNull)];
      JObject [document;
               (lit "languages", JArray [JNumber (Binary64.ofZ 1); JString (lit "hi")])];
      JObject [document;
               (lit "languages",
                JArray [JObject [(lit "toString", JNull)]; JString (lit "hi")])];
      JObject [(lit "text", JString []); (lit "languages", JNull)];
      JObject [document] ]
  = [500; 400; 500; 500; 500; 200; 500; 400; 200]%nat.
Proof. vm_compute. reflexivity. Qed.

Definition contractRequest : Body := mkBody (Some contractDocument) None.

Definition contractAnswer : MultilingualSummary :=
  Eval vm_compute in
    match fst (POST MultilingualMore.tagging codeAsName noDraws (Some contractRequest)
                 false 0%nat []) with
    | success result _ _ => result
    | _ => mkMultilingual []
    end.

Lemma contractAnswer_eq :
  fst (POST MultilingualMore.tagging codeAsName noDraws (Some contractRequest) false
         0%nat [])
  = success contractAnswer 2 92.
Proof. vm_compute. reflexivity. Qed.

Lemma summarize_success_witness :
  map languageCode (summaries contractAnswer) = [lit "en"; lit "hi"].
Proof.
  destruct (summarize_success MultilingualMore.tagging codeAsName noDraws contractRequest
              false 0%nat [] contractAnswer 2 92 contractAnswer_eq)
    as (t & _ & _ & _ & _ & _ & _ & H).
  exact (H eq_refl).
Defined.

End RouteProps.

(** ** The dashboard *)

Module DashboardProps.
Import Classifier Dashboard ClassifierProps.

Lemma uniqTypes_In (l seen : list ClauseType) (x : ClauseType) :
  In x (uniqTypes seen l) <-> In x l /\ ~ In x seen.
Proof.
  assert (forall s y, existsb (type_eqb y) s = true <-> In y s) as Hhas.
  { intros s y. rewrite existsb_exists. split.
    - intros (z & Hz & E). destruct y, z; try discriminate; exact Hz.
    - intros H. exists y. split; [exact H | now destruct y]. }
  revert seen. induction l as [|y l IH]; intros seen; simpl; [tauto|].
  destruct (existsb (type_eqb y) seen) eqn:E.
  - apply Hhas in E. rewrite IH. intuition (subst; tauto).
  - assert (~ In y seen) as Hy by (rewrite <- Hhas, E; discriminate).
    simpl. rewrite IH. simpl.
    destruct x, y; intuition (try discriminate; try congruence; auto).
Qed.

Lemma uniqTypes_NoDup (l seen : list ClauseType) : NoDup (uniqTypes seen l).
Proof.
  revert seen. induction l as [|y l IH]; intros seen; simpl; [constructor|].
  destruct (existsb (type_eqb y) seen); [apply IH|].
  constructor; [|apply IH]. rewrite uniqTypes_In. simpl. tauto.
Qed.

(** X29: the clause types the dashboard lists are the types of the
    clauses of the result, each exactly once: at most five. *)
Theorem clause_types_listed_once (result : ClassificationResult) :
  NoDup (getClauseTypes result)
  /\ (length (getClauseTypes result) <= 5)%nat
  /\ forall ty, In ty (getClauseTypes result)
                <-> exists c, In c (clauses result) /\ type c = ty.
Proof.
  unfold getClauseTypes. split; [apply uniqTypes_NoDup|]. split.
  - change 5%nat with (length clauseTypes).
    apply NoDup_incl_length; [apply uniqTypes_NoDup|].
    intros ty _. unfold clauseTypes. destruct ty; simpl; tauto.
  - intros ty. rewrite uniqTypes_In, in_map_iff. simpl. split.
    + intros [(c & Hc & Hin) _]. now exists c.
    + intros (c & Hin & Hc). split; [now exists c | tauto].
Qed.

(** X30: the risk level the dashboard shows for a document the classifier
    has classified: Low exactly when no clause is high-risk, Medium exactly
    when the high-risk clauses are some but fewer than 30% of all, High
    otherwise; the ratio is never taken over zero clauses. *)
Theorem dashboard_risk_level (random : nat -> Q) (t : str) (n : nat) :
  let r := fst (classifyDocument random t n) in
  let highRisk := countLevel high (clauses r) in
  let total := length (clauses r) in
  (highRisk <= total)%nat
  /\ (getRiskLevel r = Low <-> highRisk = 0%nat)
  /\ (getRiskLevel r = Medium <-> (0 < highRisk /\ 10 * highRisk < 3 * total)%nat)
  /\ (getRiskLevel r = High <-> (0 < highRisk /\ 3 * total <= 10 * highRisk)%nat).
Proof.
  intros r highRisk total.
  assert (highRisk <= total)%nat as Hle by apply filter_length_le.
  split; [exact Hle|].
  unfold getRiskLevel. subst r. rewrite classifyDocument_summary.
  cbn [summary highRiskClauses totalClauses resultOf].
  fold highRisk. fold total.
  destruct (Nat.eqb_spec highRisk 0) as [H0|H0].
  { split; [tauto|]. split; (split; [discriminate | lia]). }
  destruct (Nat.eqb_spec total 0) as [Ht|Ht]; [lia|].
  assert (0 < inject_Z (Z.of_nat total)) as Hpos.
  { change 0 with (inject_Z 0). rewrite <- Zlt_Qlt. lia. }
  assert (Qle_bool (3 # 10) (inject_Z (Z.of_nat highRisk) / inject_Z (Z.of_nat total))
          = true <-> (3 * total <= 10 * highRisk)%nat) as Hratio.
  { rewrite Qle_bool_iff. split.
    - intros H.
      assert ((3 # 10) * inject_Z (Z.of_nat total) <= inject_Z (Z.of_nat highRisk)) as H'.
      { apply Qmult_le_compat_r with (z := inject_Z (Z.of_nat total)) in H; [|lra].
        rewrite (Qmult_comm (_ / _)) in H. rewrite Qmult_div_r in H; [exact H | lra]. }
      unfold Qle, Qmult, inject_Z in H'. cbn [Qnum Qden] in H'. lia.
    - intros H. apply Qle_shift_div_l; [exact Hpos|].
      unfold Qle, Qmult, inject_Z. cbn [Qnum Qden]. lia. }
  destruct (Qle_bool (3 # 10)
              (inject_Z (Z.of_nat highRisk) / inject_Z (Z.of_nat total))) eqn:E;
    cbn [negb].
  - assert (3 * total <= 10 * highRisk)%nat by now apply Hratio.
    split; [split; [discriminate | lia]|].
    split; split; try discriminate; try reflexivity; lia.
  - assert (~ (3 * total <= 10 * highRisk)%nat) as Hn
      by (rewrite <- Hratio; discriminate).
    split; [split; [discriminate | lia]|].
    split; split; try discriminate; try reflexivity; lia.
Qed.

End DashboardProps.
